(** * The debug server (program/server/server.go): breakpoints, resume, frames

    A shallow embedding of the request handlers of [Server] and of the ptrace
    facility they drive, with the properties of the engine stated over it. *)

From Stdlib Require Import ZArith Lia String Ascii HexString DecimalString.
From Stdlib.Strings Require Import Byte.
From stdpp Require Import base option list gmap strings fin_maps.

Local Open Scope Z_scope.

(** ** Errors and outcomes *)

(** Go errors.  [fmt.Errorf("wait: %v", err)] and its siblings wrap the error
    they received; the constructor names follow the specification's taxonomy
    and the comment gives the format string of the source. *)
Inductive error : Type :=
| Errno (e : Z)                        (* a syscall.Errno *)
| ErrLib (msg : string)                (* an error value of a library out of scope *)
| NoProcess                            (* "Resume: Run did not successfully start a process" *)
| WaitFailed (e : error)               (* "wait: %v" *)
| ContinueFailed (e : error)           (* "ptraceCont: %v" *)
| StepFailed (e : error)               (* "ptraceSingleStep: %v" *)
| SetOptionsFailed (e : error)         (* "ptraceSetOptions: %v" *)
| PeekFailed (e : error)               (* "ptracePeek: %v" *)
| GetRegsFailed (e : error)            (* "ptraceGetRegs: %v" *)
| SetRegsFailed (e : error)            (* "ptraceSetRegs: %v" *)
| SetBreakpointsFailed (e : error)     (* "setBreakpoints: %v" *)
| LiftBreakpointsFailed (e : error)    (* "liftBreakpoints: %v" *)
| DuplicateBreakpoint (pc : Z)         (* "breakpoint already set at %#x (TODO)" *)
| BadMode (mode : string)              (* "Open: bad open mode %q" *)
| BadFd (fd : Z)                       (* "...: bad file descriptor %d" *)
| BadExpression (expr : string)        (* "bad expression syntax: %q" *)
| NotAnAddress (expr : string)         (* "eval: %q is neither symbol nor number" *)
| NoLineData (expr : string)           (* "no PC/line data for: %q" *)
| Unimplemented                        (* "Frames.Count != 1 is not implemented" *)
| ParameterHasChildren                 (* "FormalParameter has children, expected none" *)
| NoLocation.                          (* "no location for FormalParameter" *)

(** How a call can end without a value: it returns an error, it panics (nil
    dereference, slice bound, failed type assertion), or it never returns
    because the tracer blocks in [wait]. *)
Inductive abort : Type :=
| Err (e : error)
| Panic
| Hang.

Inductive result (A : Type) : Type :=
| Ok (a : A)
| Abort (x : abort).
Arguments Ok {A} a.
Arguments Abort {A} x.

Definition is_ok {A} (r : result A) : bool :=
  match r with Ok _ => true | Abort _ => false end.

(** ** Machine data *)

Definition uint64_mod : Z := 2 ^ 64.
Definition uint64 (z : Z) : Z := z mod uint64_mod.

(** syscall.PtraceRegs on amd64: the two registers the server reads, and the
    rest of the register file, which it only carries from get to set. *)
Record PtraceRegs : Type := mkRegs {
  Rip : Z;
  Rsp : Z;
  OtherRegs : list Z;
}.

Definition zeroRegs : PtraceRegs := mkRegs 0 0 [].

Definition set_Rip (v : Z) (r : PtraceRegs) : PtraceRegs :=
  mkRegs v (Rsp r) (OtherRegs r).

(** Go's [a[:n]] on an array or slice: panics unless [0 <= n <= len(a)]. *)
Definition slice_to {A} (a : list A) (n : Z) : option (list A) :=
  if (0 <=? n) && (n <=? Z.of_nat (length a)) then Some (take (Z.to_nat n) a) else None.

(** Modelled from the spec: package arch (not under src/).  The descriptor of
    section 3: sizes in bytes, the breakpoint instruction held in an array of
    [MaxBreakpointSize] bytes, and the integer decoder. *)
Record Architecture : Type := mkArch {
  BreakpointSize : Z;
  IntSize : Z;
  PointerSize : Z;
  BreakpointInstr : list byte;
  Int : list byte → Z;
}.

(** The length of the array type [[arch.MaxBreakpointSize]byte]. *)
Definition MaxBreakpointSize (a : Architecture) : Z :=
  Z.of_nat (length (BreakpointInstr a)).

(** ** syscall.WaitStatus

    The status word of Go's syscall package on linux and its methods
    Stopped, StopSignal and TrapCause, with the constants the server uses. *)

Definition SIGTRAP : Z := 5.
Definition PTRACE_EVENT_CLONE : Z := 3.
Definition PTRACE_O_TRACECLONE : Z := 8.

Definition Stopped (w : Z) : bool := Z.land w 255 =? 127.

Definition StopSignal (w : Z) : Z :=
  if Stopped w then Z.land (Z.shiftr w 8) 255 else -1.

Definition TrapCause (w : Z) : Z :=
  if StopSignal w =? SIGTRAP then Z.shiftr (Z.shiftr w 8) 8 else -1.

(** The test of waitForTrap, line 323. *)
Definition is_trap (status : Z) : bool :=
  (StopSignal status =? SIGTRAP) && negb (TrapCause status =? PTRACE_EVENT_CLONE).

(** ** The traced process and the kernel

    The wrappers [wait], [ptraceCont], [ptraceSingleStep], [ptraceSetOptions],
    [ptracePeek], [ptracePoke], [ptraceGetRegs], [ptraceSetRegs] and
    [startProcess] are in ptrace.go, which is not under src/; they pass their
    arguments to the kernel's trace facility and return its error.  The
    debuggee is its memory and the register files of its stopped tasks; what
    it does while it runs is not computed but read from a script of the
    answers [wait] will give. *)

(** Modelled from the spec: one answer of [wait] (section 4.5, wait_for_trap).
    The kernel fails, or a task reports a status; the registers and the
    memory are those the debuggee has when it reports. *)
Record WaitEvent : Type := mkEvent {
  ev_pid : Z;
  ev_status : Z;
  ev_regs : PtraceRegs;
  ev_mem : gmap Z byte;
}.

Inductive WaitAnswer : Type :=
| WaitErr (e : Z)
| WaitEv (ev : WaitEvent).

(** Modelled from the spec: one answer of fork and exec (section 4.5, run):
    the new task, stopped, with its image. *)
Record Spawn : Type := mkSpawn {
  sp_pid : Z;
  sp_regs : PtraceRegs;
  sp_mem : gmap Z byte;
}.

(** Modelled from the spec: the kernel calls of section 4.1, as the tracer
    thread issues them. *)
Inductive Syscall : Type :=
| SysWait (pid : Z) (answer : option (Z * Z))
| SysCont (pid sig : Z)
| SysSingleStep (pid : Z)
| SysSetOptions (pid options : Z)
| SysPeek (pid addr : Z) (n : nat)
| SysPoke (pid addr : Z) (data : list byte)
| SysGetRegs (pid : Z)
| SysSetRegs (pid : Z) (regs : PtraceRegs)
| SysKill (pid : Z)
| SysStart (executable : string)
| SysOpenFile (name : string) (flag : Z).

(** Modelled from the spec: the debuggee and the host as the trace channel
    of section 4.1 sees them. *)
Record World : Type := mkWorld {
  w_mem : gmap Z byte;            (* mapped bytes of the debuggee *)
  w_regs : gmap Z PtraceRegs;     (* register files of the stopped traced tasks *)
  w_waits : list WaitAnswer;      (* what wait will answer, in order *)
  w_spawns : list (Z + Spawn);    (* what fork and exec will answer, in order *)
  w_files : string → Z → Z + Z;   (* os.OpenFile: errno or a handle *)
  w_rand : list nat;              (* the runtime's choices of map iteration order *)
  w_log : list Syscall;           (* the calls issued so far *)
}.

Definition ESRCH : Z := 3.
Definition EIO : Z := 5.

Definition with_mem (m : gmap Z byte) (w : World) : World :=
  mkWorld m (w_regs w) (w_waits w) (w_spawns w) (w_files w) (w_rand w) (w_log w).
Definition with_regs (r : gmap Z PtraceRegs) (w : World) : World :=
  mkWorld (w_mem w) r (w_waits w) (w_spawns w) (w_files w) (w_rand w) (w_log w).
Definition with_waits (l : list WaitAnswer) (w : World) : World :=
  mkWorld (w_mem w) (w_regs w) l (w_spawns w) (w_files w) (w_rand w) (w_log w).
Definition with_spawns (l : list (Z + Spawn)) (w : World) : World :=
  mkWorld (w_mem w) (w_regs w) (w_waits w) l (w_files w) (w_rand w) (w_log w).
Definition with_rand (l : list nat) (w : World) : World :=
  mkWorld (w_mem w) (w_regs w) (w_waits w) (w_spawns w) (w_files w) l (w_log w).
Definition logged (c : Syscall) (w : World) : World :=
  mkWorld (w_mem w) (w_regs w) (w_waits w) (w_spawns w) (w_files w) (w_rand w)
          (w_log w ++ [c]).

(** Modelled from the spec: peek and poke of the trace facility read and
    write consecutive bytes of the debuggee; a read needs all of them mapped. *)
Fixpoint mem_read (m : gmap Z byte) (a : Z) (n : nat) : option (list byte) :=
  match n with
  | O => Some []
  | S n' =>
      match m !! a, mem_read m (a + 1) n' with
      | Some b, Some bs => Some (b :: bs)
      | _, _ => None
      end
  end.

Fixpoint mem_write (m : gmap Z byte) (a : Z) (bs : list byte) : gmap Z byte :=
  match bs with
  | [] => m
  | b :: bs' => mem_write (<[a := b]> m) (a + 1) bs'
  end.

(** Modelled from the spec: a trace request needs a stopped traced task
    (section 6, process-trace contract). *)
Definition traced (w : World) (pid : Z) : bool :=
  match w_regs w !! pid with Some _ => true | None => false end.

(** Modelled from the spec: ptracePeek of ptrace.go, all the bytes or an
    error. *)
Definition k_peek (pid addr : Z) (n : nat) (w : World) : result (list byte) * World :=
  let w := logged (SysPeek pid addr n) w in
  if traced w pid then
    match mem_read (w_mem w) addr n with
    | Some bs => (Ok bs, w)
    | None => (Abort (Err (Errno EIO)), w)
    end
  else (Abort (Err (Errno ESRCH)), w).

(** Modelled from the spec: ptracePoke of ptrace.go; it writes through page
    protection (section 6) but not where nothing is mapped. *)
Definition k_poke (pid addr : Z) (data : list byte) (w : World) : result unit * World :=
  let w := logged (SysPoke pid addr data) w in
  if traced w pid then
    match mem_read (w_mem w) addr (length data) with
    | Some _ => (Ok tt, with_mem (mem_write (w_mem w) addr data) w)
    | None => (Abort (Err (Errno EIO)), w)
    end
  else (Abort (Err (Errno ESRCH)), w).

(** Modelled from the spec: ptraceGetRegs and ptraceSetRegs of ptrace.go read
    and write the register file of a stopped task. *)
Definition k_getregs (pid : Z) (w : World) : result PtraceRegs * World :=
  let w := logged (SysGetRegs pid) w in
  match w_regs w !! pid with
  | Some r => (Ok r, w)
  | None => (Abort (Err (Errno ESRCH)), w)
  end.

Definition k_setregs (pid : Z) (r : PtraceRegs) (w : World) : result unit * World :=
  let w := logged (SysSetRegs pid r) w in
  if traced w pid then (Ok tt, with_regs (<[pid := r]> (w_regs w)) w)
  else (Abort (Err (Errno ESRCH)), w).

(** Modelled from the spec: ptraceSetOptions of ptrace.go. *)
Definition k_setoptions (pid options : Z) (w : World) : result unit * World :=
  let w := logged (SysSetOptions pid options) w in
  if traced w pid then (Ok tt, w) else (Abort (Err (Errno ESRCH)), w).

(** Modelled from the spec: ptraceCont and ptraceSingleStep of ptrace.go.
    Continuing or stepping a task sets it running: it is no more stopped. *)
Definition k_cont (pid sig : Z) (w : World) : result unit * World :=
  let w := logged (SysCont pid sig) w in
  if traced w pid then (Ok tt, with_regs (delete pid (w_regs w)) w)
  else (Abort (Err (Errno ESRCH)), w).

Definition k_singlestep (pid : Z) (w : World) : result unit * World :=
  let w := logged (SysSingleStep pid) w in
  if traced w pid then (Ok tt, with_regs (delete pid (w_regs w)) w)
  else (Abort (Err (Errno ESRCH)), w).

(** Modelled from the spec: wait of ptrace.go.  It takes the next answer of
    the script, whatever task is waited for; with no answer left the tracer
    blocks for ever.  A stop makes the task's registers readable, any other
    status (exit, kill) removes the task. *)
Definition k_wait (pid : Z) (w : World) : result (Z * Z) * World :=
  match w_waits w with
  | [] => (Abort Hang, logged (SysWait pid None) w)
  | WaitErr e :: rest =>
      (Abort (Err (Errno e)), logged (SysWait pid None) (with_waits rest w))
  | WaitEv ev :: rest =>
      let regs := if Stopped (ev_status ev)
                  then <[ev_pid ev := ev_regs ev]> (w_regs w)
                  else delete (ev_pid ev) (w_regs w) in
      (Ok (ev_pid ev, ev_status ev),
       logged (SysWait pid (Some (ev_pid ev, ev_status ev)))
              (with_waits rest (with_regs regs (with_mem (ev_mem ev) w))))
  end.

(** Modelled from the spec: os.Process.Kill and startProcess of ptrace.go
    (section 4.5, run): the old debuggee is gone, the new one is stopped at
    its entry with the image the script gives. *)
Definition k_kill (pid : Z) (w : World) : World :=
  with_regs ∅ (with_mem ∅ (logged (SysKill pid) w)).

Definition k_start (executable : string) (w : World) : result Z * World :=
  let w := logged (SysStart executable) w in
  match w_spawns w with
  | [] => (Abort (Err (Errno EIO)), w)
  | inl e :: rest => (Abort (Err (Errno e)), with_spawns rest w)
  | inr sp :: rest =>
      (Ok (sp_pid sp),
       with_spawns rest (with_regs {[sp_pid sp := sp_regs sp]} (with_mem (sp_mem sp) w)))
  end.

(** Modelled from the spec: os.OpenFile on the debugger host (section 6,
    Open). *)
Definition k_openfile (name : string) (flag : Z) (w : World) : result Z * World :=
  let w := logged (SysOpenFile name flag) w in
  match w_files w name flag with
  | inl e => (Abort (Err (Errno e)), w)
  | inr h => (Ok h, w)
  end.

(** ** Debug information and symbols

    Packages dwarf and gosym and the methods lookupSym, lookupRE, lookupPC and
    entryForPC of the server are not under src/.  What they answer is fixed
    when the executable is loaded and is never written afterwards. *)

(** Modelled from the spec: the value of an attribute of a debug-info entry
    (section 3): location bytes, a name, an offset into the type table. *)
Inductive dwarf_Value : Type :=
| VBytes (v : list byte)     (* []uint8 *)
| VString (v : string)
| VOffset (v : Z)            (* dwarf.Offset *)
| VOther.

(** Modelled from the spec: dwarf.Field and dwarf.Entry, an entry with its
    tag, children flag and attribute list (section 3, debug-info handle). *)
Record dwarf_Field : Type := mkField {
  Attr : Z;
  Val : dwarf_Value;
}.

Record dwarf_Entry : Type := mkEntry {
  Offset : Z;
  Tag : Z;
  Children : bool;
  Field : list dwarf_Field;
}.

(** Modelled from the spec: what Frames asks of a dwarf.Type, its string form
    and its size (section 4.7). *)
Record dwarf_Type : Type := mkType {
  ty_String : string;
  ty_Size : Z;
}.

Definition TagFormalParameter : Z := 5.
Definition AttrLocation : Z := 2.
Definition AttrName : Z := 3.
Definition AttrType : Z := 73.

(** Modelled from the spec: what [next()] of the debug-info reader returns
    (section 3): an error, the nil entry, or an entry. *)
Inductive NextResult : Type :=
| NextErr (e : error)
| NextNil
| NextEntry (entry : dwarf_Entry).

(** Modelled from the spec: the debug-info handle of section 3 and the
    resolver of section 4.3 (sym_to_addr, match, addr_to_sym) with
    entry_for_pc of section 4.7. *)
Record dwarf_Data : Type := mkDwarf {
  dw_Next : Z → list NextResult;        (* the answers of Next after Seek(offset);
                                           past the last one Next returns nil, nil *)
  dw_Type : Z → error + dwarf_Type;
  dw_lookupSym : string → error + Z;
  dw_lookupRE : string → error + list string;
  dw_lookupPC : Z → error + string;
  dw_entryForPC : Z → error + dwarf_Entry;
}.

(** Modelled from the spec: the program-counter/line table, addr_to_source
    of section 4.3. *)
Record gosym_Table : Type := mkTable {
  PCToLine : Z → string * Z * bool;     (* file, line, fn != nil *)
}.

(** Modelled from the spec: the unsigned-integer parser and the regular
    expressions of Go's library (section 4.6) and the location decoder
    evalLocation of the package (section 4.7), fixed once and for all. *)
Class Externals : Type := mkExternals {
  ParseUint : string → error + Z;          (* strconv.ParseUint(s, 0, 0) *)
  regexp_Compile : string → option error;  (* regexp.Compile: the error, if any *)
  evalLocation : list byte → option Z;     (* evalLocation; None when it panics *)
}.

(** ** The server *)

Record breakpoint : Type := mkBreakpoint {
  pc : Z;
  origInstr : list byte;
}.

Record file : Type := mkFile {
  mode : string;
  index : nat;
  f : Z;
}.

Record Process : Type := mkProcess { Pid : Z }.

Record Server : Type := mkServer {
  arch : Architecture;
  executable : string;
  dwarfData : dwarf_Data;
  table : option gosym_Table;
  proc : option Process;
  procIsUp : bool;
  stoppedPid : Z;
  stoppedRegs : PtraceRegs;
  breakpoints : gmap Z breakpoint;
  files : list (option file);
}.

Definition set_proc (v : option Process) (s : Server) : Server :=
  mkServer (arch s) (executable s) (dwarfData s) (table s) v (procIsUp s)
           (stoppedPid s) (stoppedRegs s) (breakpoints s) (files s).
Definition set_procIsUp (v : bool) (s : Server) : Server :=
  mkServer (arch s) (executable s) (dwarfData s) (table s) (proc s) v
           (stoppedPid s) (stoppedRegs s) (breakpoints s) (files s).
Definition set_stoppedPid (v : Z) (s : Server) : Server :=
  mkServer (arch s) (executable s) (dwarfData s) (table s) (proc s) (procIsUp s)
           v (stoppedRegs s) (breakpoints s) (files s).
Definition set_stoppedRegs (v : PtraceRegs) (s : Server) : Server :=
  mkServer (arch s) (executable s) (dwarfData s) (table s) (proc s) (procIsUp s)
           (stoppedPid s) v (breakpoints s) (files s).
Definition set_breakpoints (v : gmap Z breakpoint) (s : Server) : Server :=
  mkServer (arch s) (executable s) (dwarfData s) (table s) (proc s) (procIsUp s)
           (stoppedPid s) (stoppedRegs s) v (files s).
Definition set_files (v : list (option file)) (s : Server) : Server :=
  mkServer (arch s) (executable s) (dwarfData s) (table s) (proc s) (procIsUp s)
           (stoppedPid s) (stoppedRegs s) (breakpoints s) v.

(** ** Handlers as state transformers

    A handler runs on the server and on the world it traces.  The mutex held
    by every handler serialises them, so a handler is a function of the state
    it finds. *)

Record State : Type := mkState {
  srv : Server;
  world : World;
}.

Definition M (A : Type) : Type := State → result A * State.

Definition ret {A} (a : A) : M A := fun st => (Ok a, st).

Definition bind {A B} (c : M A) (k : A → M B) : M B :=
  fun st =>
    match c st with
    | (Ok a, st') => k a st'
    | (Abort x, st') => (Abort x, st')
    end.

Notation "'let*' x ':=' c 'in' k" := (bind c (fun x => k))
  (at level 10, x pattern, c at level 100, k at level 200).

Definition throw {A} (e : error) : M A := fun st => (Abort (Err e), st).
Definition panic {A} : M A := fun st => (Abort Panic, st).

Definition get_srv : M Server := fun st => (Ok (srv st), st).
Definition modify_srv (g : Server → Server) : M unit :=
  fun st => (Ok tt, mkState (g (srv st)) (world st)).

Definition lift_k {A} (k : World → result A * World) : M A :=
  fun st => let (r, w) := k (world st) in (r, mkState (srv st) w).

(** [fmt.Errorf("...: %v", err)]: the error of [c], wrapped. *)
Definition wrap {A} (g : error → error) (c : M A) : M A :=
  fun st =>
    match c st with
    | (Abort (Err e), st') => (Abort (Err (g e)), st')
    | other => other
    end.

(** The wrappers of ptrace.go. *)
Definition wait (pid : Z) : M (Z * Z) := lift_k (k_wait pid).
Definition ptraceCont (pid sig : Z) : M unit := lift_k (k_cont pid sig).
Definition ptraceSingleStep (pid : Z) : M unit := lift_k (k_singlestep pid).
Definition ptraceSetOptions (pid options : Z) : M unit := lift_k (k_setoptions pid options).
Definition ptracePeek (pid addr : Z) (n : nat) : M (list byte) := lift_k (k_peek pid addr n).
Definition ptracePoke (pid addr : Z) (data : list byte) : M unit := lift_k (k_poke pid addr data).
Definition ptraceGetRegs (pid : Z) : M PtraceRegs := lift_k (k_getregs pid).
Definition ptraceSetRegs (pid : Z) (r : PtraceRegs) : M unit := lift_k (k_setregs pid r).
Definition startProcess (name : string) : M Z := lift_k (k_start name).
Definition Kill (p : Process) : M unit := lift_k (fun w => (Ok tt, k_kill (Pid p) w)).
Definition OpenFile (name : string) (flag : Z) : M Z := lift_k (k_openfile name flag).

(** Go iterates over a map in an order the runtime chooses.  [shuffle] picks
    the entries one by one among those that remain, as the seeds say. *)
Fixpoint shuffle {A} (n : nat) (seeds : list nat) (l : list A) : list A :=
  match n with
  | O => []
  | S n' =>
      let i := (hd 0%nat seeds mod length l)%nat in
      match l !! i with
      | Some x => x :: shuffle n' (tl seeds) (delete i l)
      | None => []
      end
  end.

Definition range_map {V} (m : gmap Z V) : M (list (Z * V)) :=
  fun st =>
    let l := map_to_list m in
    let w := world st in
    (Ok (shuffle (length l) (w_rand w) l),
     mkState (srv st) (with_rand (drop (length l) (w_rand w)) w)).

(** ** waitForTrap, the breakpoint table, Resume, Run *)

(** The loop of waitForTrap.  Every turn takes one answer of [wait], so the
    number of answers left bounds the turns: [waitForTrap] gives the loop one
    turn more than that, and the loop blocks in [wait] before it runs out. *)
Fixpoint waitForTrap_loop (turns : nat) (pid : Z) : M Z :=
  match turns with
  | O => fun st => (Abort Hang, st)
  | S turns' =>
      let* ws := wrap WaitFailed (wait pid) in
      let wpid := fst ws in
      let status := snd ws in
      if is_trap status then ret wpid
      else
        let* _ := wrap ContinueFailed (ptraceCont wpid 0) in
        waitForTrap_loop turns' pid
  end.

Definition waitForTrap (pid : Z) : M Z :=
  fun st => waitForTrap_loop (S (length (w_waits (world st)))) pid st.

Fixpoint setBreakpoints_loop (order : list (Z * breakpoint)) : M unit :=
  match order with
  | [] => ret tt
  | (pc, _) :: rest =>
      let* s := get_srv in
      match slice_to (BreakpointInstr (arch s)) (BreakpointSize (arch s)) with
      | None => panic
      | Some instr =>
          let* _ := wrap SetBreakpointsFailed (ptracePoke (stoppedPid s) pc instr) in
          setBreakpoints_loop rest
      end
  end.

Definition setBreakpoints : M unit :=
  let* s := get_srv in
  let* order := range_map (breakpoints s) in
  setBreakpoints_loop order.

Fixpoint liftBreakpoints_loop (order : list (Z * breakpoint)) : M unit :=
  match order with
  | [] => ret tt
  | (pc, breakpoint) :: rest =>
      let* s := get_srv in
      match slice_to (origInstr breakpoint) (BreakpointSize (arch s)) with
      | None => panic
      | Some instr =>
          let* _ := wrap LiftBreakpointsFailed (ptracePoke (stoppedPid s) pc instr) in
          liftBreakpoints_loop rest
      end
  end.

Definition liftBreakpoints : M unit :=
  let* s := get_srv in
  let* order := range_map (breakpoints s) in
  liftBreakpoints_loop order.

Definition has_breakpoint (s : Server) (pc : Z) : bool :=
  match breakpoints s !! pc with Some _ => true | None => false end.

(** The response of Resume. *)
Record Status : Type := mkStatus {
  PC : Z;
  SP : Z;
}.

(** Lines 256 to 279: the first wait, or the step over the breakpoint the
    debuggee is stopped at. *)
Definition Resume_prologue : M unit :=
  let* s := get_srv in
  match proc s with
  | None => throw NoProcess
  | Some _ =>
      if negb (procIsUp s) then
        let* _ := modify_srv (set_procIsUp true) in
        let* _ := waitForTrap (stoppedPid s) in
        wrap SetOptionsFailed (ptraceSetOptions (stoppedPid s) PTRACE_O_TRACECLONE)
      else if has_breakpoint s (Rip (stoppedRegs s)) then
        let* _ := wrap StepFailed (ptraceSingleStep (stoppedPid s)) in
        let* _ := waitForTrap (stoppedPid s) in
        ret tt
      else ret tt
  end.

(** Lines 281 to 288: install, then continue. *)
Definition Resume_continue : M unit :=
  let* _ := setBreakpoints in
  let* s := get_srv in
  wrap ContinueFailed (ptraceCont (stoppedPid s) 0).

(** Lines 290 to 314.  [s.stoppedPid, err = s.waitForTrap(-1)] stores the
    task id before the error is looked at: 0 when waitForTrap failed. *)
Definition Resume_stop : M Status :=
  fun st =>
    match waitForTrap (-1) st with
    | (Abort (Err e), st') =>
        (Abort (Err e), mkState (set_stoppedPid 0 (srv st')) (world st'))
    | (Abort x, st') => (Abort x, st')
    | (Ok wpid, st') =>
        (let* _ := modify_srv (set_stoppedPid wpid) in
         let* _ := liftBreakpoints in
         let* s := get_srv in
         let* regs := wrap GetRegsFailed (ptraceGetRegs (stoppedPid s)) in
         let* _ := modify_srv (set_stoppedRegs regs) in
         let* s := get_srv in
         let regs := set_Rip (uint64 (Rip (stoppedRegs s) - uint64 (BreakpointSize (arch s))))
                             (stoppedRegs s) in
         let* _ := modify_srv (set_stoppedRegs regs) in
         let* s := get_srv in
         let* _ := wrap SetRegsFailed (ptraceSetRegs (stoppedPid s) (stoppedRegs s)) in
         ret (mkStatus (Rip (stoppedRegs s)) (Rsp (stoppedRegs s)))) st'
    end.

Definition Resume : M Status :=
  let* _ := Resume_prologue in
  let* _ := Resume_continue in
  Resume_stop.

Definition Run : M unit :=
  let* s := get_srv in
  let* _ :=
    match proc s with
    | Some p =>
        let* _ := Kill p in
        modify_srv (fun s => set_stoppedRegs zeroRegs
                               (set_stoppedPid 0 (set_procIsUp false (set_proc None s))))
    | None => ret tt
    end in
  let* s := get_srv in
  let* p := startProcess (executable s) in
  modify_srv (fun s => set_stoppedPid p (set_proc (Some (mkProcess p)) s)).

(** ** The file table *)

Definition O_RDONLY : Z := 0.
Definition O_WRONLY : Z := 1.
Definition O_RDWR : Z := 2.

(** The search of lines 177 to 179, started at [index] with the slots from
    [index] on. *)
Fixpoint find_slot (slots : list (option file)) (index : nat) : nat :=
  match slots with
  | Some _ :: rest => find_slot rest (S index)
  | _ => index
  end.

Definition Open (Name Mode : string) : M unit :=
  let* flag :=
    (if String.eqb Mode "r" then ret O_RDONLY
     else if String.eqb Mode "w" then ret O_WRONLY
     else if String.eqb Mode "rw" then ret O_RDWR
     else throw (BadMode Mode)) in
  let* osFile := OpenFile Name flag in
  let* s := get_srv in
  let index := find_slot (files s) 0 in
  let f := mkFile Mode index osFile in
  if decide (index = length (files s)) then
    modify_srv (set_files (files s ++ [Some f]))
  else
    modify_srv (set_files (<[index := Some f]> (files s))).

(** ** Expressions *)

(** [fmt.Sprintf] with the verbs "%d" and "%#x". *)
Definition sprint_d (z : Z) : string := NilZero.string_of_int (Z.to_int z).
Definition sprint_x (z : Z) : string := HexString.of_Z z.

(** [expr[n:]]. *)
Definition string_from (n : nat) (expr : string) : string :=
  String.substring n (String.length expr - n) expr.

Definition starts_with_digit (expr : string) : bool :=
  match expr with
  | EmptyString => false
  | String c _ => ((48 <=? nat_of_ascii c) && (nat_of_ascii c <=? 57))%nat
  end.

Definition lookupSym (s : Server) (name : string) : error + Z :=
  dw_lookupSym (dwarfData s) name.
Definition lookupRE (s : Server) (re : string) : error + list string :=
  dw_lookupRE (dwarfData s) re.
Definition lookupPC (s : Server) (pc : Z) : error + string :=
  dw_lookupPC (dwarfData s) pc.
Definition entryForPC (s : Server) (pc : Z) : error + dwarf_Entry :=
  dw_entryForPC (dwarfData s) pc.

Definition lookupSource (s : Server) (pc : Z) : string * Z * bool :=
  match table s with
  | None => (EmptyString, 0, false)
  | Some t => PCToLine t pc
  end.

Section Handlers.
Context `{Externals}.

Definition eval (s : Server) (expr : string) : error + list string :=
  if String.prefix "re:" expr then
    match regexp_Compile (string_from 3 expr) with
    | Some err => inl err
    | None => lookupRE s (string_from 3 expr)
    end
  else if String.prefix "sym:" expr then
    match lookupSym s (string_from 4 expr) with
    | inl err => inl err
    | inr addr => inr [sprint_x addr]
    end
  else if String.prefix "src:" expr then
    match ParseUint (string_from 4 expr) with
    | inl err => inl err
    | inr addr =>
        match lookupSource s addr with
        | (file, line, true) => inr [(file ++ ":" ++ sprint_d line)%string]
        | (_, _, false) => inl (NoLineData expr)
        end
    end
  else if starts_with_digit expr then
    match ParseUint expr with
    | inl err => inl err
    | inr addr =>
        match lookupPC s addr with
        | inl err => inl err
        | inr funcName => inr [funcName]
        end
    end
  else inl (BadExpression expr).

Definition evalAddress (s : Server) (expr : string) : error + Z :=
  match lookupSym s expr with
  | inr addr => inr addr
  | inl _ =>
      match ParseUint expr with
      | inl _ => inl (NotAnAddress expr)
      | inr addr => inr addr
      end
  end.

Definition Eval (Expr : string) : M (list string) :=
  let* s := get_srv in
  match eval s Expr with
  | inl err => throw err
  | inr Result => ret Result
  end.

(** ** Breakpoint *)

(** The loop of lines 342 to 357.  [bp] is declared once, before the loop:
    every turn peeks into the same array and stores a copy in the table. *)
Fixpoint Breakpoint_loop (addrs : list string) (bp : breakpoint) : M unit :=
  match addrs with
  | [] => ret tt
  | addr :: rest =>
      let* s := get_srv in
      match evalAddress s addr with
      | inl err => throw err
      | inr pc =>
          if has_breakpoint s pc then throw (DuplicateBreakpoint pc)
          else
            match slice_to (origInstr bp) (BreakpointSize (arch s)) with
            | None => panic
            | Some out =>
                let* peeked := wrap PeekFailed (ptracePeek (stoppedPid s) pc (length out)) in
                let bp := mkBreakpoint pc (peeked ++ drop (length out) (origInstr bp)) in
                let* _ := modify_srv (set_breakpoints (<[pc := bp]> (breakpoints s))) in
                Breakpoint_loop rest bp
            end
      end
  end.

Definition zero_breakpoint (a : Architecture) : breakpoint :=
  mkBreakpoint 0 (replicate (length (BreakpointInstr a)) x00).

Definition Breakpoint (Address : string) : M unit :=
  let* s := get_srv in
  match eval s Address with
  | inl err => throw err
  | inr addrs => Breakpoint_loop addrs (zero_breakpoint (arch s))
  end.

(** ** Frames *)

(** program.Frame; its field is S in the source. *)
Record Frame : Type := mkFrame { Frame_S : string }.

(** The loop over [entry.Field], lines 509 to 534; [location] starts at 0 for
    every entry and [acc] is [frame.S].  A [break] leaves the switch, not the
    loop. *)
Fixpoint Frames_fields (s : Server) (fp : Z) (fields : list dwarf_Field)
    (location : Z) (acc : string) : M string :=
  match fields with
  | [] => ret acc
  | f :: rest =>
      if Attr f =? AttrLocation then
        match Val f with
        | VBytes v =>
            match evalLocation v with
            | Some offset =>
                Frames_fields s fp rest (uint64 (fp + offset))
                  (acc ++ "(" ++ sprint_d offset ++ "(FP))")%string
            | None => panic
            end
        | _ => panic
        end
      else if Attr f =? AttrName then
        match Val f with
        | VString name => Frames_fields s fp rest location (acc ++ " " ++ name)%string
        | _ => panic
        end
      else if Attr f =? AttrType then
        match Val f with
        | VOffset off =>
            match dw_Type (dwarfData s) off with
            | inl _ => panic                    (* t is nil: t.String() *)
            | inr t =>
                let acc := (acc ++ "[" ++ ty_String t ++ "]")%string in
                if negb (String.eqb (ty_String t) "int")
                   || negb (ty_Size t =? IntSize (arch s))
                then Frames_fields s fp rest location acc
                else if location =? 0 then throw NoLocation
                else
                  match slice_to (replicate 8 x00) (IntSize (arch s)) with
                  | None => panic
                  | Some buf =>
                      let* peeked := ptracePeek (stoppedPid s) location (length buf) in
                      Frames_fields s fp rest location
                        (acc ++ "==" ++ sprint_x (Int (arch s) peeked))%string
                  end
            end
        | _ => panic
        end
      else Frames_fields s fp rest location acc
  end.

(** The loop over the entries the reader gives, lines 492 to 535. *)
Fixpoint Frames_entries (s : Server) (fp : Z) (answers : list NextResult)
    (acc : string) : M string :=
  match answers with
  | [] => panic                                 (* nil, nil: entry.Tag *)
  | NextErr err :: _ => throw err
  | NextNil :: _ => panic
  | NextEntry entry :: rest =>
      if Tag entry =? 0 then ret acc
      else if negb (Tag entry =? TagFormalParameter) then Frames_entries s fp rest acc
      else if Children entry then throw ParameterHasChildren
      else
        let* acc := Frames_fields s fp (Field entry) 0 acc in
        Frames_entries s fp rest acc
  end.

Definition Frames (Count : Z) : M (list Frame) :=
  if negb (Count =? 1) then throw Unimplemented
  else
    let* s := get_srv in
    let* regs := ptraceGetRegs (stoppedPid s) in
    let fp := uint64 (Rsp regs + uint64 (PointerSize (arch s))) in
    match entryForPC s (Rip regs) with
    | inl err => throw err
    | inr entry =>
        let* frame := Frames_entries s fp (dw_Next (dwarfData s) (Offset entry))
                          EmptyString in
        ret [mkFrame frame]
    end.

End Handlers.


(** ** Host files: ReadAt and Close *)

(** Modelled from the spec: program.File (section 6, Open, ReadAt and Close),
    the open host file a slot of the table holds.  [File_ReadAt] is given the
    handle, the length of the buffer and the offset, and answers the bytes it
    stored from the front of the buffer on, its count n and its error;
    [File_Close] answers its error. *)
Class program_File : Type := mkProgramFile {
  File_ReadAt : Z → nat → Z → list byte * Z * option error;
  File_Close : Z → option error;
}.

(** The test of lines 198 and 213: [fd] is no index of an occupied slot. *)
Definition bad_fd (s : Server) (fd : Z) : bool :=
  (fd <? 0) || (Z.of_nat (length (files s)) <=? fd) ||
  match files s !! Z.to_nat fd with
  | Some (Some _) => false
  | _ => true
  end.

Section FileHandlers.
Context `{program_File}.

(** The buffer after the file has stored [stored] in it: a buffer keeps its
    length, and [make] gave it zeroes. *)
Definition filled (len : nat) (stored : list byte) : list byte :=
  take len (stored ++ replicate len x00).

(** ReadAt answers [resp.Data] and the error the handler returns with it;
    the handler that finds no file returns its own error and no data. *)
Definition ReadAt (FD Len Offset : Z) : M (list byte * option error) :=
  let* s := get_srv in
  if bad_fd s FD then throw (BadFd FD)
  else
    match files s !! Z.to_nat FD with
    | Some (Some fl) =>
        if Len <? 0 then panic                        (* make([]byte, req.Len) *)
        else
          let '(stored, n, err) := File_ReadAt (f fl) (Z.to_nat Len) Offset in
          match slice_to (filled (Z.to_nat Len) stored) n with
          | None => panic                             (* buf[:n] *)
          | Some Data => ret (Data, err)
          end
    | _ => panic                                      (* s.files[fd] *)
    end.

Definition Close (FD : Z) : M unit :=
  let* s := get_srv in
  if bad_fd s FD then throw (BadFd FD)
  else
    match files s !! Z.to_nat FD with
    | Some (Some fl) =>
        let err := File_Close (f fl) in
        let* _ := modify_srv (set_files (<[Z.to_nat FD := None]> (files s))) in
        match err with
        | Some e => throw e
        | None => ret tt
        end
    | _ => panic                                      (* s.files[fd] *)
    end.

End FileHandlers.

(** ** Every method of the server *)

Inductive Method : Type :=
| MOpen (Name Mode : string)
| MReadAt (FD Len Offset : Z)
| MClose (FD : Z)
| MRun
| MResume
| MBreakpoint (Address : string)
| MEval (Expr : string)
| MFrames (Count : Z).

Section Methods.
Context `{Externals} `{program_File}.

Definition invoke (m : Method) : M unit :=
  match m with
  | MOpen Name Mode => Open Name Mode
  | MReadAt FD Len Offset => let* _ := ReadAt FD Len Offset in ret tt
  | MClose FD => Close FD
  | MRun => Run
  | MResume => let* _ := Resume in ret tt
  | MBreakpoint Address => Breakpoint Address
  | MEval Expr => let* _ := Eval Expr in ret tt
  | MFrames Count => let* _ := Frames Count in ret tt
  end.

(** The state after the calls were answered, one after the other, however
    each of them ended. *)
Fixpoint invoke_all (ms : list Method) (st : State) : State :=
  match ms with
  | [] => st
  | m :: rest => invoke_all rest (invoke m st).2
  end.

End Methods.

(** ** New and the loading of the executable *)

(** Modelled from the spec: the object-file readers of section 4.2 (packages
    debug/elf and debug/macho): the machine and class of the header, the
    debug-info tree, and for ELF the sections by name, with their address
    and their contents. *)
Record elf_Section : Type := mkSection {
  sec_Addr : Z;
  sec_Data : error + list byte;
}.

Record elf_File : Type := mkElfFile {
  elf_Machine : Z;
  elf_Class : Z;
  elf_DWARF : error + dwarf_Data;
  elf_Section_named : string → option elf_Section;   (* nil when there is none *)
}.

Record macho_File : Type := mkMachoFile {
  macho_Cpu : Z;
  macho_DWARF : error + dwarf_Data;
}.

Definition EM_386 : Z := 3.
Definition EM_ARM : Z := 40.
Definition EM_X86_64 : Z := 62.
Definition ELFCLASS32 : Z := 1.
Definition ELFCLASS64 : Z := 2.
Definition Cpu386 : Z := 7.
Definition CpuAmd64 : Z := 16777223.

(** Modelled from the spec: what the readers make of an open file, the table
    gosym builds from the two sections and the address of the text, and the
    three descriptors of package arch (section 4.2). *)
Class Loaders : Type := mkLoaders {
  elf_NewFile : Z → error + elf_File;
  macho_NewFile : Z → error + macho_File;
  gosym_NewTable : list byte → list byte → Z → error + gosym_Table;
  arch_ARM : Architecture;
  arch_X86 : Architecture;
  arch_AMD64 : Architecture;
}.

(** The errors of loadExecutable. *)
Inductive load_error : Type :=
| ReaderFailed (e : error)           (* the error of a reader, as it is *)
| SymbolTableFailed (e : error)      (* "parsing go symbol table: %v" *)
| UnrecognizedELF                    (* "unrecognized ELF architecture" *)
| UnrecognizedMachO                  (* "unrecognized Mach-O architecture" *)
| UnrecognizedFormat.                (* "unrecognized binary format" *)

Inductive loaded (A : Type) : Type :=
| Loaded (a : A)
| LoadFails (e : load_error)
| LoadPanics.
Arguments Loaded {A} a.
Arguments LoadFails {A} e.
Arguments LoadPanics {A}.

Section Loading.
Context `{Loaders}.

(** [f.Section(name).Data()]: the section may be nil. *)
Definition section_Data (f : elf_File) (name : string) : result (list byte) :=
  match elf_Section_named f name with
  | None => Abort Panic
  | Some sec =>
      match sec_Data sec with
      | inl err => Abort (Err err)
      | inr dat => Ok dat
      end
  end.

Definition parseElf (f : elf_File) : result gosym_Table :=
  match section_Data f ".gosymtab" with
  | Abort x => Abort x
  | Ok symdat =>
      match section_Data f ".gopclntab" with
      | Abort x => Abort x
      | Ok pclndat =>
          match elf_Section_named f ".text" with
          | None => Abort Panic
          | Some text =>
              match gosym_NewTable symdat pclndat (sec_Addr text) with
              | inl err => Abort (Err err)
              | inr tab => Ok tab
              end
          end
      end
  end.

Definition loadExecutable (fd : Z)
    : loaded (Architecture * dwarf_Data * option gosym_Table) :=
  match elf_NewFile fd with
  | inr obj =>
      match elf_DWARF obj with
      | inl err => LoadFails (ReaderFailed err)
      | inr dwarfData =>
          match parseElf obj with
          | Abort (Err err) => LoadFails (SymbolTableFailed err)
          | Abort _ => LoadPanics
          | Ok table =>
              if elf_Machine obj =? EM_ARM then Loaded (arch_ARM, dwarfData, Some table)
              else if elf_Machine obj =? EM_386 then
                if elf_Class obj =? ELFCLASS32 then Loaded (arch_X86, dwarfData, Some table)
                else if elf_Class obj =? ELFCLASS64
                     then Loaded (arch_AMD64, dwarfData, Some table)
                else LoadFails UnrecognizedELF
              else if elf_Machine obj =? EM_X86_64
                   then Loaded (arch_AMD64, dwarfData, Some table)
              else LoadFails UnrecognizedELF
          end
      end
  | inl _ =>
      match macho_NewFile fd with
      | inr obj =>
          match macho_DWARF obj with
          | inl err => LoadFails (ReaderFailed err)
          | inr dwarfData =>
              if macho_Cpu obj =? Cpu386 then Loaded (arch_X86, dwarfData, None)
              else if macho_Cpu obj =? CpuAmd64 then Loaded (arch_AMD64, dwarfData, None)
              else LoadFails UnrecognizedMachO
          end
      | inl _ => LoadFails UnrecognizedFormat
      end
  end.

(** New opens the executable for reading, loads it and makes the server: no
    process, an empty breakpoint table, no file.  The thread New starts for
    the trace requests is the kernel of the world. *)
Definition New (executable : string) (w : World) : loaded Server * World :=
  match k_openfile executable O_RDONLY w with
  | (Abort (Err err), w') => (LoadFails (ReaderFailed err), w')
  | (Abort _, w') => (LoadPanics, w')
  | (Ok fd, w') =>
      match loadExecutable fd with
      | Loaded (architecture, dwarfData, table) =>
          (Loaded (mkServer architecture executable dwarfData table
                            None false 0 zeroRegs ∅ []), w')
      | LoadFails e => (LoadFails e, w')
      | LoadPanics => (LoadPanics, w')
      end
  end.

End Loading.

(** * The pattern matcher of the tests (ogle/demo/ogler/ogler_test.go) *)

Definition isHex (r : ascii) : bool :=
  if (("0" <=? r) && (r <=? "9"))%char then true
  else if (("a" <=? r) && (r <=? "f"))%char then true
  else if (("A" <=? r) && (r <=? "F"))%char then true
  else false.

(** The inner loop of matches, [for j < len(s) && isHex(s[j]) { j++ }], with
    [n] the characters from [j] to the end of [s]. *)
Fixpoint skip_hex (n : nat) (s : string) (j : nat) : nat :=
  match n with
  | O => j
  | Datatypes.S n' =>
      match String.get j s with
      | Some c => if isHex c then skip_hex n' s (Datatypes.S j) else j
      | None => j
      end
  end.

(** The loop over the pattern, from its character at [i] on, with [j] the
    index into [s]; [None] when [s[j]] is out of range. *)
Fixpoint matches_loop (p s : string) (j : nat) : option bool :=
  match p with
  | EmptyString => Some (j =? String.length s)%nat
  | String c p' =>
      if (j =? String.length s)%nat then Some false
      else if (c =? "X")%char then
        match String.get j s with
        | None => None
        | Some sj =>
            if negb (isHex sj) then Some false
            else matches_loop p' s (skip_hex (String.length s - j) s j)
        end
      else
        match String.get j s with
        | None => None
        | Some sj =>
            if negb (c =? sj)%char then Some false
            else matches_loop p' s (Datatypes.S j)
        end
  end.

Definition matches (p s : string) : option bool := matches_loop p s 0.
(** * Properties *)

(** ** waitForTrap *)

(** The calls waitForTrap issues for the stops it passes over: the wait that
    reported the stop, then the continue of the reporting task, signal 0. *)
Definition passed_over (pid : Z) (skipped : list WaitEvent) : list Syscall :=
  flat_map (fun ev => [SysWait pid (Some (ev_pid ev, ev_status ev));
                       SysCont (ev_pid ev) 0]) skipped.

(** What one call of waitForTrap did, between the world [w] it found and the
    world [w'] it left, read off its result [r]: the answers [skipped] it
    passed over, each one not a trap, and the answer that ended it. *)
Definition waitForTrap_outcome (pid : Z) (w : World) (r : result Z) (w' : World) : Prop :=
  ∃ skipped : list WaitEvent,
    Forall (fun ev => is_trap (ev_status ev) = false) skipped ∧
    match r with
    | Ok wpid =>
        ∃ ev, w_waits w = map WaitEv skipped ++ WaitEv ev :: w_waits w' ∧
              wpid = ev_pid ev ∧
              StopSignal (ev_status ev) = SIGTRAP ∧
              TrapCause (ev_status ev) ≠ PTRACE_EVENT_CLONE ∧
              w_log w' = w_log w ++ passed_over pid skipped
                           ++ [SysWait pid (Some (ev_pid ev, ev_status ev))] ∧
              w_regs w' !! wpid = Some (ev_regs ev) ∧
              w_mem w' = ev_mem ev
    | Abort (Err (WaitFailed e)) =>
        ∃ errno, e = Errno errno ∧
                 w_waits w = map WaitEv skipped ++ WaitErr errno :: w_waits w' ∧
                 w_log w' = w_log w ++ passed_over pid skipped ++ [SysWait pid None]
    | Abort (Err (ContinueFailed e)) =>
        skipped ≠ [] ∧ w_waits w = map WaitEv skipped ++ w_waits w' ∧
        w_log w' = w_log w ++ passed_over pid skipped
    | Abort Hang =>
        w_waits w = map WaitEv skipped ∧ w_waits w' = [] ∧
        w_log w' = w_log w ++ passed_over pid skipped ++ [SysWait pid None]
    | _ => False
    end.

(** ** The breakpoint table and the debuggee's memory *)

(** The bytes install and lift write for an entry: what [a[:BreakpointSize]]
    gives when the slice is in bounds. *)
Definition patch_width (s : Server) : nat := Z.to_nat (BreakpointSize (arch s)).
Definition trap_bytes (s : Server) : list byte :=
  take (patch_width s) (BreakpointInstr (arch s)).
Definition saved_bytes (s : Server) (bp : breakpoint) : list byte :=
  take (patch_width s) (origInstr bp).

(** (I1) every entry's saved bytes are in memory at its pc. *)
Definition at_rest (st : State) : Prop :=
  ∀ pc bp, breakpoints (srv st) !! pc = Some bp →
    mem_read (w_mem (world st)) pc (patch_width (srv st)) = Some (saved_bytes (srv st) bp).

(** (I2) the breakpoint instruction is in memory at every entry's pc. *)
Definition patched (st : State) : Prop :=
  ∀ pc bp, breakpoints (srv st) !! pc = Some bp →
    mem_read (w_mem (world st)) pc (patch_width (srv st)) = Some (trap_bytes (srv st)).

(** No two entries patch a common byte; always so when one byte is patched. *)
Definition separate (s : Server) : Prop :=
  ∀ pc1 pc2, is_Some (breakpoints s !! pc1) → is_Some (breakpoints s !! pc2) →
    pc1 ≠ pc2 → BreakpointSize (arch s) ≤ Z.abs (pc1 - pc2).

Definition poke_calls (pid : Z) (writes : list (Z * list byte)) : list Syscall :=
  map (fun ad => SysPoke pid ad.1 ad.2) writes.

Definition apply_writes (m : gmap Z byte) (writes : list (Z * list byte)) : gmap Z byte :=
  fold_left (fun m ad => mem_write m ad.1 ad.2) writes m.

(** The write [ad], at [ad.1] of the bytes [ad.2], covers the address [x]. *)
Definition covers (ad : Z * list byte) (x : Z) : Prop :=
  ad.1 ≤ x < ad.1 + Z.of_nat (length ad.2).

(** The writes of a run over the entries [poked], with [bytes] for each. *)
Definition pokes_of (bytes : breakpoint → list byte)
    (poked : list (Z * breakpoint)) : list (Z * list byte) :=
  map (fun e => (e.1, bytes e.2)) poked.

(** The registers Resume leaves in the stopped task: those it had at the
    stop, the program counter moved back by the size of the breakpoint. *)
Definition rewound (s : Server) (regs : PtraceRegs) : PtraceRegs :=
  set_Rip (uint64 (Rip regs - uint64 (BreakpointSize (arch s)))) regs.

(** The common shape of the loops of setBreakpoints and liftBreakpoints. *)
Fixpoint poke_loop (g : error → error) (bytes_of : Server → breakpoint → option (list byte))
    (order : list (Z * breakpoint)) : M unit :=
  match order with
  | [] => ret tt
  | (pc, bp) :: rest =>
      let* s := get_srv in
      match bytes_of s bp with
      | None => panic
      | Some instr =>
          let* _ := wrap g (ptracePoke (stoppedPid s) pc instr) in
          poke_loop g bytes_of rest
      end
  end.

Definition is_poke (c : Syscall) : Prop :=
  match c with SysPoke _ _ _ => True | _ => False end.

(** ** What a handler leaves alone *)

(** [keeps R c]: whatever the state and however it ends, [c] leaves a state
    related by [R] to the one it found. *)
Definition keeps {A} (R : State → State → Prop) (c : M A) : Prop :=
  ∀ st, R st (c st).2.

(** Nothing of the engine and nothing of the debuggee has changed: the
    server, the memory and the registers of the debuggee, and what the
    kernel holds in store.  Only the record of the calls issued has grown. *)
Definition untouched (st st' : State) : Prop :=
  srv st' = srv st ∧
  w_mem (world st') = w_mem (world st) ∧
  w_regs (world st') = w_regs (world st) ∧
  w_waits (world st') = w_waits (world st) ∧
  w_spawns (world st') = w_spawns (world st) ∧
  w_rand (world st') = w_rand (world st).

(** The parts of the server Resume never writes. *)
Definition same_tables (s s' : Server) : Prop :=
  arch s' = arch s ∧
  executable s' = executable s ∧
  dwarfData s' = dwarfData s ∧
  table s' = table s ∧
  proc s' = proc s ∧
  breakpoints s' = breakpoints s ∧
  files s' = files s.

Definition tables_kept (st st' : State) : Prop := same_tables (srv st) (srv st').

(** The calls recorded so far are still there, in front. *)
Definition log_grows (st st' : State) : Prop :=
  ∃ calls, w_log (world st') = w_log (world st) ++ calls.

(** What every step of Resume respects: the tables are kept, the record of
    calls grows, and the answers of [wait] are taken from the front. *)
Definition resume_frame (st st' : State) : Prop :=
  tables_kept st st' ∧
  log_grows st st' ∧
  ∃ used, w_waits (world st) = used ++ w_waits (world st').

Definition is_wait (c : Syscall) : Prop :=
  match c with SysWait _ _ => True | _ => False end.

(** ** Sequences of requests *)

Inductive Request : Type :=
| ReqRun
| ReqBreakpoint (Address : string)
| ReqResume
| ReqEval (Expr : string)
| ReqFrames (Count : Z).

(** The image of the process the next Run starts holds, at every pc of the
    table, the bytes saved for it. *)
Definition image_agrees (st : State) : Prop :=
  match w_spawns (world st) with
  | inr sp :: _ =>
      ∀ pc bp, breakpoints (srv st) !! pc = Some bp →
        mem_read (sp_mem sp) pc (patch_width (srv st)) = Some (saved_bytes (srv st) bp)
  | _ => True
  end.

(** Run, with the state the kill of the previous process leaves. *)
Definition after_kill (st : State) : State :=
  match proc (srv st) with
  | Some p =>
      mkState (set_stoppedRegs zeroRegs
                 (set_stoppedPid 0 (set_procIsUp false (set_proc None (srv st)))))
              (k_kill (Pid p) (world st))
  | None => st
  end.

Section Requests.
Context `{Externals}.

Definition handle (req : Request) : M unit :=
  match req with
  | ReqRun => Run
  | ReqBreakpoint Address => Breakpoint Address
  | ReqResume => let* _ := Resume in ret tt
  | ReqEval Expr => let* _ := Eval Expr in ret tt
  | ReqFrames Count => let* _ := Frames Count in ret tt
  end.

(** The state after the requests were served, one after the other. *)
Fixpoint serve (reqs : list Request) (st : State) : State :=
  match reqs with
  | [] => st
  | req :: rest => serve rest (handle req st).2
  end.

(** Every Resume and every Run of the sequence returns without error, and
    every Run starts an image that agrees with the table. *)
Fixpoint calm (reqs : list Request) (st : State) : Prop :=
  match reqs with
  | [] => True
  | req :: rest =>
      match req with
      | ReqResume => is_ok (Resume st).1 = true
      | ReqRun => is_ok (Run st).1 = true ∧ image_agrees st
      | _ => True
      end ∧ calm rest (handle req st).2
  end.

(** ** The walk of Frames *)

(** A field the loop over [entry.Field] gets past: a location that
    evaluates, a name, a type that is found and is not the int the handler
    reads, or an attribute the switch has no case for. *)
Definition passes (s : Server) (fd : dwarf_Field) : Prop :=
  (Attr fd = AttrLocation ∧ ∃ v offset, Val fd = VBytes v ∧ evalLocation v = Some offset) ∨
  (Attr fd = AttrName ∧ ∃ name, Val fd = VString name) ∨
  (Attr fd = AttrType ∧
   ∃ off t, Val fd = VOffset off ∧ dw_Type (dwarfData s) off = inr t ∧
            (String.eqb (ty_String t) "int" = false ∨ ty_Size t ≠ IntSize (arch s))) ∨
  (Attr fd ≠ AttrLocation ∧ Attr fd ≠ AttrName ∧ Attr fd ≠ AttrType).

(** An answer of the reader the loop over the entries gets past: an entry
    that is no formal parameter, or a formal parameter without children all
    of whose fields pass. *)
Definition passed_entry (s : Server) (a : NextResult) : Prop :=
  ∃ entry, a = NextEntry entry ∧ Tag entry ≠ 0 ∧
           (Tag entry ≠ TagFormalParameter ∨
            (Children entry = false ∧ Forall (passes s) (Field entry))).

End Requests.

(** ** The file table *)

(** "Index == file descriptor": the record of an occupied slot holds the
    index of the slot. *)
Definition files_indexed (s : Server) : Prop :=
  ∀ i fl, files s !! i = Some (Some fl) → index fl = i.

Definition is_MOpen (m : Method) : bool :=
  match m with MOpen _ _ => true | _ => false end.

(** ** The breakpoint table as Breakpoint builds it *)

(** An entry is stored under its own pc; its saved instruction fills the
    array, zero behind the bytes that were peeked. *)
Definition entry_well_formed (s : Server) (key : Z) (bp : breakpoint) : Prop :=
  pc bp = key ∧
  length (origInstr bp) = length (BreakpointInstr (arch s)) ∧
  drop (patch_width s) (origInstr bp)
  = replicate (length (BreakpointInstr (arch s)) - patch_width s) x00.

Definition table_well_formed (s : Server) : Prop :=
  ∀ key bp, breakpoints s !! key = Some bp → entry_well_formed s key bp.

(** The bytes an entry of the table patches: from its pc on, as many as the
    breakpoint is wide. *)
Definition in_patch (s : Server) (x : Z) : Prop :=
  ∃ pc bp, breakpoints s !! pc = Some bp ∧ pc ≤ x < pc + BreakpointSize (arch s).

(** ** The calls of Resume *)

(** A call Resume may issue: a wait, a continue, a step, the options, the
    registers read or written, or a poke of BreakpointSize bytes at the pc
    of an entry of the table of [s]. *)
Definition resume_call (s : Server) (c : Syscall) : Prop :=
  match c with
  | SysPoke _ addr data =>
      is_Some (breakpoints s !! addr) ∧ Z.of_nat (length data) = BreakpointSize (arch s)
  | SysWait _ _ | SysCont _ _ | SysSingleStep _ | SysSetOptions _ _
  | SysGetRegs _ | SysSetRegs _ _ => True
  | SysPeek _ _ _ | SysKill _ | SysStart _ | SysOpenFile _ _ => False
  end.

Definition resume_calls (st st' : State) : Prop :=
  tables_kept st st' ∧
  ∃ calls, w_log (world st') = w_log (world st) ++ calls ∧
           Forall (resume_call (srv st)) calls.

(** ** The process *)

(** The process is marked as up only while the server has one. *)
Definition up_has_process (s : Server) : Prop :=
  procIsUp s = true → is_Some (proc s).

(** ** The pattern matcher *)

(** The subject without the hex digits it begins with. *)
Fixpoint drop_hex (s : string) : string :=
  match s with
  | String a s' => if isHex a then drop_hex s' else s
  | EmptyString => s
  end.

(** What matches decides, told by recursion on the pattern and on what is
    left of the subject: an X takes the longest run of hex digits, one at
    least; any other character takes itself. *)
Fixpoint matches_rest (p s : string) : bool :=
  match p, s with
  | EmptyString, EmptyString => true
  | EmptyString, String _ _ => false
  | String _ _, EmptyString => false
  | String c p', String a s' =>
      if (c =? "X")%char then isHex a && matches_rest p' (drop_hex s')
      else (c =? a)%char && matches_rest p' s'
  end.

(** * A debuggee to run the handlers on

    The tracee of the scenarios of section 8: its function main.foo takes an
    int and a float32. *)

(** Modelled from the spec: the little-endian integer decoder of the
    descriptor (section 2, component 3). *)
Fixpoint le_unsigned (bs : list byte) : Z :=
  match bs with
  | [] => 0
  | b :: bs' => Z.of_N (Byte.to_N b) + 256 * le_unsigned bs'
  end.

Definition le_int (bs : list byte) : Z :=
  let u := le_unsigned bs in
  let m := 2 ^ (8 * Z.of_nat (length bs)) in
  if 2 * u <? m then u else u - m.

(** Modelled from the spec: the AMD64 descriptor of package arch (section 3):
    pointers and ints of eight bytes, a breakpoint instruction of one byte,
    INT 3, held in an array of max_breakpoint_size bytes, which is four as
    the 32-bit ARM of section 4.2 needs. *)
Definition AMD64 : Architecture := mkArch 1 8 8 [xcc; x00; x00; x00] le_int.

Definition foo_pc : Z := 4198400.      (* 0x401000 *)
Definition f1_pc : Z := 4198416.       (* 0x401010 *)
Definition tracee_pid : Z := 100.
Definition tracee_sp : Z := 140737488347136.

Definition tracee_entries : list NextResult :=
  [ NextEntry (mkEntry 64 46 true [mkField AttrName (VString "main.foo")]);
    NextEntry (mkEntry 80 TagFormalParameter false
                 [mkField AttrName (VString "x");
                  mkField AttrLocation (VBytes [x9c]);
                  mkField AttrType (VOffset 200)]);
    NextEntry (mkEntry 96 TagFormalParameter false
                 [mkField AttrName (VString "y");
                  mkField AttrLocation (VBytes [x9c; x11; x08; x22]);
                  mkField AttrType (VOffset 300)]);
    NextEntry (mkEntry 112 0 false []) ].

Definition tracee_dwarf : dwarf_Data :=
  mkDwarf
    (fun off => if off =? 64 then tracee_entries else [])
    (fun off => if off =? 200 then inr (mkType "int" 8)
                else if off =? 300 then inr (mkType "float32" 4)
                else inl (ErrLib "dwarf: no type at offset"))
    (fun name => if String.eqb name "main.foo" then inr foo_pc
                 else if String.eqb name "main.f1" then inr f1_pc
                 else inl (ErrLib "symbol not found"))
    (fun re => if String.eqb re "main\.f.*" then inr ["main.foo"; "main.f1"]
               else inr [])
    (fun pc => if (foo_pc <=? pc) && (pc <? f1_pc) then inr "main.foo"
               else inl (ErrLib "no symbol at address"))
    (fun pc => if (foo_pc <=? pc) && (pc <? f1_pc)
               then inr (mkEntry 64 46 true [mkField AttrName (VString "main.foo")])
               else inl (ErrLib "no entry for pc")).

(** The same tracee with the type of x missing from the type table. *)
Definition tracee_dwarf_untyped : dwarf_Data :=
  mkDwarf (dw_Next tracee_dwarf) (fun _ => inl (ErrLib "dwarf: no type at offset"))
          (dw_lookupSym tracee_dwarf) (dw_lookupRE tracee_dwarf)
          (dw_lookupPC tracee_dwarf) (dw_entryForPC tracee_dwarf).

Definition tracee_externals : Externals :=
  mkExternals
    (fun s => if String.eqb s "0x401000" then inr foo_pc
              else if String.eqb s "0x401010" then inr f1_pc
              else inl (ErrLib "strconv.ParseUint: invalid syntax"))
    (fun _ => None)
    (fun v => match v with
              | [_] => Some 0
              | [_; _; b; _] => Some (Z.of_N (Byte.to_N b))
              | _ => None
              end).

(** The code of main.foo and main.f1, and the arguments of main.foo on the
    stack: x = 42 at 0(FP), y at 8(FP). *)
Definition tracee_mem : gmap Z byte :=
  mem_write (mem_write (mem_write (mem_write ∅
    foo_pc [x64; x48; x8b; x0c])
    f1_pc [x55; x48; x89; xe5])
    (tracee_sp + 8) [x2a; x00; x00; x00; x00; x00; x00; x00])
    (tracee_sp + 16) [x00; x00; xc0; x3f].

Definition entry_regs : PtraceRegs := mkRegs 4197000 tracee_sp [].

(** The debuggee of a stop: after the trap at [pc] the program counter is one
    past the breakpoint instruction. *)
Definition trap_at (pc : Z) (m : gmap Z byte) : WaitAnswer :=
  WaitEv (mkEvent tracee_pid 1407 (mkRegs (pc + 1) tracee_sp []) m).

Definition new_server (d : dwarf_Data) : Server :=
  mkServer AMD64 "tracee" d None None false 0 zeroRegs ∅ [].

Definition new_world (waits : list WaitAnswer) (rand : list nat) : World :=
  mkWorld ∅ ∅ waits [inr (mkSpawn tracee_pid entry_regs tracee_mem)]
          (fun name flag => if String.eqb name "/etc/hostname" then inr 7 else inl 2)
          rand [].

(** A server that has started the tracee, has seen its first stop and holds
    a breakpoint at main.foo; the tracee is stopped at its entry. *)
Definition foo_breakpoint : breakpoint := mkBreakpoint foo_pc [x64; x00; x00; x00].

Definition stopped_server : Server :=
  mkServer AMD64 "tracee" tracee_dwarf None (Some (mkProcess tracee_pid)) true
           tracee_pid entry_regs {[foo_pc := foo_breakpoint]} [].

Definition stopped_world (waits : list WaitAnswer) : World :=
  mkWorld tracee_mem {[tracee_pid := entry_regs]} waits []
          (fun name flag => inl 2) [] [].

(** What the debuggee's memory is while it runs with both breakpoints in. *)
Definition patched_mem : gmap Z byte :=
  mem_write (mem_write tracee_mem foo_pc [xcc]) f1_pc [xcc].

(** The same memory after the debuggee has unmapped the code of main.f1. *)
Definition unloaded_mem : gmap Z byte :=
  mem_write (mem_write (mem_write ∅
    foo_pc [xcc; x48; x8b; x0c])
    (tracee_sp + 8) [x2a; x00; x00; x00; x00; x00; x00; x00])
    (tracee_sp + 16) [x00; x00; xc0; x3f].

(** The stop at exec, the trap at main.foo, the trap of the step over it,
    the trap at main.f1. *)
Definition session_waits : list WaitAnswer :=
  [ trap_at 4196999 tracee_mem;
    trap_at foo_pc patched_mem;
    trap_at (foo_pc + 3) tracee_mem;
    trap_at f1_pc patched_mem ].

Definition session : list Request :=
  [ ReqRun; ReqBreakpoint "re:main\.f.*"; ReqResume; ReqFrames 1;
    ReqEval "sym:main.foo"; ReqResume ].

Definition fresh_state (waits : list WaitAnswer) : State :=
  mkState (new_server tracee_dwarf) (new_world waits []).

(** The tracee stopped at main.foo, where it has a breakpoint. *)
Definition foo_regs : PtraceRegs := mkRegs foo_pc tracee_sp [].

Definition at_foo (d : dwarf_Data) (waits : list WaitAnswer) : State :=
  mkState
    (mkServer AMD64 "tracee" d None (Some (mkProcess tracee_pid)) true
              tracee_pid foo_regs {[foo_pc := foo_breakpoint]} [])
    (mkWorld tracee_mem {[tracee_pid := foo_regs]} waits []
             (fun name flag => inl 2) [] []).

(** A server whose only breakpoint is at main.f1. *)
Definition f1_breakpoint : breakpoint := mkBreakpoint f1_pc [x55; x00; x00; x00].

Definition f1_only : State :=
  mkState
    (mkServer AMD64 "tracee" tracee_dwarf None (Some (mkProcess tracee_pid)) true
              tracee_pid entry_regs {[f1_pc := f1_breakpoint]} [])
    (stopped_world []).

(** A session in which the tracee exits: it is started, a breakpoint is set
    at main.f1, and the Resume that follows sees the stop at exec and then,
    instead of a trap, the exit of the tracee with status 0.  The server is
    left with its breakpoint and no task to trace. *)
Definition exit_waits : list WaitAnswer :=
  [ trap_at 4196999 tracee_mem; WaitEv (mkEvent tracee_pid 0 entry_regs ∅) ].

Definition f1_exited : State :=
  serve (H := tracee_externals) [ReqRun; ReqBreakpoint "sym:main.f1"; ReqResume]
        (fresh_state exit_waits).

(** A server with three descriptors of which the second was closed. *)
Definition with_files : State :=
  mkState
    (mkServer AMD64 "tracee" tracee_dwarf None None false 0 zeroRegs ∅
              [Some (mkFile "r" 0 5); None; Some (mkFile "rw" 2 6)])
    (new_world [] []).

(** The tracee started a second time from an executable that was rebuilt in
    between: main.foo begins with another instruction. *)
Definition rebuilt_mem : gmap Z byte := mem_write tracee_mem foo_pc [x55; x48; x89; xe5].

Definition restarted : State :=
  mkState (new_server tracee_dwarf)
          (mkWorld ∅ ∅ []
             [inr (mkSpawn tracee_pid entry_regs tracee_mem);
              inr (mkSpawn 101 entry_regs rebuilt_mem)]
             (fun name flag => inl 2) [] []).

(** The stop of a clone event: SIGTRAP with PTRACE_EVENT_CLONE above it. *)
Definition clone_status : Z := Z.lor (Z.shiftl PTRACE_EVENT_CLONE 16) 1407.

Definition clone_stop : WaitAnswer :=
  WaitEv (mkEvent tracee_pid clone_status foo_regs tracee_mem).

(** ** The host of the debugger *)

(** The file of handle 7 holds the name of the host; a read past its end
    stores what there is and reports the end of the file.  The file of
    handle 6 does not close without error. *)
Definition hostname_bytes : list byte := [x6f; x67; x6c; x65; x0a].

Definition host_files : program_File :=
  mkProgramFile
    (fun handle len offset =>
       if handle =? 7 then
         let stored := take len (drop (Z.to_nat offset) hostname_bytes) in
         (stored, Z.of_nat (length stored),
          if (length stored <? len)%nat then Some (ErrLib "EOF") else None)
       else ([], 0, Some (Errno 9)))
    (fun handle => if handle =? 6 then Some (Errno EIO) else None).

(** The tracee stopped at its entry, with no breakpoint yet. *)
Definition stopped_clean : State :=
  mkState
    (mkServer AMD64 "tracee" tracee_dwarf None (Some (mkProcess tracee_pid)) true
              tracee_pid entry_regs ∅ [])
    (stopped_world []).

(** The line table of the tracee: main.foo is at line 12 of tracee.go. *)
Definition tracee_table : gosym_Table :=
  mkTable (fun pc => if (foo_pc <=? pc) && (pc <? f1_pc) then ("tracee.go", 12, true)
                     else (EmptyString, 0, false)).

Definition stopped_with_lines : State :=
  mkState
    (mkServer AMD64 "tracee" tracee_dwarf (Some tracee_table) (Some (mkProcess tracee_pid))
              true tracee_pid entry_regs ∅ [])
    (stopped_world []).

(** A parser that knows one more number, an address inside main.foo. *)
Definition numeric_externals : Externals :=
  mkExternals
    (fun s => if String.eqb s "0x401004" then inr (foo_pc + 4)
              else ParseUint (Externals := tracee_externals) s)
    (regexp_Compile (Externals := tracee_externals))
    (evalLocation (Externals := tracee_externals)).

(** The tracee whose compiler wrote the type of x before its location. *)
Definition tracee_dwarf_type_first : dwarf_Data :=
  mkDwarf
    (fun off =>
       if off =? 64 then
         [ NextEntry (mkEntry 64 46 true [mkField AttrName (VString "main.foo")]);
           NextEntry (mkEntry 80 TagFormalParameter false
                        [mkField AttrName (VString "x");
                         mkField AttrType (VOffset 200);
                         mkField AttrLocation (VBytes [x9c])]);
           NextEntry (mkEntry 112 0 false []) ]
       else [])
    (dw_Type tracee_dwarf) (dw_lookupSym tracee_dwarf) (dw_lookupRE tracee_dwarf)
    (dw_lookupPC tracee_dwarf) (dw_entryForPC tracee_dwarf).

(** The executables of the host: the tracee as an ELF file of handle 3, with
    the sections of the line table, and as a Mach-O file of handle 4.  The
    descriptors of the 32-bit machines stand for those of package arch. *)
Definition tracee_elf : elf_File :=
  mkElfFile EM_X86_64 ELFCLASS64 (inr tracee_dwarf)
    (fun name =>
       if String.eqb name ".gosymtab" then Some (mkSection 0 (inr []))
       else if String.eqb name ".gopclntab" then Some (mkSection 5242880 (inr [xfb; xff; xff; xff]))
       else if String.eqb name ".text" then Some (mkSection foo_pc (inr [x64; x48; x8b; x0c]))
       else None).

Definition tracee_loaders : Loaders :=
  mkLoaders
    (fun fd => if fd =? 3 then inr tracee_elf else inl (ErrLib "bad magic number"))
    (fun fd => if fd =? 4 then inr (mkMachoFile CpuAmd64 (inr tracee_dwarf))
               else inl (ErrLib "invalid magic number"))
    (fun symdat pclndat text => if text =? foo_pc then inr tracee_table
                                else inl (ErrLib "gosym: bad text address"))
    (mkArch 4 4 4 [xf0; x01; xf0; xe7] le_int)
    (mkArch 1 4 4 [xcc; x00; x00; x00] le_int)
    AMD64.

Definition host_world : World :=
  mkWorld ∅ ∅ [] [inr (mkSpawn tracee_pid entry_regs tracee_mem)]
          (fun name flag => if String.eqb name "tracee" then inr 3
                            else if String.eqb name "tracee.macho" then inr 4
                            else if String.eqb name "/etc/hostname" then inr 7
                            else inl 2)
          [] [].

(** The exit of the tracee with status 0. *)
Definition tracee_exit : WaitAnswer := WaitEv (mkEvent tracee_pid 0 foo_regs ∅).

Section Proofs.
Context `{Externals}.

(** ** How the primitives run *)

Lemma bind_eq {A B} (c : M A) (k : A → M B) st :
  bind c k st = match c st with
                | (Ok a, st') => k a st'
                | (Abort x, st') => (Abort x, st')
                end.
Proof. reflexivity. Qed.

Lemma run_wait pid s w :
  wrap WaitFailed (wait pid) (mkState s w) =
  match w_waits w with
  | [] => (Abort Hang, mkState s (logged (SysWait pid None) w))
  | WaitErr e :: rest =>
      (Abort (Err (WaitFailed (Errno e))),
       mkState s (logged (SysWait pid None) (with_waits rest w)))
  | WaitEv ev :: rest =>
      (Ok (ev_pid ev, ev_status ev), mkState s (k_wait pid w).2)
  end.
Proof.
  unfold wrap, wait, lift_k, k_wait. cbn [world srv].
  destruct (w_waits w) as [|[e|ev] rest]; reflexivity.
Qed.

Lemma run_cont g pid sig s w :
  wrap g (ptraceCont pid sig) (mkState s w) =
  if traced w pid
  then (Ok tt, mkState s (with_regs (delete pid (w_regs w)) (logged (SysCont pid sig) w)))
  else (Abort (Err (g (Errno ESRCH))), mkState s (logged (SysCont pid sig) w)).
Proof.
  unfold wrap, ptraceCont, lift_k, k_cont. cbn [world srv].
  change (traced (logged (SysCont pid sig) w) pid) with (traced w pid).
  destruct (traced w pid); reflexivity.
Qed.


Lemma run_setoptions g pid o s w :
  wrap g (ptraceSetOptions pid o) (mkState s w) =
  if traced w pid
  then (Ok tt, mkState s (logged (SysSetOptions pid o) w))
  else (Abort (Err (g (Errno ESRCH))), mkState s (logged (SysSetOptions pid o) w)).
Proof.
  unfold wrap, ptraceSetOptions, lift_k, k_setoptions. cbn [world srv].
  change (traced (logged (SysSetOptions pid o) w) pid) with (traced w pid).
  destruct (traced w pid); reflexivity.
Qed.

Lemma run_poke g pid addr data s w :
  wrap g (ptracePoke pid addr data) (mkState s w) =
  if traced w pid then
    match mem_read (w_mem w) addr (length data) with
    | Some _ => (Ok tt, mkState s (with_mem (mem_write (w_mem w) addr data)
                                     (logged (SysPoke pid addr data) w)))
    | None => (Abort (Err (g (Errno EIO))), mkState s (logged (SysPoke pid addr data) w))
    end
  else (Abort (Err (g (Errno ESRCH))), mkState s (logged (SysPoke pid addr data) w)).
Proof.
  unfold wrap, ptracePoke, lift_k, k_poke. cbn [world srv].
  change (traced (logged (SysPoke pid addr data) w) pid) with (traced w pid).
  change (w_mem (logged (SysPoke pid addr data) w)) with (w_mem w).
  destruct (traced w pid); [|reflexivity].
  destruct (mem_read (w_mem w) addr (length data)); reflexivity.
Qed.

Lemma run_peek g pid addr n s w :
  wrap g (ptracePeek pid addr n) (mkState s w) =
  if traced w pid then
    match mem_read (w_mem w) addr n with
    | Some bs => (Ok bs, mkState s (logged (SysPeek pid addr n) w))
    | None => (Abort (Err (g (Errno EIO))), mkState s (logged (SysPeek pid addr n) w))
    end
  else (Abort (Err (g (Errno ESRCH))), mkState s (logged (SysPeek pid addr n) w)).
Proof.
  unfold wrap, ptracePeek, lift_k, k_peek. cbn [world srv].
  change (traced (logged (SysPeek pid addr n) w) pid) with (traced w pid).
  change (w_mem (logged (SysPeek pid addr n) w)) with (w_mem w).
  destruct (traced w pid); [|reflexivity].
  destruct (mem_read (w_mem w) addr n); reflexivity.
Qed.

Lemma run_getregs g pid s w :
  wrap g (ptraceGetRegs pid) (mkState s w) =
  match w_regs w !! pid with
  | Some r => (Ok r, mkState s (logged (SysGetRegs pid) w))
  | None => (Abort (Err (g (Errno ESRCH))), mkState s (logged (SysGetRegs pid) w))
  end.
Proof.
  unfold wrap, ptraceGetRegs, lift_k, k_getregs. cbn [world srv].
  change (w_regs (logged (SysGetRegs pid) w)) with (w_regs w).
  destruct (w_regs w !! pid); reflexivity.
Qed.

Lemma run_setregs g pid r s w :
  wrap g (ptraceSetRegs pid r) (mkState s w) =
  if traced w pid
  then (Ok tt, mkState s (with_regs (<[pid := r]> (w_regs w)) (logged (SysSetRegs pid r) w)))
  else (Abort (Err (g (Errno ESRCH))), mkState s (logged (SysSetRegs pid r) w)).
Proof.
  unfold wrap, ptraceSetRegs, lift_k, k_setregs. cbn [world srv].
  change (traced (logged (SysSetRegs pid r) w) pid) with (traced w pid).
  destruct (traced w pid); reflexivity.
Qed.

Lemma wrap_id {A} (c : M A) st : wrap (fun e => e) c st = c st.
Proof. unfold wrap. destruct (c st) as [[a|[e| |]] st']; reflexivity. Qed.

(** ** Composing what handlers keep *)

Lemma keeps_bind {A B} (R : State → State → Prop) `{!PreOrder R} (c : M A) (k : A → M B) :
  keeps R c → (∀ a, keeps R (k a)) → keeps R (bind c k).
Proof.
  intros Hc Hk st. rewrite bind_eq. specialize (Hc st).
  destruct (c st) as [[a|x] st']; cbn [snd] in *; [|assumption].
  etransitivity; [exact Hc|apply Hk].
Qed.

Lemma keeps_ret {A} (R : State → State → Prop) `{!Reflexive R} (a : A) : keeps R (ret a).
Proof. intros st. cbn. reflexivity. Qed.

Lemma keeps_throw {A} (R : State → State → Prop) `{!Reflexive R} e : keeps R (@throw A e).
Proof. intros st. cbn. reflexivity. Qed.

Lemma keeps_panic {A} (R : State → State → Prop) `{!Reflexive R} : keeps R (@panic A).
Proof. intros st. cbn. reflexivity. Qed.

Lemma keeps_get_srv (R : State → State → Prop) `{!Reflexive R} : keeps R get_srv.
Proof. intros st. cbn. reflexivity. Qed.

Lemma keeps_wrap {A} (R : State → State → Prop) g (c : M A) : keeps R c → keeps R (wrap g c).
Proof.
  intros Hc st. specialize (Hc st). unfold wrap.
  destruct (c st) as [[a|[e| |]] st']; exact Hc.
Qed.

#[local] Instance untouched_preorder : PreOrder untouched.
Proof.
  split.
  - intros st. by repeat split.
  - intros st1 st2 st3 (? & ? & ? & ? & ? & ?) (? & ? & ? & ? & ? & ?).
    repeat split; congruence.
Qed.

#[local] Instance tables_kept_preorder : PreOrder tables_kept.
Proof.
  split.
  - intros st. by repeat split.
  - intros st1 st2 st3 (? & ? & ? & ? & ? & ? & ?) (? & ? & ? & ? & ? & ? & ?).
    repeat split; congruence.
Qed.

#[local] Instance log_grows_preorder : PreOrder log_grows.
Proof.
  split.
  - intros st. exists []. by rewrite app_nil_r.
  - intros st1 st2 st3 [c1 H1] [c2 H2]. exists (c1 ++ c2).
    by rewrite H2, H1, app_assoc.
Qed.

(** The reads of the trace facility touch nothing. *)
Lemma keeps_untouched_peek pid addr n : keeps untouched (ptracePeek pid addr n).
Proof.
  intros [s w]. unfold ptracePeek, lift_k, k_peek. cbn [world srv].
  destruct (traced _ pid); [destruct (mem_read _ addr n)|]; by repeat split.
Qed.

Lemma keeps_untouched_getregs pid : keeps untouched (ptraceGetRegs pid).
Proof.
  intros [s w]. unfold ptraceGetRegs, lift_k, k_getregs. cbn [world srv].
  destruct (w_regs _ !! pid); by repeat split.
Qed.

(** No call of the trace facility writes the server. *)
Lemma keeps_tables_lift_k {A} (k : World → result A * World) : keeps tables_kept (lift_k k).
Proof. intros [s w]. unfold lift_k. cbn [world srv]. destruct (k w). by repeat split. Qed.

Lemma keeps_log_modify_srv g : keeps log_grows (modify_srv g).
Proof. intros st. exists []. cbn. by rewrite app_nil_r. Qed.

#[local] Instance resume_frame_preorder : PreOrder resume_frame.
Proof.
  split.
  - intros st. split; [reflexivity|]. split; [reflexivity|]. by exists [].
  - intros st1 st2 st3 (Ht1 & Hl1 & u1 & Hu1) (Ht2 & Hl2 & u2 & Hu2).
    split; [by etransitivity|]. split; [by etransitivity|].
    exists (u1 ++ u2). by rewrite Hu1, Hu2, app_assoc.
Qed.

Lemma keeps_frame_lift_k {A} (k : World → result A * World) :
  (∀ w, (∃ calls, w_log (k w).2 = w_log w ++ calls) ∧
        (∃ used, w_waits w = used ++ w_waits (k w).2)) →
  keeps resume_frame (lift_k k).
Proof.
  intros Hk st. split; [apply keeps_tables_lift_k|].
  destruct st as [s w]. unfold lift_k. cbn [world srv]. specialize (Hk w).
  destruct (k w) as [r w']. exact Hk.
Qed.

Lemma keeps_frame_modify_srv g :
  (∀ s, same_tables s (g s)) → keeps resume_frame (modify_srv g).
Proof.
  intros Hg st. split; [exact (Hg (srv st))|]. split; [apply keeps_log_modify_srv|].
  by exists [].
Qed.

Ltac kernel_frame :=
  intros w; split; [eexists; cbn; reflexivity|exists []; reflexivity].

Lemma keeps_frame_cont pid sig : keeps resume_frame (ptraceCont pid sig).
Proof.
  apply keeps_frame_lift_k. intros w. unfold k_cont.
  destruct (traced _ pid); revert w; kernel_frame.
Qed.

Lemma keeps_frame_singlestep pid : keeps resume_frame (ptraceSingleStep pid).
Proof.
  apply keeps_frame_lift_k. intros w. unfold k_singlestep.
  destruct (traced _ pid); revert w; kernel_frame.
Qed.

Lemma keeps_frame_setoptions pid o : keeps resume_frame (ptraceSetOptions pid o).
Proof.
  apply keeps_frame_lift_k. intros w. unfold k_setoptions.
  destruct (traced _ pid); revert w; kernel_frame.
Qed.

Lemma keeps_frame_getregs pid : keeps resume_frame (ptraceGetRegs pid).
Proof.
  apply keeps_frame_lift_k. intros w. unfold k_getregs.
  destruct (w_regs _ !! pid); revert w; kernel_frame.
Qed.

Lemma keeps_frame_setregs pid r : keeps resume_frame (ptraceSetRegs pid r).
Proof.
  apply keeps_frame_lift_k. intros w. unfold k_setregs.
  destruct (traced _ pid); revert w; kernel_frame.
Qed.

Lemma keeps_frame_poke pid addr data : keeps resume_frame (ptracePoke pid addr data).
Proof.
  apply keeps_frame_lift_k. intros w. unfold k_poke.
  destruct (traced _ pid); [destruct (mem_read _ addr _)|]; revert w; kernel_frame.
Qed.

Lemma keeps_frame_wait pid : keeps resume_frame (wait pid).
Proof.
  apply keeps_frame_lift_k. intros w. unfold k_wait.
  destruct (w_waits w) as [|[e|ev] rest] eqn:Hw; cbn.
  - split; [by eexists|]. by exists [].
  - split; [by eexists|]. by exists [WaitErr e].
  - split; [by eexists|]. by exists [WaitEv ev].
Qed.

Lemma keeps_frame_range_map {V} (m : gmap Z V) : keeps resume_frame (range_map m).
Proof.
  intros st. split; [by repeat split|]. split; [exists []; cbn; by rewrite app_nil_r|].
  by exists [].
Qed.

(** ** waitForTrap *)

Lemma is_trap_spec status :
  is_trap status = true ↔
  StopSignal status = SIGTRAP ∧ TrapCause status ≠ PTRACE_EVENT_CLONE.
Proof.
  unfold is_trap. rewrite andb_true_iff, negb_true_iff, Z.eqb_eq, Z.eqb_neq. tauto.
Qed.

Lemma is_trap_Stopped status : is_trap status = true → Stopped status = true.
Proof.
  intros [Hs _]%is_trap_spec. unfold StopSignal in Hs.
  destruct (Stopped status); [reflexivity|discriminate].
Qed.

Lemma waitForTrap_loop_outcome turns pid st :
  (length (w_waits (world st)) < turns)%nat →
  srv (waitForTrap_loop turns pid st).2 = srv st ∧
  waitForTrap_outcome pid (world st) (waitForTrap_loop turns pid st).1
    (world (waitForTrap_loop turns pid st).2).
Proof.
  revert st. induction turns as [|turns IH]; intros [s w] Hlen; [simpl in Hlen; lia|].
  cbn [waitForTrap_loop]. rewrite bind_eq, run_wait. cbn [world srv] in *.
  destruct (w_waits w) as [|[errno|ev] rest] eqn:Hw.
  - split; [reflexivity|]. exists []. split; [constructor|]. cbn. auto.
  - split; [reflexivity|]. exists []. split; [constructor|]. cbn. eauto.
  - cbn [fst snd]. destruct (is_trap (ev_status ev)) eqn:Htrap.
    + unfold k_wait. rewrite Hw. split; [reflexivity|].
      exists []. split; [constructor|]. exists ev. cbn.
      pose proof (is_trap_Stopped _ Htrap) as ->.
      apply is_trap_spec in Htrap as [? ?].
      rewrite lookup_insert_eq. repeat split; auto.
    + rewrite bind_eq, run_cont.
      match goal with |- context [traced ?w0 ?p] => destruct (traced w0 p) eqn:Htr end.
      * match goal with |- context [waitForTrap_loop turns pid ?st0] =>
          destruct (IH st0) as (Hsrv & skipped & Hsk & Hout) end.
        { unfold k_wait. rewrite Hw. cbn. simpl in Hlen. lia. }
        unfold k_wait in *. rewrite Hw in *.
        cbn [world srv snd w_waits w_log w_mem w_regs with_regs logged with_waits with_mem] in *.
        split; [rewrite Hsrv; reflexivity|].
        exists (ev :: skipped). split; [constructor; assumption|].
        destruct (waitForTrap_loop turns pid _) as [[wpid|[[]| |]] st']; cbn [fst snd] in *;
          try contradiction.
        -- destruct Hout as (ev' & -> & ? & ? & ? & -> & ? & ?). exists ev'. cbn.
           rewrite <- !app_assoc. repeat split; auto.
        -- destruct Hout as (errno & -> & -> & ->). exists errno. cbn.
           rewrite <- !app_assoc. auto.
        -- destruct Hout as (Hne & -> & ->). cbn. rewrite <- !app_assoc.
           repeat split; auto; discriminate.
        -- destruct Hout as (-> & -> & ->). cbn. rewrite <- !app_assoc. auto.
      * unfold k_wait. rewrite Hw. split; [reflexivity|].
        exists [ev]. split; [constructor; [assumption|constructor]|]. cbn.
        rewrite <- !app_assoc. repeat split; auto; discriminate.
Qed.

Lemma waitForTrap_spec (pid : Z) (st : State) :
  srv (waitForTrap pid st).2 = srv st ∧
  waitForTrap_outcome pid (world st) (waitForTrap pid st).1 (world (waitForTrap pid st).2).
Proof. unfold waitForTrap. apply waitForTrap_loop_outcome. lia. Qed.

(** More turns than answers change nothing: the loop never runs out. *)
Lemma waitForTrap_loop_turns t1 t2 pid st :
  (length (w_waits (world st)) < t1)%nat →
  (length (w_waits (world st)) < t2)%nat →
  waitForTrap_loop t1 pid st = waitForTrap_loop t2 pid st.
Proof.
  revert t2 st.
  induction t1 as [|t1 IH]; intros [|t2] [s w] H1 H2; cbn [world] in *; try lia.
  cbn [waitForTrap_loop]. rewrite !bind_eq, !run_wait.
  destruct (w_waits w) as [|[errno|ev] rest] eqn:Hw; try reflexivity.
  cbn [fst snd]. destruct (is_trap (ev_status ev)); [reflexivity|].
  rewrite !bind_eq, !run_cont.
  match goal with |- context [traced ?w0 ?p] => destruct (traced w0 p) end; [|reflexivity].
  assert (Hl : w_waits (k_wait pid w).2 = rest) by (unfold k_wait; rewrite Hw; reflexivity).
  apply IH; cbn [world w_waits with_regs logged]; rewrite Hl; simpl in *; lia.
Qed.

Lemma waitForTrap_loop_enough turns pid st :
  (length (w_waits (world st)) < turns)%nat →
  waitForTrap_loop turns pid st = waitForTrap pid st.
Proof. intros Hlen. unfold waitForTrap. apply waitForTrap_loop_turns; lia. Qed.

(** C6.  Clone-event transparency.  Whatever answers [wait] is going to give,
    waitForTrap returns only the task of a stop that is a SIGTRAP whose cause
    is not a clone event; every answer before it was not such a trap and was
    followed by the continue of the task that reported it, with signal 0,
    and by another wait; an error of wait is returned as WaitFailed.  The
    server itself is left as it was, and the loop does not run out of turns:
    it ends in a result, in an error, or blocked in wait with no answer left. *)
Theorem waitForTrap_clone_transparent (pid : Z) (st : State) :
  srv (waitForTrap pid st).2 = srv st ∧
  waitForTrap_outcome pid (world st) (waitForTrap pid st).1 (world (waitForTrap pid st).2) ∧
  ∀ turns, (length (w_waits (world st)) < turns)%nat →
           waitForTrap_loop turns pid st = waitForTrap pid st.
Proof.
  split; [apply waitForTrap_spec|]. split; [apply waitForTrap_spec|].
  intros turns. apply waitForTrap_loop_enough.
Qed.

(** ** Memory *)

Lemma mem_write_lookup bs : ∀ m a x,
  mem_write m a bs !! x =
  if decide (a ≤ x < a + Z.of_nat (length bs)) then bs !! Z.to_nat (x - a) else m !! x.
Proof.
  induction bs as [|b bs IH]; intros m a x; cbn [mem_write length].
  - case_decide; [lia|reflexivity].
  - rewrite IH. repeat case_decide; try lia.
    + replace (Z.to_nat (x - a)) with (Datatypes.S (Z.to_nat (x - (a + 1)))) by lia.
      reflexivity.
    + assert (x = a) as -> by lia. rewrite lookup_insert_eq.
      replace (Z.to_nat (a - a)) with O by lia. reflexivity.
    + rewrite lookup_insert_ne by lia. reflexivity.
Qed.

Lemma mem_read_Some n : ∀ m a bs,
  mem_read m a n = Some bs ↔
  length bs = n ∧ ∀ i, (i < n)%nat → m !! (a + Z.of_nat i) = bs !! i.
Proof.
  induction n as [|n IH]; intros m a bs; cbn [mem_read].
  - split.
    + intros [= <-]. split; [reflexivity|]. intros; lia.
    + intros [Hl _]. destruct bs; [reflexivity|discriminate].
  - split.
    + destruct (m !! a) as [b|] eqn:Hb; [|discriminate].
      destruct (mem_read m (a + 1) n) as [bs'|] eqn:Hr; [|discriminate].
      intros [= <-]. apply IH in Hr as [Hl Hi]. split; [simpl; lia|].
      intros [|i] Hlt; cbn.
      * rewrite Z.add_0_r. assumption.
      * rewrite <- Hi by lia. f_equal. lia.
    + intros [Hl Hi]. destruct bs as [|b bs]; [discriminate|].
      pose proof (Hi O ltac:(lia)) as H0. rewrite Z.add_0_r in H0. cbn in H0.
      rewrite H0.
      assert (Hr : mem_read m (a + 1) n = Some bs).
      { apply IH. split; [simpl in Hl; lia|]. intros i Hlt.
        pose proof (Hi (Datatypes.S i) ltac:(lia)) as Hs. cbn in Hs.
        etransitivity; [|exact Hs]. f_equal. lia. }
      rewrite Hr. reflexivity.
Qed.

Lemma mem_read_length m a n bs : mem_read m a n = Some bs → length bs = n.
Proof. intros Hr. apply mem_read_Some in Hr. tauto. Qed.

(** What was written is read back. *)
Lemma mem_read_write m a bs : mem_read (mem_write m a bs) a (length bs) = Some bs.
Proof.
  apply mem_read_Some. split; [reflexivity|]. intros i Hlt.
  rewrite mem_write_lookup. case_decide; [|lia]. f_equal. lia.
Qed.

(** Bytes away from the written range are not touched. *)
Lemma mem_read_write_disjoint m a bs a' n :
  a' + Z.of_nat n ≤ a ∨ a + Z.of_nat (length bs) ≤ a' →
  mem_read (mem_write m a bs) a' n = mem_read m a' n.
Proof.
  intros Hd. destruct (mem_read m a' n) as [bs'|] eqn:Hr.
  - apply mem_read_Some in Hr as [Hl Hi]. apply mem_read_Some. split; [assumption|].
    intros i Hlt. rewrite mem_write_lookup. case_decide; [lia|]. apply Hi, Hlt.
  - destruct (mem_read (mem_write m a bs) a' n) as [bs'|] eqn:Hr'; [|reflexivity].
    apply mem_read_Some in Hr' as [Hl Hi].
    assert (mem_read m a' n = Some bs'); [|congruence].
    apply mem_read_Some. split; [assumption|]. intros i Hlt.
    rewrite <- Hi by assumption. rewrite mem_write_lookup. case_decide; [lia|reflexivity].
Qed.

(** *** A batch of writes *)

Lemma apply_writes_cons m ad writes :
  apply_writes m (ad :: writes) = apply_writes (mem_write m ad.1 ad.2) writes.
Proof. reflexivity. Qed.

(** A byte no write covers is left as it was. *)
Lemma apply_writes_uncovered writes : ∀ m x,
  Forall (fun ad => ¬ covers ad x) writes →
  apply_writes m writes !! x = m !! x.
Proof.
  induction writes as [|ad writes IH]; intros m x Hx; [reflexivity|].
  apply Forall_cons in Hx as [Hhd Htl]. rewrite apply_writes_cons, IH by assumption.
  rewrite mem_write_lookup. case_decide; [|reflexivity]. contradiction.
Qed.

(** When every write agrees with one memory [m0], so does the result on every
    byte that is written, whatever the order and whatever was there. *)
Lemma apply_writes_covered m0 writes : ∀ m x,
  (∀ ad, ad ∈ writes → mem_read m0 ad.1 (length ad.2) = Some ad.2) →
  Exists (fun ad => covers ad x) writes →
  apply_writes m writes !! x = m0 !! x.
Proof.
  induction writes as [|ad writes IH]; intros m x Hm0 Hx; [by apply Exists_nil in Hx|].
  rewrite apply_writes_cons.
  destruct (decide (Exists (fun ad => covers ad x) writes)) as [Hin|Hout].
  - apply IH; [|assumption]. intros ad' Had'. apply Hm0. by apply list_elem_of_further.
  - apply Exists_cons in Hx as [Hx|Hx]; [|contradiction].
    rewrite apply_writes_uncovered by (by apply not_Exists_Forall; [intros; apply _|]).
    rewrite mem_write_lookup. unfold covers in Hx. case_decide; [|lia].
    pose proof (Hm0 ad (list_elem_of_here _ _)) as Hr.
    apply mem_read_Some in Hr as [_ Hr].
    rewrite <- Hr by lia. f_equal. lia.
Qed.

Lemma apply_writes_read_back m0 writes m ad :
  (∀ ad, ad ∈ writes → mem_read m0 ad.1 (length ad.2) = Some ad.2) →
  ad ∈ writes →
  mem_read (apply_writes m writes) ad.1 (length ad.2) = Some ad.2.
Proof.
  intros Hm0 Hin. apply mem_read_Some. split; [reflexivity|]. intros i Hi.
  rewrite (apply_writes_covered m0).
  2: assumption.
  2:{ apply Exists_exists. exists ad. split; [assumption|unfold covers; lia]. }
  pose proof (Hm0 ad Hin) as Hr. apply mem_read_Some in Hr as [_ Hr]. apply Hr, Hi.
Qed.

(** Writes to ranges that do not meet are all read back. *)
Lemma apply_writes_separate writes : ∀ m ad,
  NoDup writes.*1 →
  (∀ ad1 ad2, ad1 ∈ writes → ad2 ∈ writes → ad1.1 ≠ ad2.1 →
     ∀ x, ¬ (covers ad1 x ∧ covers ad2 x)) →
  ad ∈ writes →
  mem_read (apply_writes m writes) ad.1 (length ad.2) = Some ad.2.
Proof.
  induction writes as [|ad0 writes IH]; intros m ad Hnd Hsep Hin;
    [by apply elem_of_nil in Hin|].
  rewrite apply_writes_cons. cbn in Hnd. apply NoDup_cons in Hnd as [Hfresh Hnd].
  apply elem_of_cons in Hin as [->|Hin].
  - apply mem_read_Some. split; [reflexivity|]. intros i Hi.
    rewrite apply_writes_uncovered.
    + rewrite mem_write_lookup. case_decide; [|lia]. f_equal. lia.
    + apply Forall_forall. intros ad' Had' Hcov.
      apply (Hsep ad0 ad' (list_elem_of_here _ _) (list_elem_of_further _ _ _ Had')
               ltac:(intros Heq; apply Hfresh; rewrite Heq; apply list_elem_of_fmap;
                     by exists ad') (ad0.1 + Z.of_nat i)).
      split; [unfold covers; lia|assumption].
  - apply IH; [assumption| |assumption].
    intros ad1 ad2 H1 H2. apply Hsep; by apply list_elem_of_further.
Qed.

(** ** install and lift *)

Lemma setBreakpoints_loop_poke_loop order :
  setBreakpoints_loop order =
  poke_loop SetBreakpointsFailed
    (fun s _ => slice_to (BreakpointInstr (arch s)) (BreakpointSize (arch s))) order.
Proof. induction order as [|[pc bp] rest IH]; cbn; [reflexivity|]. rewrite IH. reflexivity. Qed.

Lemma liftBreakpoints_loop_poke_loop order :
  liftBreakpoints_loop order =
  poke_loop LiftBreakpointsFailed
    (fun s bp => slice_to (origInstr bp) (BreakpointSize (arch s))) order.
Proof. induction order as [|[pc bp] rest IH]; cbn; [reflexivity|]. rewrite IH. reflexivity. Qed.

Lemma slice_to_Some {A} (a : list A) n out :
  slice_to a n = Some out →
  out = take (Z.to_nat n) a ∧ Z.of_nat (length out) = n ∧ 0 ≤ n ≤ Z.of_nat (length a).
Proof.
  unfold slice_to. destruct (0 <=? n) eqn:H0; [|discriminate].
  destruct (n <=? Z.of_nat (length a)) eqn:H1; [|discriminate].
  cbn. intros [= <-]. apply Z.leb_le in H0, H1.
  rewrite length_take. repeat split; lia.
Qed.

(** What a run of the loop did: the entries [poked] it reached, one poke for
    each in order, and when it returns without error every entry was poked
    and memory holds all the writes. *)
Lemma poke_loop_outcome g bytes_of order : ∀ st,
  let r := poke_loop g bytes_of order st in
  srv r.2 = srv st ∧
  w_regs (world r.2) = w_regs (world st) ∧
  w_waits (world r.2) = w_waits (world st) ∧
  w_rand (world r.2) = w_rand (world st) ∧
  r.1 ≠ Abort Hang ∧
  ∃ poked rest writes,
    order = poked ++ rest ∧
    Forall2 (fun e ad => ad.1 = e.1 ∧ bytes_of (srv st) e.2 = Some ad.2) poked writes ∧
    w_log (world r.2) = w_log (world st) ++ poke_calls (stoppedPid (srv st)) writes ∧
    (r.1 = Ok tt → rest = [] ∧ w_mem (world r.2) = apply_writes (w_mem (world st)) writes).
Proof.
  induction order as [|[pc bp] order IH]; intros [s w]; cbn zeta.
  - cbn. repeat split; try done. exists [], [], []. cbn. rewrite app_nil_r.
    repeat split; auto.
  - cbn [poke_loop]. rewrite bind_eq. cbn [get_srv srv world].
    destruct (bytes_of s bp) as [instr|] eqn:Hb.
    + rewrite bind_eq, run_poke.
      destruct (traced w (stoppedPid s)) eqn:Htr.
      * destruct (mem_read (w_mem w) pc (length instr)) eqn:Hm.
        -- match goal with |- context [poke_loop g bytes_of order ?st0] =>
             specialize (IH st0) end. cbn zeta in IH.
           destruct IH as (Hs & Hr & Hw & Hrand & Hh & poked & rest & writes & -> & HF & Hlog & Hok).
           cbn [srv world w_regs w_waits w_rand w_log w_mem with_mem logged] in *.
           repeat split; try assumption.
           exists ((pc, bp) :: poked), rest, ((pc, instr) :: writes).
           repeat split.
           ++ constructor; [split; [reflexivity|assumption]|assumption].
           ++ rewrite Hlog. cbn. rewrite <- app_assoc. reflexivity.
           ++ apply Hok; assumption.
           ++ apply Hok; assumption.
        -- cbn. repeat split; try done. exists [(pc, bp)], order, [(pc, instr)].
           repeat split; try done. constructor; [split; [reflexivity|assumption]|constructor].
      * cbn. repeat split; try done. exists [(pc, bp)], order, [(pc, instr)].
        repeat split; try done. constructor; [split; [reflexivity|assumption]|constructor].
    + cbn. repeat split; try done. exists [], ((pc, bp) :: order), []. cbn.
      rewrite app_nil_r. repeat split; try done.
Qed.

(** Whatever the seeds, [shuffle] gives every entry once. *)
Lemma shuffle_Permutation {A} n : ∀ seeds (l : list A),
  length l = n → shuffle n seeds l ≡ₚ l.
Proof.
  induction n as [|n IH]; intros seeds l Hl; cbn [shuffle].
  - destruct l; [reflexivity|discriminate].
  - destruct (l !! (hd 0%nat seeds mod length l)%nat) as [x|] eqn:Hx.
    + etransitivity; [|symmetry; apply (delete_Permutation l _ x Hx)].
      constructor. apply IH. rewrite length_delete by eauto. lia.
    + apply lookup_ge_None in Hx.
      pose proof (Nat.mod_upper_bound (hd 0%nat seeds) (length l)). lia.
Qed.

Lemma range_map_order {V} (m : gmap Z V) st :
  ∃ order, range_map m st =
             (Ok order, mkState (srv st)
                          (with_rand (drop (length (map_to_list m)) (w_rand (world st)))
                                     (world st))) ∧
           order ≡ₚ map_to_list m.
Proof.
  eexists. split; [reflexivity|]. apply shuffle_Permutation. reflexivity.
Qed.

Lemma elem_of_order {V} (m : gmap Z V) order k v :
  order ≡ₚ map_to_list m → (k, v) ∈ order ↔ m !! k = Some v.
Proof. intros Hp. rewrite Hp. apply elem_of_map_to_list. Qed.

Lemma Forall2_Forall_l {A B} (P : A → B → Prop) l k :
  Forall2 P l k → Forall (fun a => ∃ b, P a b) l.
Proof. induction 1; constructor; eauto. Qed.

Lemma Forall2_pokes_of (s : Server) (bytes_of : Server → breakpoint → option (list byte))
    (bytes : breakpoint → list byte) poked writes :
  (∀ bp out, bytes_of s bp = Some out → out = bytes bp) →
  Forall2 (fun e ad => ad.1 = e.1 ∧ bytes_of s e.2 = Some ad.2) poked writes →
  writes = pokes_of bytes poked.
Proof.
  intros Hb. induction 1 as [|[pc bp] [a d] poked writes [Ha Hd] _ IH]; [reflexivity|].
  cbn in *. subst a. rewrite (Hb _ _ Hd), IH. reflexivity.
Qed.

Lemma range_poke_outcome g bytes_of (bytes : Server → breakpoint → list byte) loop st :
  (∀ order, loop order = poke_loop g bytes_of order) →
  (∀ s bp out, bytes_of s bp = Some out → out = bytes s bp) →
  let r := (let* s := get_srv in
            let* order := range_map (breakpoints s) in
            loop order) st in
  srv r.2 = srv st ∧
  w_regs (world r.2) = w_regs (world st) ∧
  w_waits (world r.2) = w_waits (world st) ∧
  r.1 ≠ Abort Hang ∧
  ∃ poked rest,
    poked ++ rest ≡ₚ map_to_list (breakpoints (srv st)) ∧
    Forall (fun e => bytes_of (srv st) e.2 = Some (bytes (srv st) e.2)) poked ∧
    w_log (world r.2) = w_log (world st) ++
      poke_calls (stoppedPid (srv st)) (pokes_of (bytes (srv st)) poked) ∧
    (r.1 = Ok tt → rest = [] ∧
       w_mem (world r.2) = apply_writes (w_mem (world st))
                             (pokes_of (bytes (srv st)) poked)).
Proof.
  intros Hloop Hbytes. destruct st as [s w]. cbn zeta.
  rewrite bind_eq. cbn [get_srv srv]. rewrite bind_eq.
  destruct (range_map_order (breakpoints s) (mkState s w)) as (order & -> & Hp).
  rewrite Hloop.
  pose proof (poke_loop_outcome g bytes_of order
                (mkState s (with_rand (drop (length (map_to_list (breakpoints s))) (w_rand w)) w)))
    as Ho.
  cbn zeta in Ho.
  destruct Ho as (Hs & Hr & Hw & _ & Hh & poked & rest & writes & -> & HF & Hlog & Hok).
  cbn [srv world w_regs w_waits w_log w_mem with_rand] in *.
  repeat split; try assumption.
  assert (Hwr : writes = pokes_of (bytes s) poked).
  { apply (Forall2_pokes_of s bytes_of); [|exact HF]. intros bp out Hout.
    apply Hbytes, Hout. }
  subst writes. exists poked, rest. repeat split; try tauto.
  apply Forall2_Forall_l in HF. eapply Forall_impl; [exact HF|].
  intros e (ad & _ & Hsl). etransitivity; [exact Hsl|]. f_equal.
  apply Hbytes, Hsl.
Qed.

Lemma setBreakpoints_outcome st :
  let r := setBreakpoints st in
  srv r.2 = srv st ∧
  w_regs (world r.2) = w_regs (world st) ∧
  w_waits (world r.2) = w_waits (world st) ∧
  r.1 ≠ Abort Hang ∧
  ∃ poked rest,
    poked ++ rest ≡ₚ map_to_list (breakpoints (srv st)) ∧
    Forall (fun e => slice_to (BreakpointInstr (arch (srv st))) (BreakpointSize (arch (srv st)))
                     = Some (trap_bytes (srv st))) poked ∧
    w_log (world r.2) = w_log (world st) ++
      poke_calls (stoppedPid (srv st)) (pokes_of (fun _ => trap_bytes (srv st)) poked) ∧
    (r.1 = Ok tt → rest = [] ∧
       w_mem (world r.2) = apply_writes (w_mem (world st))
                             (pokes_of (fun _ => trap_bytes (srv st)) poked)).
Proof.
  unfold setBreakpoints.
  apply (range_poke_outcome _ _ (fun s _ => trap_bytes s) _ _ setBreakpoints_loop_poke_loop).
  intros s bp out Hout. apply slice_to_Some in Hout. unfold trap_bytes, patch_width. tauto.
Qed.

Lemma liftBreakpoints_outcome st :
  let r := liftBreakpoints st in
  srv r.2 = srv st ∧
  w_regs (world r.2) = w_regs (world st) ∧
  w_waits (world r.2) = w_waits (world st) ∧
  r.1 ≠ Abort Hang ∧
  ∃ poked rest,
    poked ++ rest ≡ₚ map_to_list (breakpoints (srv st)) ∧
    Forall (fun e => slice_to (origInstr e.2) (BreakpointSize (arch (srv st)))
                     = Some (saved_bytes (srv st) e.2)) poked ∧
    w_log (world r.2) = w_log (world st) ++
      poke_calls (stoppedPid (srv st)) (pokes_of (saved_bytes (srv st)) poked) ∧
    (r.1 = Ok tt → rest = [] ∧
       w_mem (world r.2) = apply_writes (w_mem (world st))
                             (pokes_of (saved_bytes (srv st)) poked)).
Proof.
  unfold liftBreakpoints.
  apply (range_poke_outcome _ _ saved_bytes _ _ liftBreakpoints_loop_poke_loop).
  intros s bp out Hout. apply slice_to_Some in Hout. unfold saved_bytes, patch_width. tauto.
Qed.

Lemma elem_of_pokes_of bytes poked pc bp :
  (pc, bp) ∈ poked → (pc, bytes bp) ∈ pokes_of bytes poked.
Proof.
  intros Hin. unfold pokes_of. apply list_elem_of_fmap. exists (pc, bp).
  split; [reflexivity|assumption].
Qed.

Lemma elem_of_pokes_of_inv bytes poked ad :
  ad ∈ pokes_of bytes poked → ∃ pc bp, (pc, bp) ∈ poked ∧ ad = (pc, bytes bp).
Proof.
  unfold pokes_of. intros ([pc bp] & -> & Hin)%list_elem_of_fmap. eauto.
Qed.

(** A lift that returns without error leaves (I1), when the saved bytes of
    the entries agree with one memory, whatever it is. *)
Lemma liftBreakpoints_at_rest st m0 :
  (liftBreakpoints st).1 = Ok tt →
  (∀ pc bp, breakpoints (srv st) !! pc = Some bp →
     mem_read m0 pc (patch_width (srv st)) = Some (saved_bytes (srv st) bp)) →
  at_rest (liftBreakpoints st).2.
Proof.
  intros Hok Hm0.
  destruct (liftBreakpoints_outcome st) as (Hs & _ & _ & _ & poked & rest & Hp & _ & _ & Hmem).
  destruct (Hmem Hok) as [-> Hm]. rewrite app_nil_r in Hp.
  intros pc bp Hb. rewrite Hs in *. rewrite Hm.
  assert (Hin : (pc, bp) ∈ poked) by (by apply (elem_of_order _ _ _ _ Hp)).
  pose proof (mem_read_length _ _ _ _ (Hm0 pc bp Hb)) as Hlen.
  rewrite <- Hlen at 1.
  apply (apply_writes_read_back m0 _ _ (pc, saved_bytes (srv st) bp)).
  - intros ad (pc' & bp' & Hin' & ->)%elem_of_pokes_of_inv. cbn.
    apply (elem_of_order _ _ _ _ Hp) in Hin'.
    rewrite (mem_read_length _ _ _ _ (Hm0 pc' bp' Hin')). apply Hm0, Hin'.
  - by apply elem_of_pokes_of.
Qed.

(** An install that returns without error leaves (I2), when no two entries
    patch a common byte. *)
Lemma setBreakpoints_patched st :
  (setBreakpoints st).1 = Ok tt →
  separate (srv st) →
  patched (setBreakpoints st).2.
Proof.
  intros Hok Hsep.
  destruct (setBreakpoints_outcome st) as (Hs & _ & _ & _ & poked & rest & Hp & HF & _ & Hmem).
  destruct (Hmem Hok) as [-> Hm]. rewrite app_nil_r in Hp.
  intros pc bp Hb. rewrite Hs in *. rewrite Hm.
  assert (Hin : (pc, bp) ∈ poked) by (by apply (elem_of_order _ _ _ _ Hp)).
  assert (Hlen : Z.of_nat (length (trap_bytes (srv st))) = BreakpointSize (arch (srv st))).
  { rewrite Forall_forall in HF. specialize (HF _ Hin). apply slice_to_Some in HF. tauto. }
  assert (Hn : length (trap_bytes (srv st)) = patch_width (srv st)) by (unfold patch_width; lia).
  rewrite <- Hn.
  apply (apply_writes_separate _ _ (pc, trap_bytes (srv st))).
  - unfold pokes_of. rewrite <- list_fmap_compose.
    replace (fmap (fst ∘ _) poked) with (poked.*1) by (apply list_fmap_ext; by intros ? []).
    rewrite Hp. apply NoDup_fst_map_to_list.
  - intros ad1 ad2 (pc1 & bp1 & Hin1 & ->)%elem_of_pokes_of_inv
           (pc2 & bp2 & Hin2 & ->)%elem_of_pokes_of_inv Hne x [Hc1 Hc2].
    unfold covers in *. cbn in *.
    apply (elem_of_order _ _ _ _ Hp) in Hin1, Hin2.
    pose proof (Hsep pc1 pc2 ltac:(eauto) ltac:(eauto) Hne). lia.
  - by apply (elem_of_pokes_of (fun _ => trap_bytes (srv st)) _ pc bp).
Qed.

(** C3, as the code has it.  install pokes, for every entry of the table
    and in the order the runtime chooses, the first [BreakpointSize] bytes of
    the breakpoint instruction at the entry's pc, and lift the first
    [BreakpointSize] bytes of the saved instruction: every poke is exactly
    [BreakpointSize] bytes wide.  A run stopped by an error has poked the
    entries it reached; a run that returns without error has poked all. *)
Theorem patch_width_is_BreakpointSize (st : State) :
  (∃ poked rest,
     poked ++ rest ≡ₚ map_to_list (breakpoints (srv st)) ∧
     w_log (world (setBreakpoints st).2) =
       w_log (world st) ++
       map (fun e => SysPoke (stoppedPid (srv st)) e.1 (trap_bytes (srv st))) poked ∧
     Forall (fun e => Z.of_nat (length (trap_bytes (srv st)))
                      = BreakpointSize (arch (srv st))) poked ∧
     ((setBreakpoints st).1 = Ok tt → rest = [])) ∧
  (∃ poked rest,
     poked ++ rest ≡ₚ map_to_list (breakpoints (srv st)) ∧
     w_log (world (liftBreakpoints st).2) =
       w_log (world st) ++
       map (fun e => SysPoke (stoppedPid (srv st)) e.1 (saved_bytes (srv st) e.2)) poked ∧
     Forall (fun e => Z.of_nat (length (saved_bytes (srv st) e.2))
                      = BreakpointSize (arch (srv st))) poked ∧
     ((liftBreakpoints st).1 = Ok tt → rest = [])).
Proof.
  split.
  - destruct (setBreakpoints_outcome st) as (_ & _ & _ & _ & poked & rest & Hp & HF & Hlog & Hok).
    exists poked, rest. split; [assumption|]. split; [|split].
    + rewrite Hlog. unfold poke_calls, pokes_of. rewrite map_map. reflexivity.
    + eapply Forall_impl; [exact HF|]. intros e He. apply slice_to_Some in He. tauto.
    + intros Hr. apply Hok, Hr.
  - destruct (liftBreakpoints_outcome st) as (_ & _ & _ & _ & poked & rest & Hp & HF & Hlog & Hok).
    exists poked, rest. split; [assumption|]. split; [|split].
    + rewrite Hlog. unfold poke_calls, pokes_of. rewrite map_map. reflexivity.
    + eapply Forall_impl; [exact HF|]. intros e He. apply slice_to_Some in He. tauto.
    + intros Hr. apply Hok, Hr.
Qed.

(** ** The file table *)

Lemma find_slot_spec slots : ∀ k,
  let i := find_slot slots k in
  (k ≤ i)%nat ∧
  (∀ j, (j < i - k)%nat → ∃ g, slots !! j = Some (Some g)) ∧
  (slots !! (i - k)%nat = Some None ∨ (i - k)%nat = length slots).
Proof.
  induction slots as [|[g|] slots IH]; intros k; cbn [find_slot]; cbn zeta.
  - split; [lia|]. split; [intros; lia|]. right. cbn. lia.
  - destruct (IH (Datatypes.S k)) as (Hle & Hocc & Hend). cbn zeta in *.
    split; [lia|]. split.
    + intros [|j] Hj; [eauto|]. cbn. apply Hocc. lia.
    + replace (find_slot slots (Datatypes.S k) - k)%nat
        with (Datatypes.S (find_slot slots (Datatypes.S k) - Datatypes.S k)) by lia.
      cbn. destruct Hend as [Hend|Hend]; [left; assumption|right; lia].
  - split; [lia|]. split; [intros; lia|]. left. rewrite Nat.sub_diag. reflexivity.
Qed.

(** C9.  Lowest free slot.  A successful Open stores the new record, with
    its own index in it, at the smallest index whose slot is empty, or at the
    end of the table when no slot is empty; the table grows, by one, only in
    that second case, and no other slot changes. *)
Theorem Open_lowest_free_slot (Name Mode : string) (st : State) :
  (Open Name Mode st).1 = Ok tt →
  let before := files (srv st) in
  let after := files (srv (Open Name Mode st).2) in
  ∃ i fl,
    after !! i = Some (Some fl) ∧ index fl = i ∧ mode fl = Mode ∧
    (∀ j, (j < i)%nat → ∃ g, before !! j = Some (Some g)) ∧
    ((before !! i = Some None ∧ length after = length before) ∨
     (i = length before ∧ length after = Datatypes.S (length before) ∧
      ∀ j, before !! j ≠ Some None)) ∧
    (∀ j, j ≠ i → after !! j = before !! j).
Proof.
  destruct st as [s w]. unfold Open. rewrite bind_eq.
  set (flagc := if String.eqb Mode "r" then ret O_RDONLY
                else if String.eqb Mode "w" then ret O_WRONLY
                else if String.eqb Mode "rw" then ret O_RDWR
                else throw (BadMode Mode)).
  destruct (flagc (mkState s w)) as [[flag|x] st1] eqn:Hflag; [|discriminate].
  assert (st1 = mkState s w) as ->.
  { subst flagc. revert Hflag. unfold ret, throw.
    repeat (destruct (String.eqb Mode _)); congruence. }
  rewrite bind_eq. unfold OpenFile, lift_k, k_openfile. cbn [world srv].
  destruct (w_files _ Name flag) as [e|h]; [discriminate|].
  rewrite bind_eq. cbn [get_srv srv].
  pose proof (find_slot_spec (files s) 0) as (_ & Hocc & Hend). cbn zeta in *.
  rewrite Nat.sub_0_r in *.
  set (i := find_slot (files s) 0) in *.
  intros _. exists i, (mkFile Mode i h). case_decide as Hi.
  - cbn [modify_srv srv snd set_files files].
    split; [|split; [reflexivity|split; [reflexivity|split; [|split]]]].
    + rewrite lookup_app_r by lia. rewrite Hi, Nat.sub_diag. reflexivity.
    + intros j Hj. apply Hocc. assumption.
    + right. split; [assumption|]. split; [rewrite length_app; cbn; lia|].
      intros j Hj. destruct (decide (j < i)%nat) as [Hlt|Hge].
      * destruct (Hocc j Hlt) as [g Hg]. congruence.
      * apply lookup_lt_Some in Hj. lia.
    + intros j Hj. destruct (decide (j < length (files s))%nat) as [Hlt|Hge].
      * rewrite lookup_app_l by assumption. reflexivity.
      * rewrite !lookup_ge_None_2; [reflexivity|lia|rewrite length_app; cbn; lia].
  - destruct Hend as [Hend|Hend]; [|contradiction].
    pose proof (lookup_lt_Some _ _ _ Hend) as Hlt.
    cbn [modify_srv srv snd set_files files].
    split; [|split; [reflexivity|split; [reflexivity|split; [|split]]]].
    + apply list_lookup_insert_eq. assumption.
    + intros j Hj. apply Hocc. assumption.
    + left. split; [assumption|]. apply length_insert.
    + intros j Hj. apply list_lookup_insert_ne. congruence.
Qed.

(** ** Breakpoint *)

Lemma has_breakpoint_true s pc : has_breakpoint s pc = true ↔ is_Some (breakpoints s !! pc).
Proof.
  unfold has_breakpoint. destruct (breakpoints s !! pc); split; intros Hx;
    try done; try (by eexists); by destruct Hx.
Qed.

Lemma has_breakpoint_false s pc : has_breakpoint s pc = false ↔ breakpoints s !! pc = None.
Proof. unfold has_breakpoint. destruct (breakpoints s !! pc); split; intros Hx; done. Qed.

(** What the loop of Breakpoint leaves: only the table is written; what was
    in the table stays; an entry that was not there was peeked, from the
    memory the debuggee has, at a pc one of the addresses evaluates to. *)
Lemma Breakpoint_loop_outcome addrs : ∀ bp0 st,
  let r := Breakpoint_loop addrs bp0 st in
  srv r.2 = set_breakpoints (breakpoints (srv r.2)) (srv st) ∧
  w_mem (world r.2) = w_mem (world st) ∧
  w_regs (world r.2) = w_regs (world st) ∧
  w_waits (world r.2) = w_waits (world st) ∧
  r.1 ≠ Abort Hang ∧
  (∀ pc bp, breakpoints (srv st) !! pc = Some bp → breakpoints (srv r.2) !! pc = Some bp) ∧
  (∀ pc bp, breakpoints (srv r.2) !! pc = Some bp → breakpoints (srv st) !! pc = None →
     mem_read (w_mem (world st)) pc (patch_width (srv st)) = Some (saved_bytes (srv st) bp) ∧
     ∃ a, a ∈ addrs ∧ evalAddress (srv st) a = inr pc).
Proof.
  induction addrs as [|a addrs IH]; intros bp0 [s w]; cbn zeta.
  - cbn. split_and!; try done; [by destruct s|]. intros pc bp Hb Hn. congruence.
  - cbn [Breakpoint_loop]. rewrite bind_eq. cbn [get_srv srv world].
    destruct (evalAddress s a) as [err|pc] eqn:Ha.
    { cbn. split_and!; try done; [by destruct s|]. intros ? ? Hb Hn. congruence. }
    destruct (has_breakpoint s pc) eqn:Hhas.
    { cbn. split_and!; try done; [by destruct s|]. intros ? ? Hb Hn. congruence. }
    destruct (slice_to (origInstr bp0) (BreakpointSize (arch s))) as [out|] eqn:Hsl.
    2:{ cbn. split_and!; try done; [by destruct s|]. intros ? ? Hb Hn. congruence. }
    rewrite bind_eq, run_peek.
    destruct (traced w (stoppedPid s)).
    2:{ cbn. split_and!; try done; [by destruct s|]. intros ? ? Hb Hn. congruence. }
    destruct (mem_read (w_mem w) pc (length out)) as [peeked|] eqn:Hpk.
    2:{ cbn. split_and!; try done; [by destruct s|]. intros ? ? Hb Hn. congruence. }
    rewrite bind_eq. cbn [modify_srv srv world].
    match goal with |- context [Breakpoint_loop addrs ?b ?st0] =>
      specialize (IH b st0); set (bp1 := b) in * end.
    cbn zeta in IH. destruct IH as (Hs & Hm & Hr & Hw & Hh & Hold & Hnew).
    cbn [srv world w_mem w_regs w_waits logged] in *.
    apply has_breakpoint_false in Hhas.
    apply slice_to_Some in Hsl as (Hout & Hlen & Hrange).
    assert (Hn : length out = patch_width s) by (unfold patch_width; lia).
    split_and!; try assumption.
    + intros pc' bp' Hb. apply Hold. cbn. rewrite lookup_insert_ne; [assumption|].
      intros ->. congruence.
    + intros pc' bp' Hb' Hnone. destruct (decide (pc' = pc)) as [->|Hne].
      * assert (Hb1 : bp' = bp1).
        { assert (Hx : breakpoints (set_breakpoints (<[pc:=bp1]> (breakpoints s)) s) !! pc
                       = Some bp1) by (cbn; apply lookup_insert_eq).
          apply Hold in Hx. congruence. }
        subst bp'. split.
        -- unfold saved_bytes, bp1. cbn [origInstr].
           rewrite <- Hn. rewrite take_app_length' by (apply mem_read_length in Hpk; lia).
           assumption.
        -- exists a. split; [apply list_elem_of_here|assumption].
      * destruct (Hnew pc' bp') as (Hrd & a' & Ha' & He); [assumption| |].
        { cbn. rewrite lookup_insert_ne by congruence. assumption. }
        split; [exact Hrd|].
        exists a'. split; [by apply list_elem_of_further|exact He].
Qed.

(** An address that evaluates to a pc of the table stops the loop. *)
Lemma Breakpoint_loop_duplicate addrs : ∀ bp0 st a pc,
  a ∈ addrs → evalAddress (srv st) a = inr pc →
  is_Some (breakpoints (srv st) !! pc) →
  ∃ x, (Breakpoint_loop addrs bp0 st).1 = Abort x.
Proof.
  induction addrs as [|a0 addrs IH]; intros bp0 [s w] a pc Hin Ha Hpc.
  - by apply elem_of_nil in Hin.
  - cbn [Breakpoint_loop]. rewrite bind_eq. cbn [get_srv srv world] in *.
    destruct (evalAddress s a0) as [err|pc0] eqn:Ha0; [by eexists|].
    destruct (has_breakpoint s pc0) eqn:Hhas; [by eexists|].
    destruct (slice_to (origInstr bp0) (BreakpointSize (arch s))) as [out|]; [|by eexists].
    rewrite bind_eq, run_peek.
    destruct (traced w (stoppedPid s)); [|by eexists].
    destruct (mem_read (w_mem w) pc0 (length out)) as [peeked|]; [|by eexists].
    rewrite bind_eq. cbn [modify_srv srv world].
    apply elem_of_cons in Hin as [->|Hin].
    + apply has_breakpoint_false in Hhas. destruct Hpc as [bp Hbp]. congruence.
    + apply (IH _ _ a pc Hin); [exact Ha|]. cbn.
      destruct Hpc as [bp Hbp]. destruct (decide (pc0 = pc)) as [->|Hne].
      * rewrite lookup_insert_eq. by eexists.
      * rewrite lookup_insert_ne by assumption. by eexists.
Qed.

(** Once the loop of Breakpoint is past some addresses, their entries are in
    the table whatever happens at the addresses that follow. *)
Lemma Breakpoint_loop_inserted pre : ∀ rest bp0 st a pc,
  (Breakpoint_loop pre bp0 st).1 = Ok tt →
  a ∈ pre → evalAddress (srv st) a = inr pc →
  is_Some (breakpoints (srv (Breakpoint_loop (pre ++ rest) bp0 st).2) !! pc).
Proof.
  induction pre as [|a0 pre IH]; intros rest bp0 [s w] a pc Hok Hin Ha.
  - by apply elem_of_nil in Hin.
  - cbn [app Breakpoint_loop] in *. rewrite bind_eq in *. cbn [get_srv srv world] in *.
    destruct (evalAddress s a0) as [err|pc0] eqn:Ha0; [discriminate|].
    destruct (has_breakpoint s pc0); [discriminate|].
    destruct (slice_to (origInstr bp0) (BreakpointSize (arch s))) as [out|]; [|discriminate].
    rewrite bind_eq, run_peek in *.
    destruct (traced w (stoppedPid s)); [|discriminate].
    destruct (mem_read (w_mem w) pc0 (length out)) as [peeked|]; [|discriminate].
    rewrite bind_eq in *. cbn [modify_srv srv world] in *.
    apply elem_of_cons in Hin as [->|Hin].
    + assert (pc0 = pc) as -> by congruence.
      match goal with |- context [Breakpoint_loop (pre ++ rest) ?b ?st0] =>
        pose proof (Breakpoint_loop_outcome (pre ++ rest) b st0) as Ho end.
      cbn zeta in Ho. destruct Ho as (_ & _ & _ & _ & _ & Hold & _).
      eexists. apply Hold. cbn. apply lookup_insert_eq.
    + eapply IH; [exact Hok|exact Hin|exact Ha].
Qed.

(** The loop over a list of addresses is the loop over those in front and,
    when these were all set, the loop over the others from the state they
    left. *)
Lemma Breakpoint_loop_app pre : ∀ more bp0 st,
  match Breakpoint_loop pre bp0 st with
  | (Ok _, st1) =>
      ∃ bp1, Breakpoint_loop (pre ++ more) bp0 st = Breakpoint_loop more bp1 st1
  | (Abort x, st1) => Breakpoint_loop (pre ++ more) bp0 st = (Abort x, st1)
  end.
Proof.
  induction pre as [|a0 pre IH]; intros more bp0 [s w].
  - cbn. by exists bp0.
  - cbn [app Breakpoint_loop]. rewrite !bind_eq. cbn [get_srv srv world].
    destruct (evalAddress s a0) as [err|pc0]; [reflexivity|].
    destruct (has_breakpoint s pc0); [reflexivity|].
    destruct (slice_to (origInstr bp0) (BreakpointSize (arch s))) as [out|]; [|reflexivity].
    rewrite !bind_eq, run_peek.
    destruct (traced w (stoppedPid s)); [|reflexivity].
    destruct (mem_read (w_mem w) pc0 (length out)) as [peeked|]; [|reflexivity].
    rewrite !bind_eq. cbn [modify_srv srv world]. apply IH.
Qed.

(** When the breakpoint is no wider than the array that saves the
    instruction, the slice of line 351 is in bounds at every turn. *)
Lemma Breakpoint_loop_no_panic addrs : ∀ bp0 st,
  0 ≤ BreakpointSize (arch (srv st)) ≤ Z.of_nat (length (origInstr bp0)) →
  (Breakpoint_loop addrs bp0 st).1 ≠ Abort Panic.
Proof.
  induction addrs as [|a0 addrs IH]; intros bp0 [s w] Hsize; [discriminate|].
  cbn [Breakpoint_loop]. rewrite bind_eq. cbn [get_srv srv world] in *.
  destruct (evalAddress s a0) as [err|pc0]; [discriminate|].
  destruct (has_breakpoint s pc0); [discriminate|].
  destruct (slice_to (origInstr bp0) (BreakpointSize (arch s))) as [out|] eqn:Hsl.
  - apply slice_to_Some in Hsl as (_ & Hn & _).
    rewrite bind_eq, run_peek.
    destruct (traced w (stoppedPid s)); [|discriminate].
    destruct (mem_read (w_mem w) pc0 (length out)) as [peeked|] eqn:Hpk; [|discriminate].
    apply mem_read_length in Hpk.
    rewrite bind_eq. cbn [modify_srv srv world]. apply IH.
    cbn [srv arch set_breakpoints origInstr]. rewrite length_app, length_drop. lia.
  - exfalso. unfold slice_to in Hsl.
    destruct (0 <=? BreakpointSize (arch s)) eqn:Hlo; [|apply Z.leb_gt in Hlo; lia].
    destruct (BreakpointSize (arch s) <=? Z.of_nat (length (origInstr bp0))) eqn:Hhi;
      [discriminate|apply Z.leb_gt in Hhi; lia].
Qed.

(** C4.  Duplicate rejection, as the code has it.  The table has an entry
    at [pc], and the expression of a Breakpoint request evaluates to the
    addresses [pre], then [a], which resolves to [pc], then [rest].  The
    request never succeeds and never overwrites the entry.  The loop takes
    the addresses in order and returns at the first that fails: when every
    address before [a] was set, at the first turn or at a later one, the
    request returns DuplicateBreakpoint for [pc] and leaves the state the
    addresses before [a] have left, their entries in the table; when [a] is
    the first address, as it is when the expression resolves to [pc] alone,
    nothing at all has changed; when an address before [a] fails, the request
    ends there, with the error of that address, and [a] is not reached.  With
    a breakpoint no wider than the array the request ends in an error in
    every case, never in a panic. *)
Theorem Breakpoint_duplicate_rejected (Address : string) (st : State)
    (pc : Z) (bp : breakpoint) (pre rest : list string) (a : string) :
  breakpoints (srv st) !! pc = Some bp →
  eval (srv st) Address = inr (pre ++ a :: rest) →
  evalAddress (srv st) a = inr pc →
  let before := Breakpoint_loop pre (zero_breakpoint (arch (srv st))) st in
  (∃ x, (Breakpoint Address st).1 = Abort x) ∧
  breakpoints (srv (Breakpoint Address st).2) !! pc = Some bp ∧
  (before.1 = Ok tt →
     Breakpoint Address st = (Abort (Err (DuplicateBreakpoint pc)), before.2) ∧
     ∀ a' pc', a' ∈ pre → evalAddress (srv st) a' = inr pc' →
               is_Some (breakpoints (srv (Breakpoint Address st).2) !! pc')) ∧
  (pre = [] → Breakpoint Address st = (Abort (Err (DuplicateBreakpoint pc)), st)) ∧
  (before.1 ≠ Ok tt → Breakpoint Address st = before) ∧
  (0 ≤ BreakpointSize (arch (srv st)) ≤ MaxBreakpointSize (arch (srv st)) →
     ∃ e, (Breakpoint Address st).1 = Abort (Err e)).
Proof.
  intros Hbp Hev Ha before.
  assert (Hrun : Breakpoint Address st
                 = Breakpoint_loop (pre ++ a :: rest) (zero_breakpoint (arch (srv st))) st).
  { unfold Breakpoint. rewrite bind_eq. cbn [get_srv]. by rewrite Hev. }
  assert (Hin : a ∈ pre ++ a :: rest) by (apply elem_of_app; right; apply list_elem_of_here).
  assert (Hfails : ∃ x, (Breakpoint Address st).1 = Abort x).
  { rewrite Hrun. eapply Breakpoint_loop_duplicate; eauto. }
  assert (Hreached : before.1 = Ok tt →
            Breakpoint Address st = (Abort (Err (DuplicateBreakpoint pc)), before.2)).
  { intros Hok. rewrite Hrun.
    pose proof (Breakpoint_loop_app pre (a :: rest) (zero_breakpoint (arch (srv st))) st)
      as Happ.
    pose proof (Breakpoint_loop_outcome pre (zero_breakpoint (arch (srv st))) st) as Ho.
    cbn zeta in Ho. destruct Ho as (Hsrv & _ & _ & _ & _ & Hold & _).
    fold before in Happ, Hsrv, Hold, Hok.
    destruct before as [[[]|x] [s1 w1]]; [|discriminate]. destruct Happ as [bp1 ->].
    cbn [fst snd srv] in *.
    cbn [Breakpoint_loop]. rewrite bind_eq. cbn [get_srv srv].
    assert (Ha1 : evalAddress s1 a = inr pc) by (by rewrite Hsrv).
    assert (Hhas : has_breakpoint s1 pc = true)
      by (apply has_breakpoint_true; eexists; apply Hold, Hbp).
    by rewrite Ha1, Hhas. }
  split; [exact Hfails|]. split; [|split; [|split; [|split]]].
  - rewrite Hrun.
    pose proof (Breakpoint_loop_outcome (pre ++ a :: rest) (zero_breakpoint (arch (srv st))) st)
      as Ho.
    cbn zeta in Ho. destruct Ho as (_ & _ & _ & _ & _ & Hold & _). apply Hold, Hbp.
  - intros Hok. split; [by apply Hreached|].
    intros a' pc' Hin' Ha'. rewrite Hrun. by eapply Breakpoint_loop_inserted.
  - intros ->. by apply (Hreached eq_refl).
  - intros Hno. rewrite Hrun.
    pose proof (Breakpoint_loop_app pre (a :: rest) (zero_breakpoint (arch (srv st))) st)
      as Happ.
    fold before in Happ. destruct before as [[[]|x] st1]; [by destruct Hno|exact Happ].
  - intros Hsize. destruct Hfails as [x Hx]. destruct x as [e| |]; [by exists e| |].
    + exfalso. revert Hx. rewrite Hrun. apply Breakpoint_loop_no_panic.
      unfold MaxBreakpointSize in Hsize. cbn [zero_breakpoint origInstr].
      rewrite length_replicate. exact Hsize.
    + exfalso. revert Hx. rewrite Hrun.
      apply (Breakpoint_loop_outcome (pre ++ a :: rest) (zero_breakpoint (arch (srv st))) st).
Qed.

(** ** The frame of Resume *)

Ltac frame_step :=
  match goal with
  | |- keeps _ (bind _ _) => apply keeps_bind; [apply _| |intros ?]
  | |- keeps _ (wrap _ _) => apply keeps_wrap
  | |- keeps _ (ret _) => apply keeps_ret, _
  | |- keeps _ (throw _) => apply keeps_throw, _
  | |- keeps _ panic => apply keeps_panic, _
  | |- keeps _ get_srv => apply keeps_get_srv, _
  | |- keeps _ (ptraceCont _ _) => apply keeps_frame_cont
  | |- keeps _ (ptraceSingleStep _) => apply keeps_frame_singlestep
  | |- keeps _ (ptraceSetOptions _ _) => apply keeps_frame_setoptions
  | |- keeps _ (ptraceGetRegs _) => apply keeps_frame_getregs
  | |- keeps _ (ptraceSetRegs _ _) => apply keeps_frame_setregs
  | |- keeps _ (ptracePoke _ _ _) => apply keeps_frame_poke
  | |- keeps _ (wait _) => apply keeps_frame_wait
  | |- keeps _ (range_map _) => apply keeps_frame_range_map
  | |- keeps _ (modify_srv _) => apply keeps_frame_modify_srv; intros ?; by repeat split
  | |- keeps _ (if ?b then _ else _) => destruct b
  | |- keeps _ (match ?v with _ => _ end) => destruct v
  end.

Lemma keeps_frame_waitForTrap_loop turns pid : keeps resume_frame (waitForTrap_loop turns pid).
Proof.
  induction turns as [|turns IH]; cbn [waitForTrap_loop].
  - intros st. reflexivity.
  - repeat first [exact IH | frame_step].
Qed.

Lemma keeps_frame_waitForTrap pid : keeps resume_frame (waitForTrap pid).
Proof. intros st. unfold waitForTrap. apply keeps_frame_waitForTrap_loop. Qed.

Lemma keeps_frame_poke_loop g bytes_of order : keeps resume_frame (poke_loop g bytes_of order).
Proof.
  induction order as [|[pc bp] order IH]; cbn [poke_loop]; repeat first [exact IH | frame_step].
Qed.

Lemma keeps_frame_setBreakpoints : keeps resume_frame setBreakpoints.
Proof.
  unfold setBreakpoints.
  apply keeps_bind; [apply _|apply keeps_get_srv, _|]. intros s.
  apply keeps_bind; [apply _|apply keeps_frame_range_map|]. intros order.
  rewrite setBreakpoints_loop_poke_loop. apply keeps_frame_poke_loop.
Qed.

Lemma keeps_frame_liftBreakpoints : keeps resume_frame liftBreakpoints.
Proof.
  unfold liftBreakpoints.
  apply keeps_bind; [apply _|apply keeps_get_srv, _|]. intros s.
  apply keeps_bind; [apply _|apply keeps_frame_range_map|]. intros order.
  rewrite liftBreakpoints_loop_poke_loop. apply keeps_frame_poke_loop.
Qed.

Lemma keeps_frame_Resume_prologue : keeps resume_frame Resume_prologue.
Proof.
  unfold Resume_prologue.
  repeat first [apply keeps_frame_waitForTrap | frame_step].
Qed.

Lemma keeps_frame_Resume_continue : keeps resume_frame Resume_continue.
Proof.
  unfold Resume_continue.
  repeat first [apply keeps_frame_setBreakpoints | frame_step].
Qed.

Lemma keeps_frame_Resume_stop : keeps resume_frame Resume_stop.
Proof.
  intros st. unfold Resume_stop.
  pose proof (keeps_frame_waitForTrap (-1) st) as Hw.
  destruct (waitForTrap (-1) st) as [[wpid|[e| |]] st1]; cbn [snd] in *; try exact Hw.
  etransitivity; [exact Hw|]. clear Hw. revert st1.
    change (keeps resume_frame
      (let* _ := modify_srv (set_stoppedPid wpid) in
       let* _ := liftBreakpoints in
       let* s := get_srv in
       let* regs := wrap GetRegsFailed (ptraceGetRegs (stoppedPid s)) in
       let* _ := modify_srv (set_stoppedRegs regs) in
       let* s := get_srv in
       let regs := set_Rip (uint64 (Rip (stoppedRegs s) - uint64 (BreakpointSize (arch s))))
                           (stoppedRegs s) in
       let* _ := modify_srv (set_stoppedRegs regs) in
       let* s := get_srv in
       let* _ := wrap SetRegsFailed (ptraceSetRegs (stoppedPid s) (stoppedRegs s)) in
       ret (mkStatus (Rip (stoppedRegs s)) (Rsp (stoppedRegs s))))).
    repeat first [apply keeps_frame_liftBreakpoints | frame_step | progress cbn zeta].
Qed.

Lemma keeps_frame_Resume : keeps resume_frame Resume.
Proof.
  unfold Resume. apply keeps_bind; [apply _|apply keeps_frame_Resume_prologue|]. intros _.
  apply keeps_bind; [apply _|apply keeps_frame_Resume_continue|]. intros _.
  apply keeps_frame_Resume_stop.
Qed.

(** ** Resume *)

Lemma traced_true w pid : traced w pid = true ↔ is_Some (w_regs w !! pid).
Proof.
  unfold traced. destruct (w_regs w !! pid); split; intros Hx; try done; try (by eexists).
Qed.

(** A Resume_stop that returns a status: the stop that ended the wait, the
    lift that followed, the registers read and written back. *)
Lemma Resume_stop_Ok st status :
  (Resume_stop st).1 = Ok status →
  ∃ ev skipped st1,
    w_waits (world st) = map WaitEv skipped ++ WaitEv ev :: w_waits (world (Resume_stop st).2) ∧
    Forall (fun ev => is_trap (ev_status ev) = false) skipped ∧
    is_trap (ev_status ev) = true ∧
    status = mkStatus (Rip (rewound (srv st) (ev_regs ev))) (Rsp (ev_regs ev)) ∧
    srv (Resume_stop st).2 =
      set_stoppedRegs (rewound (srv st) (ev_regs ev)) (set_stoppedPid (ev_pid ev) (srv st)) ∧
    w_regs (world (Resume_stop st).2) !! ev_pid ev = Some (rewound (srv st) (ev_regs ev)) ∧
    srv st1 = set_stoppedPid (ev_pid ev) (srv st) ∧
    w_mem (world st1) = ev_mem ev ∧
    w_log (world st1) = w_log (world st) ++ passed_over (-1) skipped
                          ++ [SysWait (-1) (Some (ev_pid ev, ev_status ev))] ∧
    (liftBreakpoints st1).1 = Ok tt ∧
    w_mem (world (Resume_stop st).2) = w_mem (world (liftBreakpoints st1).2) ∧
    w_log (world (Resume_stop st).2) =
      w_log (world (liftBreakpoints st1).2)
        ++ [SysGetRegs (ev_pid ev);
            SysSetRegs (ev_pid ev) (rewound (srv st) (ev_regs ev))].
Proof.
  unfold Resume_stop.
  pose proof (waitForTrap_spec (-1) st) as [Hsrv (skipped & Hsk & Hout)].
  destruct (waitForTrap (-1) st) as [[wpid|[e| |]] [s1 w1]] eqn:Hwt; try discriminate.
  cbn [fst snd srv world] in *. destruct Hout as (ev & Hw & -> & Hsig & Hcause & Hlog & Hregs & Hmem).
  subst s1. rewrite bind_eq. cbn [modify_srv srv world].
  set (st1 := mkState (set_stoppedPid (ev_pid ev) (srv st)) w1).
  pose proof (liftBreakpoints_outcome st1) as (Hs2 & Hr2 & Hw2 & _ & _).
  rewrite bind_eq.
  destruct (liftBreakpoints st1) as [[[]|x] [s2 w2]] eqn:Hlift; [|discriminate].
  cbn [fst snd srv world st1] in *. subst s2.
  rewrite bind_eq. cbn [get_srv srv stoppedPid set_stoppedPid].
  rewrite bind_eq, run_getregs, Hr2, Hregs.
  rewrite bind_eq. cbn [modify_srv srv world].
  rewrite bind_eq. cbn [get_srv srv]. rewrite bind_eq. cbn [modify_srv srv world].
  rewrite bind_eq. cbn [get_srv srv stoppedPid set_stoppedPid set_stoppedRegs stoppedRegs arch].
  rewrite bind_eq, run_setregs.
  assert (Htr : traced (logged (SysGetRegs (ev_pid ev)) w2) (ev_pid ev) = true).
  { apply traced_true. cbn. rewrite Hr2, Hregs. by eexists. }
  rewrite Htr. cbn [ret fst snd srv world]. intros [= <-].
  exists ev, skipped, st1. cbn [st1 srv world w_waits w_regs w_mem w_log with_regs logged].
  split_and!; try done.
  - rewrite Hw2. assumption.
  - apply is_trap_spec. auto.
  - apply lookup_insert_eq.
  - exact (f_equal fst Hlift).
  - by rewrite Hlift.
  - rewrite Hlift. cbn. by rewrite <- app_assoc.
Qed.

(** ** Eval and Frames *)

Lemma keeps_untouched_Frames_fields s fp fields : ∀ location acc,
  keeps untouched (Frames_fields s fp fields location acc).
Proof.
  induction fields as [|fd fields IH]; intros location acc; cbn [Frames_fields].
  - apply keeps_ret, _.
  - repeat match goal with
           | |- keeps _ (if ?b then _ else _) => destruct b
           | |- keeps _ (match ?v with _ => _ end) => destruct v
           | |- keeps _ (bind _ _) => apply keeps_bind; [apply _| |intros ?]
           | |- keeps _ (ptracePeek _ _ _) => apply keeps_untouched_peek
           | |- keeps _ panic => apply keeps_panic, _
           | |- keeps _ (throw _) => apply keeps_throw, _
           | |- keeps _ (Frames_fields _ _ _ _ _) => apply IH
           end.
Qed.

Lemma keeps_untouched_Frames_entries s fp answers : ∀ acc,
  keeps untouched (Frames_entries s fp answers acc).
Proof.
  induction answers as [|[err| |entry] answers IH]; intros acc; cbn [Frames_entries].
  - apply keeps_panic, _.
  - apply keeps_throw, _.
  - apply keeps_panic, _.
  - repeat match goal with
           | |- keeps _ (if ?b then _ else _) => destruct b
           | |- keeps _ (bind _ _) => apply keeps_bind; [apply _| |intros ?]
           | |- keeps _ (ret _) => apply keeps_ret, _
           | |- keeps _ (throw _) => apply keeps_throw, _
           | |- keeps _ (Frames_fields _ _ _ _ _) => apply keeps_untouched_Frames_fields
           | |- keeps _ (Frames_entries _ _ _ _) => apply IH
           end.
Qed.

Lemma Eval_untouched Expr : keeps untouched (Eval Expr).
Proof.
  unfold Eval. apply keeps_bind; [apply _|apply keeps_get_srv, _|]. intros s.
  destruct (eval s Expr); [apply keeps_throw, _|apply keeps_ret, _].
Qed.

Lemma Frames_untouched Count : keeps untouched (Frames Count).
Proof.
  unfold Frames. destruct (negb (Count =? 1)); [apply keeps_throw, _|].
  apply keeps_bind; [apply _|apply keeps_get_srv, _|]. intros s.
  apply keeps_bind; [apply _|apply keeps_untouched_getregs|]. intros regs.
  destruct (entryForPC s (Rip regs)); [apply keeps_throw, _|].
  apply keeps_bind; [apply _|apply keeps_untouched_Frames_entries|]. intros frame.
  apply keeps_ret, _.
Qed.

(** C8.  Read-only queries.  Eval and Frames, whatever the request and
    however they end (a result, an error, a panic), leave the server as it
    was, and with it the breakpoint table, the file table, proc, procIsUp,
    stoppedPid and stoppedRegs, and leave the memory and the registers of the
    debuggee as they were. *)
Theorem Eval_Frames_read_only (Expr : string) (Count : Z) (st : State) :
  untouched st (Eval Expr st).2 ∧ untouched st (Frames Count st).2.
Proof. split; [apply Eval_untouched|apply Frames_untouched]. Qed.

(** How Resume is made of its three parts. *)
Lemma Resume_Ok st status :
  (Resume st).1 = Ok status →
  ∃ st1 st2,
    Resume_prologue st = (Ok tt, st1) ∧
    Resume_continue st1 = (Ok tt, st2) ∧
    Resume st = Resume_stop st2.
Proof.
  unfold Resume. rewrite bind_eq.
  destruct (Resume_prologue st) as [[[]|x] st1] eqn:Hp; [|discriminate].
  rewrite bind_eq. destruct (Resume_continue st1) as [[[]|x] st2] eqn:Hc; [|discriminate].
  intros _. exists st1, st2. split; [reflexivity|]. split; [exact Hc|].
  reflexivity.
Qed.

Lemma uint64_sub_exact rip size :
  0 ≤ size ≤ rip → rip < uint64_mod → uint64 (rip - uint64 size) = rip - size.
Proof.
  intros Hs Hr. unfold uint64, uint64_mod in *.
  rewrite (Z.mod_small size) by lia. apply Z.mod_small. lia.
Qed.

(** C2.  Program-counter rewind.  A Resume that returns a status has ended
    its last wait on a trap of some task, the last answer of [wait] it took;
    the status carries the stack pointer that task had at the stop and its
    program counter less BreakpointSize, in 64-bit arithmetic (the plain
    difference when the counter is at least the size); the registers so
    changed were written back to the task, the last call Resume issued, so
    that reading the registers of the stopped task afterwards gives the
    program counter of the status. *)
Theorem Resume_rewinds_pc (st : State) (status : Status) :
  (Resume st).1 = Ok status →
  ∃ ev used before after,
    w_waits (world st) = used ++ WaitEv ev :: w_waits (world (Resume st).2) ∧
    is_trap (ev_status ev) = true ∧
    w_log (world (Resume st).2) =
      before ++ SysWait (-1) (Some (ev_pid ev, ev_status ev)) :: after ∧
    Forall (fun c => ¬ is_wait c) after ∧
    stoppedPid (srv (Resume st).2) = ev_pid ev ∧
    PC status = uint64 (Rip (ev_regs ev) - uint64 (BreakpointSize (arch (srv st)))) ∧
    SP status = Rsp (ev_regs ev) ∧
    (0 ≤ BreakpointSize (arch (srv st)) ≤ Rip (ev_regs ev) →
     Rip (ev_regs ev) < uint64_mod →
     PC status = Rip (ev_regs ev) - BreakpointSize (arch (srv st))) ∧
    stoppedRegs (srv (Resume st).2) = mkRegs (PC status) (SP status) (OtherRegs (ev_regs ev)) ∧
    last (w_log (world (Resume st).2)) =
      Some (SysSetRegs (ev_pid ev) (stoppedRegs (srv (Resume st).2))) ∧
    (ptraceGetRegs (stoppedPid (srv (Resume st).2)) (Resume st).2).1 =
      Ok (mkRegs (PC status) (SP status) (OtherRegs (ev_regs ev))).
Proof.
  intros Hok. destruct (Resume_Ok st status Hok) as (st1 & st2 & Hp & Hc & Hr).
  rewrite Hr in *.
  pose proof (keeps_frame_Resume_prologue st) as (Ht1 & _ & u1 & Hu1).
  pose proof (keeps_frame_Resume_continue st1) as (Ht2 & _ & u2 & Hu2).
  rewrite Hp in Ht1, Hu1. rewrite Hc in Ht2, Hu2. cbn [snd] in *.
  assert (Harch : arch (srv st2) = arch (srv st)).
  { destruct Ht1 as (Ha1 & _), Ht2 as (Ha2 & _). congruence. }
  destruct (Resume_stop_Ok st2 status Hok)
    as (ev & skipped & st3 & Hw & Hsk & Htrap & -> & Hsrv & Hregs & Hs3 & Hm3 & Hl3
        & Hlift & Hmem & Hlog).
  destruct (liftBreakpoints_outcome st3) as (_ & _ & _ & _ & poked & rest & _ & _ & Hpk & _).
  unfold rewound in *. rewrite Harch in *.
  exists ev, (u1 ++ u2 ++ map WaitEv skipped), (w_log (world st2) ++ passed_over (-1) skipped),
    (poke_calls (stoppedPid (srv st3)) (pokes_of (saved_bytes (srv st3)) poked)
       ++ [SysGetRegs (ev_pid ev);
           SysSetRegs (ev_pid ev)
             (set_Rip (uint64 (Rip (ev_regs ev) - uint64 (BreakpointSize (arch (srv st)))))
                      (ev_regs ev))]).
  split_and!.
  - rewrite Hu1, Hu2, Hw. by rewrite <- !app_assoc.
  - exact Htrap.
  - rewrite Hlog, Hpk, Hl3. rewrite <- !app_assoc. reflexivity.
  - apply Forall_app. split.
    + unfold poke_calls. apply Forall_fmap, Forall_forall. intros ? _. cbn. tauto.
    + repeat constructor; cbn; tauto.
  - rewrite Hsrv. reflexivity.
  - reflexivity.
  - reflexivity.
  - intros Hs Hlt. cbn. by apply uint64_sub_exact.
  - rewrite Hsrv. reflexivity.
  - rewrite Hlog, Hsrv. rewrite last_app. reflexivity.
  - rewrite Hsrv. cbn [stoppedPid set_stoppedRegs set_stoppedPid].
    unfold ptraceGetRegs, lift_k, k_getregs. cbn [w_regs logged].
    rewrite Hregs. reflexivity.
Qed.

(** ** The invariants of the breakpoint table *)

Lemma at_rest_empty st : breakpoints (srv st) = ∅ → at_rest st.
Proof. intros He pc bp Hb. rewrite He in Hb. by rewrite lookup_empty in Hb. Qed.

(** Under (I1) a probe that peeks at the pc of an entry reads the bytes saved
    for it. *)
Lemma peek_at_rest st pc bp :
  at_rest st →
  breakpoints (srv st) !! pc = Some bp →
  traced (world st) (stoppedPid (srv st)) = true →
  (ptracePeek (stoppedPid (srv st)) pc (patch_width (srv st)) st).1
  = Ok (saved_bytes (srv st) bp).
Proof.
  intros Hrest Hb Htr. specialize (Hrest pc bp Hb).
  destruct st as [s w]. cbn [srv world] in *.
  rewrite <- wrap_id, run_peek, Htr, Hrest. reflexivity.
Qed.

Lemma at_rest_untouched st st' : untouched st st' → at_rest st → at_rest st'.
Proof.
  intros (Hs & Hm & _) Hrest pc bp. rewrite Hs, Hm. apply Hrest.
Qed.

Lemma Breakpoint_at_rest Address st : at_rest st → at_rest (Breakpoint Address st).2.
Proof.
  intros Hrest. unfold Breakpoint. rewrite bind_eq. cbn [get_srv].
  destruct (eval (srv st) Address) as [err|addrs]; [exact Hrest|].
  pose proof (Breakpoint_loop_outcome addrs (zero_breakpoint (arch (srv st))) st) as Ho.
  cbn zeta in Ho. destruct Ho as (Hs & Hm & _ & _ & _ & Hold & Hnew).
  intros pc bp Hb. rewrite Hm.
  assert (Hw : patch_width (srv (Breakpoint_loop addrs (zero_breakpoint (arch (srv st))) st).2)
               = patch_width (srv st)) by (rewrite Hs; reflexivity).
  assert (Hsv : saved_bytes (srv (Breakpoint_loop addrs (zero_breakpoint (arch (srv st))) st).2) bp
                = saved_bytes (srv st) bp) by (rewrite Hs; reflexivity).
  rewrite Hw, Hsv.
  destruct (breakpoints (srv st) !! pc) as [bp0|] eqn:Hb0.
  - pose proof (Hold pc bp0 Hb0) as Hb'. assert (bp0 = bp) as -> by congruence.
    apply Hrest, Hb0.
  - apply (Hnew pc bp Hb Hb0).
Qed.

Lemma Resume_at_rest st status :
  at_rest st → (Resume st).1 = Ok status → at_rest (Resume st).2.
Proof.
  intros Hrest Hok. destruct (Resume_Ok st status Hok) as (st1 & st2 & Hp & Hc & Hr).
  rewrite Hr in *.
  pose proof (keeps_frame_Resume_prologue st) as (Ht1 & _).
  pose proof (keeps_frame_Resume_continue st1) as (Ht2 & _).
  rewrite Hp in Ht1. rewrite Hc in Ht2. cbn [snd] in *.
  destruct Ht1 as (Ha1 & _ & _ & _ & _ & Hb1 & _), Ht2 as (Ha2 & _ & _ & _ & _ & Hb2 & _).
  destruct (Resume_stop_Ok st2 status Hok)
    as (ev & skipped & st3 & _ & _ & _ & _ & Hsrv & _ & Hs3 & _ & _ & Hlift & Hmem & _).
  assert (Hrest3 : at_rest (liftBreakpoints st3).2).
  { apply (liftBreakpoints_at_rest st3 (w_mem (world st)) Hlift).
    intros pc bp Hb. rewrite Hs3 in Hb. cbn in Hb. rewrite Hb2, Hb1 in Hb.
    unfold patch_width, saved_bytes, patch_width. rewrite Hs3. cbn [arch set_stoppedPid].
    rewrite Ha2, Ha1. apply Hrest, Hb. }
  destruct (liftBreakpoints_outcome st3) as (Hs4 & _).
  intros pc bp Hb. rewrite Hmem. rewrite Hsrv in Hb |- *. cbn in Hb.
  specialize (Hrest3 pc bp). rewrite Hs4, Hs3 in Hrest3. apply Hrest3. exact Hb.
Qed.

Lemma run_start name s w :
  startProcess name (mkState s w) =
  match w_spawns w with
  | [] => (Abort (Err (Errno EIO)), mkState s (logged (SysStart name) w))
  | inl e :: rest =>
      (Abort (Err (Errno e)), mkState s (with_spawns rest (logged (SysStart name) w)))
  | inr sp :: rest =>
      (Ok (sp_pid sp),
       mkState s (with_spawns rest (with_regs {[sp_pid sp := sp_regs sp]}
                    (with_mem (sp_mem sp) (logged (SysStart name) w)))))
  end.
Proof.
  unfold startProcess, lift_k, k_start. cbn [world srv w_spawns logged].
  destruct (w_spawns w) as [|[e|sp] rest]; reflexivity.
Qed.

Lemma Run_eq st :
  Run st =
  match startProcess (executable (srv st)) (after_kill st) with
  | (Ok p, st1) =>
      (Ok tt, mkState (set_stoppedPid p (set_proc (Some (mkProcess p)) (srv st1))) (world st1))
  | (Abort x, st1) => (Abort x, st1)
  end.
Proof.
  destruct st as [s w]. unfold Run, after_kill. rewrite bind_eq. cbn [get_srv srv world].
  rewrite bind_eq. destruct (proc s) as [p|]; reflexivity.
Qed.

Lemma after_kill_tables st :
  breakpoints (srv (after_kill st)) = breakpoints (srv st) ∧
  arch (srv (after_kill st)) = arch (srv st) ∧
  w_spawns (world (after_kill st)) = w_spawns (world st).
Proof. unfold after_kill. destruct (proc (srv st)); by repeat split. Qed.

Lemma Run_at_rest st :
  (Run st).1 = Ok tt → image_agrees st → at_rest (Run st).2.
Proof.
  rewrite Run_eq. unfold image_agrees.
  destruct (after_kill_tables st) as (Hb & Ha & Hsp).
  destruct (after_kill st) as [s0 w0]. cbn [srv world] in *. rewrite run_start, Hsp.
  destruct (w_spawns (world st)) as [|[e|sp] rest]; try discriminate.
  intros _ Hi pc bp Hbp. unfold patch_width, saved_bytes, patch_width in *.
  cbn [fst snd srv world w_mem with_spawns with_regs with_mem breakpoints arch
       set_stoppedPid set_proc] in *.
  rewrite Hb in Hbp. rewrite Ha. apply Hi, Hbp.
Qed.

(** One-byte patches at different addresses never meet. *)
Lemma separate_single_byte s : BreakpointSize (arch s) ≤ 1 → separate s.
Proof. intros Hsize pc1 pc2 _ _ Hne. lia. Qed.

(** Between the continue of Resume and the wait that follows it, (I2). *)
Lemma Resume_continue_patched st st' :
  separate (srv st) → Resume_continue st = (Ok tt, st') → patched st'.
Proof.
  intros Hsep. unfold Resume_continue. rewrite bind_eq.
  pose proof (setBreakpoints_patched st) as Hpatched.
  pose proof (setBreakpoints_outcome st) as (Hs & _).
  destruct (setBreakpoints st) as [[[]|x] [s1 w1]]; [|discriminate].
  cbn [fst snd srv] in *. subst s1. specialize (Hpatched eq_refl Hsep).
  rewrite bind_eq. cbn [get_srv srv]. rewrite run_cont.
  destruct (traced w1 (stoppedPid (srv st))); [|discriminate].
  intros [= <-]. exact Hpatched.
Qed.

Lemma is_ok_true {A} (r : result A) : is_ok r = true → ∃ a, r = Ok a.
Proof. destruct r; [eauto|discriminate]. Qed.

(** C1, as the code has it.  (I1) holds in every state reached from one where
    it holds, as it does when the table is empty, by Run, Breakpoint, Resume,
    Eval and Frames requests among which every Resume and every Run returned
    without error and every Run started an image that agrees with the table;
    the other requests may end as they will.  (I2) holds, from any such state,
    once Resume has installed the table and continued the debuggee, when no
    two entries patch a common byte. *)
Theorem breakpoints_transparent (reqs : list Request) (st : State) :
  at_rest st →
  calm reqs st →
  at_rest (serve reqs st) ∧
  ∀ st1 st2,
    separate (srv (serve reqs st)) →
    Resume_prologue (serve reqs st) = (Ok tt, st1) →
    Resume_continue st1 = (Ok tt, st2) →
    patched st2 ∧ Resume (serve reqs st) = Resume_stop st2.
Proof.
  intros Hrest Hcalm. split.
  - revert st Hrest Hcalm.
    induction reqs as [|req reqs IH]; intros st Hrest Hcalm; [exact Hrest|].
    destruct Hcalm as [Hreq Hcalm]. cbn [serve]. apply IH; [|exact Hcalm]. clear IH Hcalm.
    destruct req as [|Address| |Expr|Count]; cbn [handle].
    + destruct Hreq as [Hok Himg]. apply is_ok_true in Hok as [[] Hok].
      by apply Run_at_rest.
    + by apply Breakpoint_at_rest.
    + apply is_ok_true in Hreq as [status Hok].
      pose proof (Resume_at_rest st status Hrest Hok) as Hr.
      rewrite bind_eq. destruct (Resume st) as [[a|x] st']; [exact Hr|discriminate].
    + pose proof (Eval_untouched Expr st) as Hu.
      rewrite bind_eq. destruct (Eval Expr st) as [[a|x] st'];
        exact (at_rest_untouched _ _ Hu Hrest).
    + pose proof (Frames_untouched Count st) as Hu.
      rewrite bind_eq. destruct (Frames Count st) as [[a|x] st'];
        exact (at_rest_untouched _ _ Hu Hrest).
  - intros st1 st2 Hsep Hp Hc. split.
    + apply (Resume_continue_patched st1 st2); [|exact Hc].
      pose proof (keeps_frame_Resume_prologue (serve reqs st)) as (Ht & _).
      rewrite Hp in Ht. cbn [snd] in Ht. destruct Ht as (Ha & _ & _ & _ & _ & Hb & _).
      intros pc1 pc2. unfold separate in Hsep. rewrite Hb, Ha. apply Hsep.
    + unfold Resume. rewrite bind_eq, Hp, bind_eq, Hc. reflexivity.
Qed.

(** ** The step over a breakpoint *)




(** ** What a failing handler leaves *)

Lemma Open_fails_untouched Name Mode st x :
  (Open Name Mode st).1 = Abort x → srv (Open Name Mode st).2 = srv st.
Proof.
  destruct st as [s w]. unfold Open. rewrite bind_eq.
  set (flagc := if String.eqb Mode "r" then ret O_RDONLY
                else if String.eqb Mode "w" then ret O_WRONLY
                else if String.eqb Mode "rw" then ret O_RDWR
                else throw (BadMode Mode)).
  destruct (flagc (mkState s w)) as [[flag|y] st1] eqn:Hflag.
  - assert (st1 = mkState s w) as ->.
    { subst flagc. revert Hflag. unfold ret, throw.
      repeat (destruct (String.eqb Mode _)); congruence. }
    rewrite bind_eq. unfold OpenFile, lift_k, k_openfile. cbn [world srv].
    destruct (w_files _ Name flag) as [e|h]; [reflexivity|].
    rewrite bind_eq. cbn [get_srv srv]. case_decide; discriminate.
  - assert (st1 = mkState s w) as ->; [|reflexivity].
    subst flagc. revert Hflag. unfold ret, throw.
    repeat (destruct (String.eqb Mode _)); congruence.
Qed.

Lemma first_Resume_fails st p x :
  proc (srv st) = Some p → procIsUp (srv st) = false →
  (Resume_prologue st).1 = Abort x →
  (Resume st).1 = Abort x ∧ srv (Resume st).2 = set_procIsUp true (srv st).
Proof.
  intros Hproc Hup. unfold Resume. rewrite bind_eq.
  assert (Hs : srv (Resume_prologue st).2 = set_procIsUp true (srv st)).
  { destruct st as [s w]. cbn [srv] in *. unfold Resume_prologue. rewrite bind_eq.
    cbn [get_srv srv]. rewrite Hproc, Hup. cbn [negb]. rewrite bind_eq.
    cbn [modify_srv srv world]. rewrite bind_eq.
    match goal with |- context [waitForTrap (stoppedPid s) ?st0] =>
      pose proof (waitForTrap_spec (stoppedPid s) st0) as [Hsrv _];
      destruct (waitForTrap (stoppedPid s) st0) as [[wpid|y] [s1 w1]] end;
      cbn [fst snd srv] in *; subst s1; [|reflexivity].
    rewrite run_setoptions. destruct (traced w1 (stoppedPid s)); reflexivity. }
  destruct (Resume_prologue st) as [[[]|y] st1]; [discriminate|].
  cbn [fst snd] in *. intros [= ->]. by split.
Qed.

(** C5, as the code has it.  A handler that fails before it has written
    anything leaves the engine as it was: Resume without a process, Eval,
    Frames, Open, and Breakpoint on an expression that does not evaluate.
    Breakpoint writes nothing but the table, never removes or changes an
    entry that is there, and keeps the entries of the addresses it got past
    whatever happens at the next ones.  Resume, however it ends, keeps the
    tables and proc; a first Resume whose prologue (the initial wait, the
    set-options) fails returns that failure and leaves procIsUp true. *)
Theorem failing_handlers_state (st : State) :
  (proc (srv st) = None → Resume st = (Abort (Err NoProcess), st)) ∧
  (∀ Expr, srv (Eval Expr st).2 = srv st) ∧
  (∀ Count, srv (Frames Count st).2 = srv st) ∧
  (∀ Name Mode x, (Open Name Mode st).1 = Abort x → srv (Open Name Mode st).2 = srv st) ∧
  (∀ Address err, eval (srv st) Address = inl err →
     Breakpoint Address st = (Abort (Err err), st)) ∧
  (∀ Address,
     srv (Breakpoint Address st).2
     = set_breakpoints (breakpoints (srv (Breakpoint Address st).2)) (srv st) ∧
     ∀ pc bp, breakpoints (srv st) !! pc = Some bp →
              breakpoints (srv (Breakpoint Address st).2) !! pc = Some bp) ∧
  (∀ Address pre rest a pc,
     eval (srv st) Address = inr (pre ++ rest) →
     (Breakpoint_loop pre (zero_breakpoint (arch (srv st))) st).1 = Ok tt →
     a ∈ pre → evalAddress (srv st) a = inr pc →
     is_Some (breakpoints (srv (Breakpoint Address st).2) !! pc)) ∧
  tables_kept st (Resume st).2 ∧
  (∀ p x, proc (srv st) = Some p → procIsUp (srv st) = false →
     (Resume_prologue st).1 = Abort x →
     (Resume st).1 = Abort x ∧ srv (Resume st).2 = set_procIsUp true (srv st)).
Proof.
  split_and!.
  - intros Hproc. unfold Resume. rewrite bind_eq. unfold Resume_prologue. rewrite bind_eq.
    cbn [get_srv]. rewrite Hproc. reflexivity.
  - intros Expr. apply (Eval_untouched Expr st).
  - intros Count. apply (Frames_untouched Count st).
  - intros Name Mode x. apply Open_fails_untouched.
  - intros Address err Hev. unfold Breakpoint. rewrite bind_eq. cbn [get_srv].
    rewrite Hev. reflexivity.
  - intros Address. unfold Breakpoint. rewrite bind_eq. cbn [get_srv].
    destruct (eval (srv st) Address) as [err|addrs].
    + cbn. split; [by destruct (srv st)|auto].
    + pose proof (Breakpoint_loop_outcome addrs (zero_breakpoint (arch (srv st))) st) as Ho.
      cbn zeta in Ho. tauto.
  - intros Address pre rest a pc Hev Hok Hin Ha. unfold Breakpoint. rewrite bind_eq.
    cbn [get_srv]. rewrite Hev. by eapply Breakpoint_loop_inserted.
  - apply keeps_frame_Resume.
  - apply first_Resume_fails.
Qed.

(** ** The type lookup of Frames *)

Lemma Frames_fields_passes s fp before : ∀ rest location acc st,
  Forall (passes s) before →
  ∃ location' acc',
    Frames_fields s fp (before ++ rest) location acc st
    = Frames_fields s fp rest location' acc' st.
Proof.
  induction before as [|fd before IH]; intros rest location acc st Hp; [by eexists _, _|].
  apply Forall_cons in Hp as [Hfd Hp]. cbn [app Frames_fields].
  destruct Hfd as [(Ha & v & offset & Hv & He)|[(Ha & name & Hv)|[(Ha & off & t & Hv & Ht & Hno)|(H1 & H2 & H3)]]].
  - rewrite Ha, Z.eqb_refl, Hv, He. apply IH, Hp.
  - rewrite Ha, Hv. cbn. apply IH, Hp.
  - rewrite Ha, Hv, Ht. cbn.
    assert (Hb : negb (String.eqb (ty_String t) "int") || negb (ty_Size t =? IntSize (arch s))
                 = true).
    { destruct Hno as [->|Hne]; [reflexivity|].
      apply Z.eqb_neq in Hne. rewrite Hne. apply orb_true_r. }
    rewrite Hb. apply IH, Hp.
  - apply Z.eqb_neq in H1, H2, H3. rewrite H1, H2, H3. apply IH, Hp.
Qed.

Lemma Frames_entries_passed s fp skipped : ∀ more acc st,
  Forall (passed_entry s) skipped →
  ∃ acc', Frames_entries s fp (skipped ++ more) acc st
          = Frames_entries s fp more acc' st.
Proof.
  induction skipped as [|a skipped IH]; intros more acc st Hp; [by eexists|].
  apply Forall_cons in Hp as [(entry & -> & Htag & Hkind) Hp]. cbn [app Frames_entries].
  apply Z.eqb_neq in Htag. rewrite Htag.
  destruct Hkind as [Hne|[Hch Hf]].
  - apply Z.eqb_neq in Hne. rewrite Hne. cbn [negb]. apply IH, Hp.
  - destruct (Tag entry =? TagFormalParameter); cbn [negb]; [|apply IH, Hp].
    rewrite Hch, bind_eq.
    destruct (Frames_fields_passes s fp (Field entry) [] 0 acc st Hf) as (l' & acc' & Heq).
    rewrite app_nil_r in Heq. rewrite Heq. cbn [Frames_fields ret]. apply IH, Hp.
Qed.

(** C10.  The type lookup of Frames.  When the walk of Frames (Count = 1)
    reaches a formal parameter without children one of whose fields is a type
    attribute that the type table does not resolve, the handler panics: the
    error of the lookup only guards the rendering of the type, and the nil
    type is asked for its string form all the same.  When the lookup
    succeeds and the type is not the int the handler reads, the same field is
    got past. *)
Theorem Frames_type_lookup_unguarded (st : State) (regs : PtraceRegs)
    (entry param : dwarf_Entry) (skipped more : list NextResult)
    (before after : list dwarf_Field) (off : Z) :
  w_regs (world st) !! stoppedPid (srv st) = Some regs →
  entryForPC (srv st) (Rip regs) = inr entry →
  dw_Next (dwarfData (srv st)) (Offset entry) = skipped ++ NextEntry param :: more →
  Forall (passed_entry (srv st)) skipped →
  Tag param = TagFormalParameter →
  Children param = false →
  Field param = before ++ mkField AttrType (VOffset off) :: after →
  Forall (passes (srv st)) before →
  (∀ err, dw_Type (dwarfData (srv st)) off = inl err → (Frames 1 st).1 = Abort Panic) ∧
  (∀ t, dw_Type (dwarfData (srv st)) off = inr t →
     String.eqb (ty_String t) "int" = false ∨ ty_Size t ≠ IntSize (arch (srv st)) →
     ∃ fp location acc acc' st',
       Frames 1 st =
       bind (bind (Frames_fields (srv st) fp after location acc)
                  (fun acc => Frames_entries (srv st) fp more acc))
            (fun frame => ret [mkFrame frame]) st' ∧
       (Frames_fields (srv st) fp (mkField AttrType (VOffset off) :: after) location acc' st'
        = Frames_fields (srv st) fp after location acc st')).
Proof.
  intros Hregs Hentry Hnext Hskip Htag Hch Hfield Hbefore.
  destruct st as [s w]. cbn [srv world] in *.
  set (fp := uint64 (Rsp regs + uint64 (PointerSize (arch s)))).
  set (st' := mkState s (logged (SysGetRegs (stoppedPid s)) w)).
  destruct (Frames_entries_passed s fp skipped (NextEntry param :: more) EmptyString st' Hskip)
    as (acc0 & Hent).
  destruct (Frames_fields_passes s fp before (mkField AttrType (VOffset off) :: after)
              0 acc0 st' Hbefore) as (location & acc1 & Hfld).
  assert (Hwalk :
    Frames 1 (mkState s w) =
    bind (bind (Frames_fields s fp (mkField AttrType (VOffset off) :: after) location acc1)
               (fun acc => Frames_entries s fp more acc))
         (fun frame => ret [mkFrame frame]) st').
  { unfold Frames. cbn [Z.eqb Pos.eqb negb]. rewrite bind_eq. cbn [get_srv srv].
    rewrite bind_eq. rewrite <- (wrap_id (ptraceGetRegs (stoppedPid s))), run_getregs, Hregs.
    cbn beta iota. rewrite Hentry, Hnext. cbn beta iota. fold fp st'.
    rewrite (bind_eq _ _ st'), Hent.
    cbn [Frames_entries]. rewrite Htag.
    cbn [Z.eqb Pos.eqb negb TagFormalParameter]. rewrite Hch, Hfield.
    rewrite (bind_eq _ _ st'), Hfld.
    symmetry. rewrite (bind_eq _ _ st'), (bind_eq _ _ st'). reflexivity. }
  assert (Hstep : ∀ t, dw_Type (dwarfData s) off = inr t →
            String.eqb (ty_String t) "int" = false ∨ ty_Size t ≠ IntSize (arch s) →
            Frames_fields s fp (mkField AttrType (VOffset off) :: after) location acc1 st'
            = Frames_fields s fp after location (acc1 ++ "[" ++ ty_String t ++ "]")%string st').
  { intros t Ht Hno. cbn [Frames_fields Attr Val].
    cbn [Z.eqb Pos.eqb AttrType AttrLocation AttrName]. rewrite Ht.
    assert (Hb : negb (String.eqb (ty_String t) "int") || negb (ty_Size t =? IntSize (arch s))
                 = true).
    { destruct Hno as [->|Hne]; [reflexivity|].
      apply Z.eqb_neq in Hne. rewrite Hne. apply orb_true_r. }
    by rewrite Hb. }
  split.
  - intros err Ht. rewrite Hwalk, !bind_eq. cbn [Frames_fields Attr Val].
    cbn [Z.eqb Pos.eqb AttrType AttrLocation AttrName]. rewrite Ht. reflexivity.
  - intros t Ht Hno.
    exists fp, location, (acc1 ++ "[" ++ ty_String t ++ "]")%string, acc1, st'.
    split; [|by apply Hstep].
    rewrite Hwalk, !bind_eq, (Hstep t Ht Hno). reflexivity.
Qed.

End Proofs.

(** * More of the server *)

Section MoreProofs.
Context `{Externals} `{program_File} `{Loaders}.

#[local] Existing Instance untouched_preorder.
#[local] Existing Instance tables_kept_preorder.
#[local] Existing Instance log_grows_preorder.
#[local] Existing Instance resume_frame_preorder.

(** ** ReadAt and Close *)

Lemma bad_fd_false s fd :
  bad_fd s fd = false ↔ 0 ≤ fd ∧ ∃ fl, files s !! Z.to_nat fd = Some (Some fl).
Proof.
  unfold bad_fd. split.
  - intros Hb. apply orb_false_elim in Hb as [Hb Hslot].
    apply orb_false_elim in Hb as [Hneg _]. apply Z.ltb_ge in Hneg.
    split; [assumption|]. destruct (files s !! Z.to_nat fd) as [[fl|]|]; try discriminate.
    by exists fl.
  - intros [Hpos [fl Hfl]]. rewrite Hfl.
    pose proof (lookup_lt_Some _ _ _ Hfl) as Hlt.
    rewrite orb_false_r. apply orb_false_intro; [apply Z.ltb_ge|apply Z.leb_gt]; lia.
Qed.

Lemma Close_bad FD st :
  bad_fd (srv st) FD = true → Close FD st = (Abort (Err (BadFd FD)), st).
Proof. intros Hb. destruct st as [s w]. unfold Close. rewrite bind_eq. cbn in *. by rewrite Hb. Qed.

Lemma ReadAt_bad FD Len Offset st :
  bad_fd (srv st) FD = true → ReadAt FD Len Offset st = (Abort (Err (BadFd FD)), st).
Proof. intros Hb. destruct st as [s w]. unfold ReadAt. rewrite bind_eq. cbn in *. by rewrite Hb. Qed.

(** Close of an open descriptor: the slot is emptied, and the error is the
    one of the file. *)
Lemma Close_open FD st fl :
  0 ≤ FD → files (srv st) !! Z.to_nat FD = Some (Some fl) →
  Close FD st =
    (match File_Close (f fl) with Some e => Abort (Err e) | None => Ok tt end,
     mkState (set_files (<[Z.to_nat FD := None]> (files (srv st))) (srv st)) (world st)).
Proof.
  intros Hpos Hfl. destruct st as [s w]. unfold Close. rewrite bind_eq. cbn in *.
  assert (Hb : bad_fd s FD = false) by (apply bad_fd_false; eauto).
  rewrite Hb, Hfl. rewrite bind_eq. cbn. by destruct (File_Close (f fl)).
Qed.

Lemma Close_cases FD st :
  (bad_fd (srv st) FD = true ∧ Close FD st = (Abort (Err (BadFd FD)), st)) ∨
  (∃ fl, 0 ≤ FD ∧ files (srv st) !! Z.to_nat FD = Some (Some fl) ∧
         Close FD st =
           (match File_Close (f fl) with Some e => Abort (Err e) | None => Ok tt end,
            mkState (set_files (<[Z.to_nat FD := None]> (files (srv st))) (srv st))
                    (world st))).
Proof.
  destruct (bad_fd (srv st) FD) eqn:Hb.
  - left. split; [reflexivity|]. by apply Close_bad.
  - right. apply bad_fd_false in Hb as [Hpos [fl Hfl]]. exists fl.
    split; [assumption|]. split; [assumption|]. by apply Close_open.
Qed.

Lemma bad_fd_after_Close FD st : bad_fd (srv (Close FD st).2) FD = true.
Proof.
  destruct (Close_cases FD st) as [[Hb ->]|(fl & Hpos & Hfl & ->)]; [assumption|].
  pose proof (lookup_lt_Some _ _ _ Hfl) as Hlt.
  unfold bad_fd. cbn [snd srv set_files files].
  rewrite list_lookup_insert_eq by assumption.
  apply orb_true_r.
Qed.

(** X1.  A descriptor that was closed is closed: whatever the descriptor and
    however the Close ended (a bad descriptor, an error of the file or none),
    a second Close of it and a ReadAt from it return the error of a bad
    descriptor and change nothing. *)
Theorem closed_descriptor_is_bad (FD Len Offset : Z) (st : State) :
  Close FD (Close FD st).2 = (Abort (Err (BadFd FD)), (Close FD st).2) ∧
  ReadAt FD Len Offset (Close FD st).2 = (Abort (Err (BadFd FD)), (Close FD st).2).
Proof.
  split; [apply Close_bad|apply ReadAt_bad]; apply bad_fd_after_Close.
Qed.

Lemma ReadAt_state FD Len Offset st : (ReadAt FD Len Offset st).2 = st.
Proof.
  destruct st as [s w]. unfold ReadAt. rewrite bind_eq.
  cbn [get_srv fst snd srv].
  destruct (bad_fd s FD); [reflexivity|].
  destruct (files s !! Z.to_nat FD) as [[fl|]|]; try reflexivity.
  destruct (Len <? 0); [reflexivity|].
  destruct (File_ReadAt (f fl) (Z.to_nat Len) Offset) as [[stored n] e].
  by destruct (slice_to (filled (Z.to_nat Len) stored) n).
Qed.

(** X2.  ReadAt is a query: it changes neither the server nor the debuggee.
    It returns the error of a bad descriptor exactly when the descriptor is
    negative, past the table or an empty slot; and when it returns data, the
    length asked for is not negative and the data are the first n of the
    bytes of the buffer the file has filled, n being the count of the file,
    never more than were asked for. *)
Theorem ReadAt_reads_only (FD Len Offset : Z) (st : State) :
  (ReadAt FD Len Offset st).2 = st ∧
  ((ReadAt FD Len Offset st).1 = Abort (Err (BadFd FD)) ↔ bad_fd (srv st) FD = true) ∧
  ∀ Data err, (ReadAt FD Len Offset st).1 = Ok (Data, err) →
    ∃ fl, files (srv st) !! Z.to_nat FD = Some (Some fl) ∧
          0 ≤ FD ∧ 0 ≤ Len ∧
          let '(stored, n, e) := File_ReadAt (f fl) (Z.to_nat Len) Offset in
          err = e ∧ Z.of_nat (length Data) = n ∧ n ≤ Len ∧
          Data = take (Z.to_nat n) (filled (Z.to_nat Len) stored).
Proof.
  destruct st as [s w]. unfold ReadAt. rewrite bind_eq. cbn [get_srv fst snd srv].
  destruct (bad_fd s FD) eqn:Hb.
  - cbn. split; [reflexivity|]. split; [done|]. intros ?? [=].
  - apply bad_fd_false in Hb as [Hpos [fl Hfl]]. rewrite Hfl.
    destruct (Len <? 0) eqn:Hlen.
    + cbn. split; [reflexivity|]. split; [split; discriminate|]. intros ?? [=].
    + apply Z.ltb_ge in Hlen.
      destruct (File_ReadAt (f fl) (Z.to_nat Len) Offset) as [[stored n] e] eqn:Hread.
      destruct (slice_to (filled (Z.to_nat Len) stored) n) as [out|] eqn:Hslice.
      * cbn. split; [reflexivity|]. split; [split; discriminate|].
        intros Data err [= <- <-]. exists fl. split; [reflexivity|].
        split; [assumption|]. split; [assumption|]. rewrite Hread.
        apply slice_to_Some in Hslice as (-> & Hn & Hrange).
        split; [reflexivity|]. split; [assumption|]. split; [|reflexivity].
        unfold filled in Hrange. rewrite length_take, length_app, length_replicate in Hrange.
        lia.
      * cbn. split; [reflexivity|]. split; [split; discriminate|]. intros ?? [=].
Qed.

(** ** Open after Close *)

Lemma Open_Ok Name Mode st :
  (Open Name Mode st).1 = Ok tt →
  ∃ h, srv (Open Name Mode st).2 =
       set_files (let i := find_slot (files (srv st)) 0 in
                  if decide (i = length (files (srv st)))
                  then files (srv st) ++ [Some (mkFile Mode i h)]
                  else <[i := Some (mkFile Mode i h)]> (files (srv st))) (srv st).
Proof.
  destruct st as [s w]. unfold Open. rewrite bind_eq.
  set (flagc := if String.eqb Mode "r" then ret O_RDONLY
                else if String.eqb Mode "w" then ret O_WRONLY
                else if String.eqb Mode "rw" then ret O_RDWR
                else throw (BadMode Mode)).
  destruct (flagc (mkState s w)) as [[flag|x] st1] eqn:Hflag; [|discriminate].
  assert (st1 = mkState s w) as ->.
  { subst flagc. revert Hflag. unfold ret, throw.
    repeat (destruct (String.eqb Mode _)); congruence. }
  rewrite bind_eq. unfold OpenFile, lift_k, k_openfile. cbn [world srv].
  destruct (w_files _ Name flag) as [e|h]; [discriminate|].
  rewrite bind_eq. cbn [get_srv srv]. intros _. exists h. cbn zeta.
  case_decide; reflexivity.
Qed.

(** X3.  A file closed makes room.  After the Close of an open descriptor,
    whether the file closed without error or not, the next Open that
    succeeds stores its record in a slot not above the one that was closed,
    in that very slot when every slot below it is occupied, and the table
    does not grow. *)
Theorem Close_frees_for_Open (FD : Z) (Name Mode : string) (st : State) (fl : file) :
  0 ≤ FD →
  files (srv st) !! Z.to_nat FD = Some (Some fl) →
  (Open Name Mode (Close FD st).2).1 = Ok tt →
  let after := files (srv (Open Name Mode (Close FD st).2).2) in
  ∃ i g,
    (i ≤ Z.to_nat FD)%nat ∧
    after !! i = Some (Some g) ∧ index g = i ∧ mode g = Mode ∧
    length after = length (files (srv st)) ∧
    ((∀ j, (j < Z.to_nat FD)%nat → ∃ g', files (srv st) !! j = Some (Some g')) →
     i = Z.to_nat FD).
Proof.
  intros Hpos Hfl Hok. cbn zeta.
  destruct (Open_Ok _ _ _ Hok) as [h Hsrv]. rewrite Hsrv. clear Hsrv Hok.
  rewrite (Close_open FD st fl Hpos Hfl). cbn [snd srv set_files files].
  set (fd := Z.to_nat FD) in *. set (fs := <[fd := None]> (files (srv st))).
  pose proof (lookup_lt_Some _ _ _ Hfl) as Hlt.
  assert (Hfd : fs !! fd = Some None) by (by apply list_lookup_insert_eq).
  pose proof (find_slot_spec fs 0) as (_ & Hocc & Hend). cbn zeta in *.
  rewrite Nat.sub_0_r in *. set (i := find_slot fs 0) in *.
  assert (Hle : (i ≤ fd)%nat).
  { destruct (decide (i ≤ fd)%nat) as [|Hgt]; [assumption|].
    destruct (Hocc fd ltac:(lia)) as [g Hg]. congruence. }
  assert (Hlen : length fs = length (files (srv st))) by apply length_insert.
  case_decide as Hi; [lia|].
  exists i, (mkFile Mode i h). split; [assumption|]. split_and!; try reflexivity.
  - apply list_lookup_insert_eq. lia.
  - rewrite length_insert. assumption.
  - intros Hbelow. destruct (decide (i = fd)) as [|Hne]; [assumption|].
    destruct Hend as [Hend|Hend]; [|lia].
    destruct (Hbelow i ltac:(lia)) as [g' Hg'].
    unfold fs in Hend. rewrite list_lookup_insert_ne in Hend by congruence. congruence.
Qed.

(** ** What every method keeps *)

Lemma bind_ret_state {A} (c : M A) st : ((let* _ := c in ret tt) st).2 = (c st).2.
Proof. rewrite bind_eq. by destruct (c st) as [[a|x] st']. Qed.

Lemma Run_tables st :
  arch (srv (Run st).2) = arch (srv st) ∧
  executable (srv (Run st).2) = executable (srv st) ∧
  dwarfData (srv (Run st).2) = dwarfData (srv st) ∧
  table (srv (Run st).2) = table (srv st) ∧
  breakpoints (srv (Run st).2) = breakpoints (srv st) ∧
  files (srv (Run st).2) = files (srv st).
Proof.
  rewrite Run_eq.
  assert (Hk : arch (srv (after_kill st)) = arch (srv st) ∧
               executable (srv (after_kill st)) = executable (srv st) ∧
               dwarfData (srv (after_kill st)) = dwarfData (srv st) ∧
               table (srv (after_kill st)) = table (srv st) ∧
               breakpoints (srv (after_kill st)) = breakpoints (srv st) ∧
               files (srv (after_kill st)) = files (srv st)).
  { unfold after_kill. destruct (proc (srv st)); by split_and!. }
  destruct (after_kill st) as [s0 w0]. cbn [srv world] in *. rewrite run_start.
  destruct (w_spawns w0) as [|[e|sp] rest]; exact Hk.
Qed.

Lemma Breakpoint_tables Address st :
  srv (Breakpoint Address st).2
  = set_breakpoints (breakpoints (srv (Breakpoint Address st).2)) (srv st) ∧
  ∀ pc bp, breakpoints (srv st) !! pc = Some bp →
           breakpoints (srv (Breakpoint Address st).2) !! pc = Some bp.
Proof.
  unfold Breakpoint. rewrite bind_eq. cbn [get_srv].
  destruct (eval (srv st) Address) as [err|addrs].
  - cbn. split; [by destruct (srv st)|auto].
  - pose proof (Breakpoint_loop_outcome addrs (zero_breakpoint (arch (srv st))) st) as Ho.
    cbn zeta in Ho. tauto.
Qed.

(** The files of the server after a method: those it had, or those Open or
    Close leave. *)
Lemma invoke_files m st :
  let fs := files (srv st) in
  let fs' := files (srv (invoke m st).2) in
  fs' = fs ∨
  (∃ Name Mode h, m = MOpen Name Mode ∧
     let i := find_slot fs 0 in
     fs' = if decide (i = length fs) then fs ++ [Some (mkFile Mode i h)]
           else <[i := Some (mkFile Mode i h)]> fs) ∨
  (∃ FD, m = MClose FD ∧ fs' = <[Z.to_nat FD := None]> fs).
Proof.
  cbn zeta. destruct m as [Name Mode|FD Len Offset|FD| | |Address|Expr|Count]; cbn [invoke].
  - destruct ((Open Name Mode st).1) as [[]|x] eqn:Hr.
    + destruct (Open_Ok _ _ _ Hr) as [h Hh]. right. left. exists Name, Mode, h.
      split; [reflexivity|]. rewrite Hh. reflexivity.
    + left. by rewrite (Open_fails_untouched _ _ _ _ Hr).
  - left. rewrite bind_ret_state.
    by rewrite ReadAt_state.
  - destruct (Close_cases FD st) as [[_ ->]|(fl & _ & _ & ->)]; [by left|].
    right. right. exists FD. split; reflexivity.
  - left. apply Run_tables.
  - left. rewrite bind_ret_state. apply (keeps_frame_Resume st).
  - left. destruct (Breakpoint_tables Address st) as [-> _]. reflexivity.
  - left. rewrite bind_ret_state. by rewrite (proj1 (Eval_untouched Expr st)).
  - left. rewrite bind_ret_state. by rewrite (proj1 (Frames_untouched Count st)).
Qed.

Lemma invoke_tables m st :
  let s := srv st in
  let s' := srv (invoke m st).2 in
  arch s' = arch s ∧ executable s' = executable s ∧
  dwarfData s' = dwarfData s ∧ table s' = table s ∧
  (∀ pc bp, breakpoints s !! pc = Some bp → breakpoints s' !! pc = Some bp).
Proof.
  cbn zeta. destruct m as [Name Mode|FD Len Offset|FD| | |Address|Expr|Count]; cbn [invoke].
  - destruct ((Open Name Mode st).1) as [[]|x] eqn:Hr.
    + destruct (Open_Ok _ _ _ Hr) as [h ->]. by split_and!.
    + rewrite (Open_fails_untouched _ _ _ _ Hr). by split_and!.
  - rewrite bind_ret_state, ReadAt_state. by split_and!.
  - destruct (Close_cases FD st) as [[_ ->]|(fl & _ & _ & ->)]; by split_and!.
  - destruct (Run_tables st) as (-> & -> & -> & -> & -> & _). by split_and!.
  - rewrite bind_ret_state.
    destruct (keeps_frame_Resume st) as ((-> & -> & -> & -> & _ & -> & _) & _).
    by split_and!.
  - destruct (Breakpoint_tables Address st) as [-> Hold]. by split_and!.
  - rewrite bind_ret_state, (proj1 (Eval_untouched Expr st)). by split_and!.
  - rewrite bind_ret_state, (proj1 (Frames_untouched Count st)). by split_and!.
Qed.

(** X4.  What was loaded is never written.  Whatever the calls and however
    each of them ends, the server keeps the architecture, the name of the
    executable, the debug information and the line table it was made with. *)
Theorem loaded_data_never_written (ms : list Method) (st : State) :
  arch (srv (invoke_all ms st)) = arch (srv st) ∧
  executable (srv (invoke_all ms st)) = executable (srv st) ∧
  dwarfData (srv (invoke_all ms st)) = dwarfData (srv st) ∧
  table (srv (invoke_all ms st)) = table (srv st).
Proof.
  revert st. induction ms as [|m ms IH]; intros st; cbn [invoke_all]; [done|].
  destruct (IH (invoke m st).2) as (-> & -> & -> & ->).
  destruct (invoke_tables m st) as (-> & -> & -> & -> & _). done.
Qed.

(** X5.  A breakpoint is for ever.  No method removes an entry of the
    breakpoint table or changes the instruction saved in it: an entry stays,
    as it is, through all the calls that follow, Run of a new process and
    failing calls among them. *)
Theorem breakpoints_never_removed (ms : list Method) (st : State) (pc : Z) (bp : breakpoint) :
  breakpoints (srv st) !! pc = Some bp →
  breakpoints (srv (invoke_all ms st)) !! pc = Some bp.
Proof.
  revert st. induction ms as [|m ms IH]; intros st Hb; cbn [invoke_all]; [assumption|].
  apply IH. by apply (invoke_tables m st).
Qed.

(** X6.  Descriptors stay in range.  The file table never shrinks, Close
    empties a slot and leaves it in place; the table grows by one slot at
    most for each Open among the calls. *)
Theorem file_table_never_shrinks (ms : list Method) (st : State) :
  (length (files (srv st)) ≤ length (files (srv (invoke_all ms st))))%nat ∧
  (length (files (srv (invoke_all ms st)))
   ≤ length (files (srv st)) + length (filter (fun m => is_MOpen m = true) ms))%nat.
Proof.
  revert st. induction ms as [|m ms IH]; intros st; cbn [invoke_all]; [cbn; lia|].
  specialize (IH (invoke m st).2).
  assert (Hstep : (length (files (srv st)) ≤ length (files (srv (invoke m st).2)))%nat ∧
                  (length (files (srv (invoke m st).2))
                   ≤ length (files (srv st)) + (if is_MOpen m then 1 else 0))%nat).
  { destruct (invoke_files m st) as [->|[(Name & Mode & h & -> & ->)|(FD & -> & ->)]].
    - destruct (is_MOpen m); lia.
    - cbn zeta. cbn [is_MOpen]. case_decide.
      + rewrite length_app. cbn. lia.
      + rewrite length_insert. lia.
    - rewrite length_insert. cbn. lia. }
  rewrite filter_cons. destruct (is_MOpen m) eqn:Hm.
  - rewrite decide_True by reflexivity. cbn [length]. lia.
  - rewrite decide_False by discriminate. lia.
Qed.

(** X7.  Index is file descriptor.  When the record of every occupied slot
    holds the index of its slot, as in the empty table of a new server, it
    is so after any calls, however each of them ends. *)
Theorem files_stay_indexed (ms : list Method) (st : State) :
  files_indexed (srv st) → files_indexed (srv (invoke_all ms st)).
Proof.
  revert st. induction ms as [|m ms IH]; intros st Hidx; cbn [invoke_all]; [assumption|].
  apply IH. clear IH. unfold files_indexed in *.
  destruct (invoke_files m st) as [->|[(Name & Mode & h & -> & ->)|(FD & -> & ->)]];
    [assumption| |].
  - cbn zeta. set (i := find_slot (files (srv st)) 0). intros j fl Hj. case_decide as Hi.
    + destruct (decide (j < length (files (srv st)))%nat) as [Hlt|Hge].
      * rewrite lookup_app_l in Hj by assumption. by apply Hidx.
      * rewrite lookup_app_r in Hj by lia. rewrite <- Hi in Hj.
        destruct (j - i)%nat as [|k] eqn:Hk; [|by destruct k].
        cbn in Hj. injection Hj as <-. cbn. lia.
    + destruct (decide (j = i)) as [->|Hne].
      * destruct (decide (i < length (files (srv st)))%nat) as [Hlt|Hge].
        -- rewrite list_lookup_insert_eq in Hj by assumption. by injection Hj as <-.
        -- apply lookup_lt_Some in Hj. rewrite length_insert in Hj. lia.
      * rewrite list_lookup_insert_ne in Hj by congruence. by apply Hidx.
  - intros j fl Hj. destruct (decide (j = Z.to_nat FD)) as [->|Hne].
    + pose proof (lookup_lt_Some _ _ _ Hj) as Hlt. rewrite length_insert in Hlt.
      rewrite list_lookup_insert_eq in Hj by assumption. discriminate.
    + rewrite list_lookup_insert_ne in Hj by congruence. by apply Hidx.
Qed.

(** ** The entries Breakpoint makes *)

Lemma table_well_formed_arch s s' :
  arch s' = arch s → breakpoints s' = breakpoints s →
  table_well_formed s → table_well_formed s'.
Proof.
  intros Ha Hb Hwf key bp Hk. rewrite Hb in Hk.
  unfold entry_well_formed, patch_width. rewrite Ha. by apply Hwf.
Qed.

Lemma Breakpoint_loop_well_formed addrs : ∀ bp0 st,
  length (origInstr bp0) = length (BreakpointInstr (arch (srv st))) →
  drop (patch_width (srv st)) (origInstr bp0)
  = replicate (length (BreakpointInstr (arch (srv st))) - patch_width (srv st)) x00 →
  table_well_formed (srv st) →
  table_well_formed (srv (Breakpoint_loop addrs bp0 st).2).
Proof.
  induction addrs as [|a addrs IH]; intros bp0 [s w] Hlen Hzero Hwf; [assumption|].
  cbn [Breakpoint_loop]. rewrite bind_eq. cbn [get_srv srv world] in *.
  destruct (evalAddress s a) as [err|k]; [assumption|].
  destruct (has_breakpoint s k); [assumption|].
  destruct (slice_to (origInstr bp0) (BreakpointSize (arch s))) as [out|] eqn:Hsl;
    [|assumption].
  rewrite bind_eq, run_peek.
  destruct (traced w (stoppedPid s)); [|assumption].
  destruct (mem_read (w_mem w) k (length out)) as [peeked|] eqn:Hpk; [|assumption].
  rewrite bind_eq. cbn [modify_srv srv world].
  apply slice_to_Some in Hsl as (Hout & Hn & Hrange).
  apply mem_read_length in Hpk.
  assert (Hw : length out = patch_width s) by (unfold patch_width; lia).
  apply IH; cbn [srv origInstr arch set_breakpoints].
  - rewrite length_app, length_drop. lia.
  - change (patch_width (set_breakpoints (<[k:=mkBreakpoint k
              (peeked ++ drop (length out) (origInstr bp0))]> (breakpoints s)) s))
      with (patch_width s).
    rewrite drop_app_length' by lia. rewrite Hw. assumption.
  - intros key bp Hk. cbn [breakpoints set_breakpoints] in Hk.
    destruct (decide (key = k)) as [->|Hne].
    + rewrite lookup_insert_eq in Hk. injection Hk as <-.
      unfold entry_well_formed. cbn [pc origInstr arch set_breakpoints].
      change (patch_width (set_breakpoints (<[k:=mkBreakpoint k
                (peeked ++ drop (length out) (origInstr bp0))]> (breakpoints s)) s))
        with (patch_width s).
      split; [reflexivity|]. split.
      * rewrite length_app, length_drop. lia.
      * rewrite drop_app_length' by lia. rewrite Hw. assumption.
    + rewrite lookup_insert_ne in Hk by congruence. by apply Hwf.
Qed.

Lemma Breakpoint_well_formed Address st :
  table_well_formed (srv st) → table_well_formed (srv (Breakpoint Address st).2).
Proof.
  intros Hwf. unfold Breakpoint. rewrite bind_eq. cbn [get_srv].
  destruct (eval (srv st) Address) as [err|addrs]; [assumption|].
  apply Breakpoint_loop_well_formed; [| |assumption]; cbn [zero_breakpoint origInstr].
  - apply length_replicate.
  - rewrite drop_replicate. reflexivity.
Qed.

(** X8.  The table Breakpoint builds.  In every state the calls lead to from
    a table whose entries are well formed, the empty table of a new server
    for one, every entry is stored under its own pc and its saved
    instruction fills the array of MaxBreakpointSize bytes: the bytes peeked
    in front, BreakpointSize of them, and zeroes behind. *)
Theorem table_stays_well_formed (ms : list Method) (st : State) :
  table_well_formed (srv st) → table_well_formed (srv (invoke_all ms st)).
Proof.
  revert st. induction ms as [|m ms IH]; intros st Hwf; cbn [invoke_all]; [assumption|].
  apply IH. clear IH.
  destruct m as [Name Mode|FD Len Offset|FD| | |Address|Expr|Count]; cbn [invoke].
  - destruct ((Open Name Mode st).1) as [[]|x] eqn:Hr.
    + destruct (Open_Ok _ _ _ Hr) as [h ->]. by eapply table_well_formed_arch.
    + by rewrite (Open_fails_untouched _ _ _ _ Hr).
  - by rewrite bind_ret_state, ReadAt_state.
  - destruct (Close_cases FD st) as [[_ ->]|(fl & _ & _ & ->)]; [assumption|].
    by eapply table_well_formed_arch.
  - destruct (Run_tables st) as (Ha & _ & _ & _ & Hb & _).
    by eapply table_well_formed_arch.
  - rewrite bind_ret_state.
    destruct (keeps_frame_Resume st) as ((Ha & _ & _ & _ & _ & Hb & _) & _).
    by eapply table_well_formed_arch.
  - by apply Breakpoint_well_formed.
  - by rewrite bind_ret_state, (proj1 (Eval_untouched Expr st)).
  - by rewrite bind_ret_state, (proj1 (Frames_untouched Count st)).
Qed.

(** ** What install and lift write *)

(** However the loop ends, the memory it leaves is the memory it found with
    the writes of the pokes that went through. *)
Lemma poke_loop_mem g bytes_of order : ∀ st,
  ∃ written,
    w_mem (world (poke_loop g bytes_of order st).2) = apply_writes (w_mem (world st)) written ∧
    Forall (fun ad => ∃ bp, (ad.1, bp) ∈ order ∧ bytes_of (srv st) bp = Some ad.2) written.
Proof.
  induction order as [|[pc bp] order IH]; intros [s w].
  - exists []. split; [reflexivity|constructor].
  - cbn [poke_loop]. rewrite bind_eq. cbn [get_srv srv world].
    destruct (bytes_of s bp) as [instr|] eqn:Hb.
    2:{ exists []. split; [reflexivity|constructor]. }
    rewrite bind_eq, run_poke.
    destruct (traced w (stoppedPid s)).
    2:{ exists []. split; [reflexivity|constructor]. }
    destruct (mem_read (w_mem w) pc (length instr)).
    2:{ exists []. split; [reflexivity|constructor]. }
    match goal with |- context [poke_loop g bytes_of order ?st0] =>
      destruct (IH st0) as (written & Hmem & Hall) end.
    cbn [srv world w_mem with_mem logged] in *.
    exists ((pc, instr) :: written). split; [rewrite Hmem; reflexivity|].
    constructor.
    + exists bp. split; [apply list_elem_of_here|assumption].
    + eapply Forall_impl; [exact Hall|]. intros ad (bp' & Hin & Hbytes).
      exists bp'. split; [by apply list_elem_of_further|assumption].
Qed.

Lemma range_poke_mem g bytes_of loop st :
  (∀ order, loop order = poke_loop g bytes_of order) →
  ∃ written,
    w_mem (world ((let* s := get_srv in
                   let* order := range_map (breakpoints s) in
                   loop order) st).2)
    = apply_writes (w_mem (world st)) written ∧
    Forall (fun ad => ∃ bp, breakpoints (srv st) !! ad.1 = Some bp ∧
                            bytes_of (srv st) bp = Some ad.2) written.
Proof.
  intros Hloop. rewrite bind_eq. cbn [get_srv]. rewrite bind_eq.
  destruct (range_map_order (breakpoints (srv st)) st) as (order & -> & Hperm).
  rewrite Hloop.
  match goal with |- context [poke_loop g bytes_of order ?st0] =>
    destruct (poke_loop_mem g bytes_of order st0) as (written & Hmem & Hall) end.
  cbn [srv world w_mem with_rand] in *.
  exists written. split; [assumption|].
  eapply Forall_impl; [exact Hall|]. intros ad (bp & Hin & Hbytes).
  exists bp. split; [|assumption]. by apply (elem_of_order _ _ _ _ Hperm).
Qed.

Lemma setBreakpoints_mem st :
  ∃ written,
    w_mem (world (setBreakpoints st).2) = apply_writes (w_mem (world st)) written ∧
    Forall (fun ad => is_Some (breakpoints (srv st) !! ad.1) ∧
                      Z.of_nat (length ad.2) = BreakpointSize (arch (srv st))) written.
Proof.
  destruct (range_poke_mem SetBreakpointsFailed
              (fun s _ => slice_to (BreakpointInstr (arch s)) (BreakpointSize (arch s)))
              setBreakpoints_loop st setBreakpoints_loop_poke_loop) as (written & Hmem & Hall).
  exists written. split; [exact Hmem|].
  eapply Forall_impl; [exact Hall|]. intros ad (bp & Hin & Hbytes).
  apply slice_to_Some in Hbytes as (_ & Hn & _). split; [by exists bp|assumption].
Qed.

Lemma liftBreakpoints_mem st :
  ∃ written,
    w_mem (world (liftBreakpoints st).2) = apply_writes (w_mem (world st)) written ∧
    Forall (fun ad => is_Some (breakpoints (srv st) !! ad.1) ∧
                      Z.of_nat (length ad.2) = BreakpointSize (arch (srv st))) written.
Proof.
  destruct (range_poke_mem LiftBreakpointsFailed
              (fun s bp => slice_to (origInstr bp) (BreakpointSize (arch s)))
              liftBreakpoints_loop st liftBreakpoints_loop_poke_loop) as (written & Hmem & Hall).
  exists written. split; [exact Hmem|].
  eapply Forall_impl; [exact Hall|]. intros ad (bp & Hin & Hbytes).
  apply slice_to_Some in Hbytes as (_ & Hn & _). split; [by exists bp|assumption].
Qed.

Lemma uncovered_outside_patches s x written :
  ¬ in_patch s x →
  Forall (fun ad => is_Some (breakpoints s !! ad.1) ∧
                    Z.of_nat (length ad.2) = BreakpointSize (arch s)) written →
  Forall (fun ad => ¬ covers ad x) written.
Proof.
  intros Hout Hall. eapply Forall_impl; [exact Hall|].
  intros ad [[bp Hbp] Hn] Hcov. apply Hout. exists ad.1, bp. split; [assumption|].
  unfold covers in Hcov. lia.
Qed.

(** X9.  Patches stay in place.  However they end, install and lift write
    the debuggee's memory nowhere but in the BreakpointSize bytes at the pc
    of an entry of the table, and they leave its registers alone. *)
Theorem patches_stay_in_place (st : State) (x : Z) :
  ¬ in_patch (srv st) x →
  w_mem (world (setBreakpoints st).2) !! x = w_mem (world st) !! x ∧
  w_mem (world (liftBreakpoints st).2) !! x = w_mem (world st) !! x ∧
  w_regs (world (setBreakpoints st).2) = w_regs (world st) ∧
  w_regs (world (liftBreakpoints st).2) = w_regs (world st).
Proof.
  intros Hout. split_and!.
  - destruct (setBreakpoints_mem st) as (written & -> & Hall).
    apply apply_writes_uncovered. by eapply uncovered_outside_patches.
  - destruct (liftBreakpoints_mem st) as (written & -> & Hall).
    apply apply_writes_uncovered. by eapply uncovered_outside_patches.
  - apply (setBreakpoints_outcome st).
  - apply (liftBreakpoints_outcome st).
Qed.

(** X10.  Install, then lift, is no change.  From a state where the memory
    holds the saved bytes of every entry, a lift that returns without error
    after an install, whether the install went through or stopped at an
    error half-way, leaves the memory of the debuggee byte for byte as it
    was before the install, whatever the order of the entries and even when
    patches overlap. *)
Theorem install_then_lift_restores (st : State) :
  at_rest st →
  (liftBreakpoints (setBreakpoints st).2).1 = Ok tt →
  w_mem (world (liftBreakpoints (setBreakpoints st).2).2) = w_mem (world st).
Proof.
  intros Hrest Hok.
  destruct (setBreakpoints_mem st) as (written1 & Hmem1 & Hall1).
  pose proof (setBreakpoints_outcome st) as (Hsrv & _). cbn zeta in Hsrv.
  pose proof (liftBreakpoints_outcome (setBreakpoints st).2)
    as (_ & _ & _ & _ & poked & rest & Hperm & Hsl & _ & Hdone).
  cbn zeta in Hdone. destruct (Hdone Hok) as [-> Hmem2]. clear Hdone.
  rewrite app_nil_r in Hperm. rewrite Hsrv in *.
  rewrite Hmem2, Hmem1. clear Hmem1 Hmem2 Hok.
  set (m0 := w_mem (world st)).
  set (written2 := pokes_of (saved_bytes (srv st)) poked).
  assert (Hagree : ∀ ad, ad ∈ written2 → mem_read m0 ad.1 (length ad.2) = Some ad.2).
  { intros ad Had. apply elem_of_pokes_of_inv in Had as (pc & bp & Hin & ->).
    apply (elem_of_order _ _ _ _ Hperm) in Hin.
    pose proof (Hrest pc bp Hin) as Hr. cbn [fst snd].
    rewrite (mem_read_length _ _ _ _ Hr). exact Hr. }
  apply map_eq. intros x.
  destruct (decide (Exists (fun ad => covers ad x) written2)) as [Hin|Hout].
  - by apply (apply_writes_covered m0).
  - apply not_Exists_Forall in Hout; [|intros; apply _].
    rewrite apply_writes_uncovered by assumption.
    apply apply_writes_uncovered.
    eapply Forall_impl; [exact Hall1|]. intros ad [[bp Hbp] Hn] Hcov.
    assert (Had : (ad.1, saved_bytes (srv st) bp) ∈ written2).
    { apply elem_of_pokes_of. by apply (elem_of_order _ _ _ _ Hperm). }
    rewrite Forall_forall in Hout. apply (Hout _ Had).
    pose proof (Hrest _ _ Hbp) as Hr. apply mem_read_length in Hr.
    unfold covers in *. cbn [fst snd]. rewrite Hr. unfold patch_width. lia.
Qed.

(** ** Breakpoint and the debuggee *)

Lemma Breakpoint_loop_peeks addrs : ∀ bp0 st,
  ∃ peeks,
    world (Breakpoint_loop addrs bp0 st).2
    = mkWorld (w_mem (world st)) (w_regs (world st)) (w_waits (world st))
              (w_spawns (world st)) (w_files (world st)) (w_rand (world st))
              (w_log (world st) ++ peeks) ∧
    Forall (fun c => ∃ a, c = SysPeek (stoppedPid (srv st)) a (patch_width (srv st))) peeks.
Proof.
  assert (Hnone : ∀ w : World,
            w = mkWorld (w_mem w) (w_regs w) (w_waits w) (w_spawns w) (w_files w) (w_rand w)
                        (w_log w ++ [])).
  { intros w. rewrite app_nil_r. by destruct w. }
  induction addrs as [|a addrs IH]; intros bp0 [s w]; cbn [srv world].
  - exists []. split; [apply Hnone|constructor].
  - cbn [Breakpoint_loop]. rewrite bind_eq. cbn [get_srv srv world].
    destruct (evalAddress s a) as [err|k].
    { exists []. split; [apply Hnone|constructor]. }
    destruct (has_breakpoint s k).
    { exists []. split; [apply Hnone|constructor]. }
    destruct (slice_to (origInstr bp0) (BreakpointSize (arch s))) as [out|] eqn:Hsl.
    2:{ exists []. split; [apply Hnone|constructor]. }
    apply slice_to_Some in Hsl as (_ & Hn & _).
    assert (Hw : length out = patch_width s) by (unfold patch_width; lia).
    rewrite bind_eq, run_peek, Hw.
    destruct (traced w (stoppedPid s)).
    2:{ exists [SysPeek (stoppedPid s) k (patch_width s)]. split; [reflexivity|].
        constructor; [by eexists|constructor]. }
    destruct (mem_read (w_mem w) k (patch_width s)) as [peeked|].
    2:{ exists [SysPeek (stoppedPid s) k (patch_width s)]. split; [reflexivity|].
        constructor; [by eexists|constructor]. }
    rewrite bind_eq. cbn [modify_srv srv world].
    match goal with |- context [Breakpoint_loop addrs ?b ?st0] =>
      destruct (IH b st0) as (peeks & -> & Hall) end.
    cbn [srv world w_mem w_regs w_waits w_spawns w_files w_rand w_log logged
         stoppedPid set_breakpoints] in *.
    exists (SysPeek (stoppedPid s) k (patch_width s) :: peeks).
    split; [by rewrite <- app_assoc|]. constructor; [by eexists|exact Hall].
Qed.

(** X11.  Breakpoint does not touch the debuggee.  However it ends, the
    handler leaves the memory and the registers of the debuggee and all the
    kernel holds as they were: the only calls it issues are peeks of
    BreakpointSize bytes on the stopped task.  The breakpoint instruction is
    written by the next Resume, not before. *)
Theorem Breakpoint_only_peeks (Address : string) (st : State) :
  ∃ peeks,
    world (Breakpoint Address st).2
    = mkWorld (w_mem (world st)) (w_regs (world st)) (w_waits (world st))
              (w_spawns (world st)) (w_files (world st)) (w_rand (world st))
              (w_log (world st) ++ peeks) ∧
    Forall (fun c => ∃ a, c = SysPeek (stoppedPid (srv st)) a (patch_width (srv st))) peeks.
Proof.
  unfold Breakpoint. rewrite bind_eq. cbn [get_srv].
  destruct (eval (srv st) Address) as [err|addrs].
  - exists []. rewrite app_nil_r. split; [by destruct st as [s []]|constructor].
  - apply Breakpoint_loop_peeks.
Qed.

(** The request whose expression evaluates to one address that can be
    probed. *)
Lemma Breakpoint_one_address Address a st k bytes :
  eval (srv st) Address = inr [a] →
  evalAddress (srv st) a = inr k →
  breakpoints (srv st) !! k = None →
  0 ≤ BreakpointSize (arch (srv st)) ≤ MaxBreakpointSize (arch (srv st)) →
  traced (world st) (stoppedPid (srv st)) = true →
  mem_read (w_mem (world st)) k (patch_width (srv st)) = Some bytes →
  Breakpoint Address st =
    (Ok tt,
     mkState
       (set_breakpoints
          (<[k := mkBreakpoint k
                    (bytes ++ replicate (length (BreakpointInstr (arch (srv st)))
                                         - patch_width (srv st)) x00)]>
             (breakpoints (srv st))) (srv st))
       (logged (SysPeek (stoppedPid (srv st)) k (patch_width (srv st))) (world st))).
Proof.
  intros Hev Ha Hfree Hsize Htr Hmem. destruct st as [s w]. cbn [srv world] in *.
  unfold Breakpoint. rewrite bind_eq. cbn [get_srv srv]. rewrite Hev.
  cbn [Breakpoint_loop]. rewrite bind_eq. cbn [get_srv srv]. rewrite Ha.
  apply has_breakpoint_false in Hfree. rewrite Hfree.
  unfold MaxBreakpointSize in Hsize.
  assert (Hsl : slice_to (origInstr (zero_breakpoint (arch s))) (BreakpointSize (arch s))
                = Some (replicate (patch_width s) x00)).
  { unfold slice_to, zero_breakpoint. cbn [origInstr]. rewrite length_replicate.
    destruct (0 <=? BreakpointSize (arch s)) eqn:Hlo; [|apply Z.leb_gt in Hlo; lia].
    destruct (BreakpointSize (arch s) <=? Z.of_nat (length (BreakpointInstr (arch s))))
      eqn:Hhi; [|apply Z.leb_gt in Hhi; lia].
    cbn. f_equal. rewrite take_replicate. f_equal. unfold patch_width. lia. }
  rewrite Hsl, length_replicate. rewrite bind_eq, run_peek. cbn [world srv].
  rewrite Htr, Hmem. rewrite bind_eq. cbn [modify_srv srv world ret].
  unfold zero_breakpoint. cbn [origInstr]. rewrite drop_replicate. reflexivity.
Qed.

(** X12.  What Breakpoint saves.  When the expression evaluates to one
    address, the address to a pc without breakpoint, and the BreakpointSize
    bytes at the pc can be read from the stopped task, the request succeeds
    with one peek and no other call; the table gains the entry of the pc,
    whose saved instruction is the bytes read and zeroes up to
    MaxBreakpointSize, and nothing else changes. *)
Theorem Breakpoint_saves_instruction (Address a : string) (st : State) (k : Z)
    (bytes : list byte) :
  eval (srv st) Address = inr [a] →
  evalAddress (srv st) a = inr k →
  breakpoints (srv st) !! k = None →
  0 ≤ BreakpointSize (arch (srv st)) ≤ MaxBreakpointSize (arch (srv st)) →
  traced (world st) (stoppedPid (srv st)) = true →
  mem_read (w_mem (world st)) k (patch_width (srv st)) = Some bytes →
  Breakpoint Address st =
    (Ok tt,
     mkState
       (set_breakpoints
          (<[k := mkBreakpoint k
                    (bytes ++ replicate (length (BreakpointInstr (arch (srv st)))
                                         - patch_width (srv st)) x00)]>
             (breakpoints (srv st))) (srv st))
       (logged (SysPeek (stoppedPid (srv st)) k (patch_width (srv st))) (world st))).
Proof. apply Breakpoint_one_address. Qed.

Lemma digit_not_prefixed expr :
  starts_with_digit expr = true →
  String.prefix "re:" expr = false ∧ String.prefix "sym:" expr = false ∧
  String.prefix "src:" expr = false.
Proof.
  destruct expr as [|c rest]; [discriminate|]. cbn [starts_with_digit]. intros Hd.
  split_and!; cbn [String.prefix];
    match goal with |- context [ascii_dec ?x c] => destruct (ascii_dec x c) as [<-|] end;
    try reflexivity; discriminate Hd.
Qed.

(** X13.  A numeric address breaks at the function.  A Breakpoint request
    whose expression is a number is evaluated to the name of the function
    the address lies in, and the name to the address of that function: the
    entry goes to the table under the address of the symbol, with the
    instruction saved from there, and not under the address that was given
    when the two differ. *)
Theorem Breakpoint_number_breaks_at_symbol (expr funcName : string) (st : State)
    (addr entry : Z) (bytes : list byte) :
  starts_with_digit expr = true →
  ParseUint expr = inr addr →
  lookupPC (srv st) addr = inr funcName →
  lookupSym (srv st) funcName = inr entry →
  breakpoints (srv st) !! entry = None →
  0 ≤ BreakpointSize (arch (srv st)) ≤ MaxBreakpointSize (arch (srv st)) →
  traced (world st) (stoppedPid (srv st)) = true →
  mem_read (w_mem (world st)) entry (patch_width (srv st)) = Some bytes →
  (Breakpoint expr st).1 = Ok tt ∧
  breakpoints (srv (Breakpoint expr st).2)
  = <[entry := mkBreakpoint entry
                 (bytes ++ replicate (length (BreakpointInstr (arch (srv st)))
                                      - patch_width (srv st)) x00)]>
      (breakpoints (srv st)) ∧
  (addr ≠ entry → breakpoints (srv (Breakpoint expr st).2) !! addr
                  = breakpoints (srv st) !! addr).
Proof.
  intros Hd Hparse Hpc Hsym Hfree Hsize Htr Hmem.
  destruct (digit_not_prefixed expr Hd) as (Hre & Hsy & Hsr).
  assert (Hev : eval (srv st) expr = inr [funcName]).
  { unfold eval. by rewrite Hre, Hsy, Hsr, Hd, Hparse, Hpc. }
  assert (Ha : evalAddress (srv st) funcName = inr entry).
  { unfold evalAddress. by rewrite Hsym. }
  rewrite (Breakpoint_one_address expr funcName st entry bytes Hev Ha Hfree Hsize Htr Hmem).
  cbn [fst snd srv breakpoints set_breakpoints]. split; [reflexivity|].
  split; [reflexivity|]. intros Hne. by rewrite lookup_insert_ne.
Qed.

Lemma src_prefixed expr :
  String.prefix "src:" expr = true →
  String.prefix "re:" expr = false ∧ String.prefix "sym:" expr = false.
Proof.
  destruct expr as [|c1 [|c2 rest]]; cbn [String.prefix]; try discriminate.
  - destruct (ascii_dec "s" c1); discriminate.
  - destruct (ascii_dec "s" c1) as [<-|]; [|discriminate].
    destruct (ascii_dec "r" c2) as [<-|]; [|discriminate]. intros _. by split.
Qed.

(** X14.  No breakpoint at a source line.  A Breakpoint request with a src:
    expression evaluates the address to its file and line and then takes the
    text file:line for an address: unless a symbol has that name or the text
    parses as a number, the request fails, the text is reported as neither
    symbol nor number, and nothing has changed, no call issued. *)
Theorem Breakpoint_at_source_line_fails (expr file : string) (line addr : Z) (st : State) :
  String.prefix "src:" expr = true →
  ParseUint (string_from 4 expr) = inr addr →
  lookupSource (srv st) addr = (file, line, true) →
  (∀ e, lookupSym (srv st) (file ++ ":" ++ sprint_d line)%string ≠ inr e) →
  (∀ e, ParseUint (file ++ ":" ++ sprint_d line)%string ≠ inr e) →
  Breakpoint expr st
  = (Abort (Err (NotAnAddress (file ++ ":" ++ sprint_d line)%string)), st).
Proof.
  intros Hsrc Hparse Hline Hnosym Hnonum.
  destruct (src_prefixed expr Hsrc) as (Hre & Hsy).
  unfold Breakpoint. rewrite bind_eq. cbn [get_srv].
  unfold eval. rewrite Hre, Hsy, Hsrc, Hparse, Hline.
  cbn [Breakpoint_loop]. rewrite bind_eq. cbn [get_srv]. unfold evalAddress.
  destruct (lookupSym (srv st) (file ++ ":" ++ sprint_d line)%string) as [err|e] eqn:Hs;
    [|by destruct (Hnosym e)].
  destruct (ParseUint (file ++ ":" ++ sprint_d line)%string) as [err'|e] eqn:Hp;
    [reflexivity|by destruct (Hnonum e)].
Qed.

(** ** The calls of Resume *)

Lemma resume_call_tables s s' c : same_tables s s' → resume_call s c → resume_call s' c.
Proof.
  intros (Ha & _ & _ & _ & _ & Hb & _). destruct c; cbn; try done. by rewrite Ha, Hb.
Qed.

#[local] Instance resume_calls_preorder : PreOrder resume_calls.
Proof.
  split.
  - intros st. split; [reflexivity|]. exists []. by rewrite app_nil_r.
  - intros st1 st2 st3 [Ht12 (c12 & Hl12 & Hc12)] [Ht23 (c23 & Hl23 & Hc23)].
    split; [by etransitivity|]. exists (c12 ++ c23). split.
    + by rewrite Hl23, Hl12, app_assoc.
    + apply Forall_app. split; [assumption|].
      eapply Forall_impl; [exact Hc23|]. intros c. apply resume_call_tables.
      destruct Ht12 as (? & ? & ? & ? & ? & ? & ?). by split_and!.
Qed.

Lemma keeps_calls_one {A} (k : World → result A * World) c :
  (∀ s, resume_call s c) →
  (∀ w, w_log (k w).2 = w_log w ++ [c]) →
  keeps resume_calls (lift_k k).
Proof.
  intros Hc Hk [s w]. unfold lift_k. cbn [world srv]. specialize (Hk w).
  destruct (k w) as [r w']. cbn [snd srv world] in *. split; [by split_and!|].
  exists [c]. split; [assumption|]. constructor; [apply Hc|constructor].
Qed.

Lemma keeps_calls_modify_srv g :
  (∀ s, same_tables s (g s)) → keeps resume_calls (modify_srv g).
Proof.
  intros Hg [s w]. split; [apply Hg|]. exists []. by rewrite app_nil_r.
Qed.

Lemma keeps_calls_wait pid : keeps resume_calls (wait pid).
Proof.
  intros [s w]. unfold wait, lift_k, k_wait. cbn [world srv].
  destruct (w_waits w) as [|[e|ev] rest]; cbn [snd srv world];
    (split; [by split_and!|]); eexists [_]; (split; [reflexivity|]);
    (constructor; [exact I|constructor]).
Qed.

Lemma keeps_calls_cont pid sig : keeps resume_calls (ptraceCont pid sig).
Proof.
  apply (keeps_calls_one _ (SysCont pid sig)); [done|].
  intros w. unfold k_cont. by destruct (traced _ pid).
Qed.

Lemma keeps_calls_singlestep pid : keeps resume_calls (ptraceSingleStep pid).
Proof.
  apply (keeps_calls_one _ (SysSingleStep pid)); [done|].
  intros w. unfold k_singlestep. by destruct (traced _ pid).
Qed.

Lemma keeps_calls_setoptions pid o : keeps resume_calls (ptraceSetOptions pid o).
Proof.
  apply (keeps_calls_one _ (SysSetOptions pid o)); [done|].
  intros w. unfold k_setoptions. by destruct (traced _ pid).
Qed.

Lemma keeps_calls_getregs pid : keeps resume_calls (ptraceGetRegs pid).
Proof.
  apply (keeps_calls_one _ (SysGetRegs pid)); [done|].
  intros w. unfold k_getregs. by destruct (w_regs _ !! pid).
Qed.

Lemma keeps_calls_setregs pid r : keeps resume_calls (ptraceSetRegs pid r).
Proof.
  apply (keeps_calls_one _ (SysSetRegs pid r)); [done|].
  intros w. unfold k_setregs. by destruct (traced _ pid).
Qed.

Lemma resume_call_pokes s pid (bytes : breakpoint → list byte) poked :
  Forall (fun e => is_Some (breakpoints s !! e.1) ∧
                   Z.of_nat (length (bytes e.2)) = BreakpointSize (arch s)) poked →
  Forall (resume_call s) (poke_calls pid (pokes_of bytes poked)).
Proof.
  intros Hall. unfold poke_calls, pokes_of. rewrite <- list_fmap_compose.
  apply Forall_fmap. eapply Forall_impl; [exact Hall|]. by intros [pc bp].
Qed.

Lemma poked_in_table {V} (m : gmap Z V) (poked rest : list (Z * V)) :
  poked ++ rest ≡ₚ map_to_list m → Forall (fun e => m !! e.1 = Some e.2) poked.
Proof.
  intros Hperm. apply Forall_forall. intros [k v] Hin.
  apply (elem_of_order m (poked ++ rest) k v Hperm). apply elem_of_app. by left.
Qed.

Lemma keeps_calls_setBreakpoints : keeps resume_calls setBreakpoints.
Proof.
  intros st.
  pose proof (setBreakpoints_outcome st)
    as (Hs & _ & _ & _ & poked & rest & Hperm & Hsl & Hlog & _). cbn zeta in *.
  split; [unfold tables_kept; rewrite Hs; by split_and!|].
  eexists. split; [exact Hlog|]. apply resume_call_pokes.
  pose proof (poked_in_table _ _ _ Hperm) as Hin.
  apply Forall_forall. intros e He. rewrite Forall_forall in Hin, Hsl. split.
  - rewrite (Hin e He). by eexists.
  - destruct (slice_to_Some _ _ _ (Hsl e He)) as (_ & Hn & _). exact Hn.
Qed.

Lemma keeps_calls_liftBreakpoints : keeps resume_calls liftBreakpoints.
Proof.
  intros st.
  pose proof (liftBreakpoints_outcome st)
    as (Hs & _ & _ & _ & poked & rest & Hperm & Hsl & Hlog & _). cbn zeta in *.
  split; [unfold tables_kept; rewrite Hs; by split_and!|].
  eexists. split; [exact Hlog|]. apply resume_call_pokes.
  pose proof (poked_in_table _ _ _ Hperm) as Hin.
  apply Forall_forall. intros e He. rewrite Forall_forall in Hin, Hsl. split.
  - rewrite (Hin e He). by eexists.
  - destruct (slice_to_Some _ _ _ (Hsl e He)) as (_ & Hn & _). exact Hn.
Qed.

Ltac calls_step :=
  match goal with
  | |- keeps _ (bind _ _) => apply keeps_bind; [apply _| |intros ?]
  | |- keeps _ (wrap _ _) => apply keeps_wrap
  | |- keeps _ (ret _) => apply keeps_ret, _
  | |- keeps _ (throw _) => apply keeps_throw, _
  | |- keeps _ panic => apply keeps_panic, _
  | |- keeps _ get_srv => apply keeps_get_srv, _
  | |- keeps _ (ptraceCont _ _) => apply keeps_calls_cont
  | |- keeps _ (ptraceSingleStep _) => apply keeps_calls_singlestep
  | |- keeps _ (ptraceSetOptions _ _) => apply keeps_calls_setoptions
  | |- keeps _ (ptraceGetRegs _) => apply keeps_calls_getregs
  | |- keeps _ (ptraceSetRegs _ _) => apply keeps_calls_setregs
  | |- keeps _ (wait _) => apply keeps_calls_wait
  | |- keeps _ setBreakpoints => apply keeps_calls_setBreakpoints
  | |- keeps _ liftBreakpoints => apply keeps_calls_liftBreakpoints
  | |- keeps _ (modify_srv _) => apply keeps_calls_modify_srv; intros ?; by repeat split
  | |- keeps _ (if ?b then _ else _) => destruct b
  | |- keeps _ (match ?v with _ => _ end) => destruct v
  end.

Lemma keeps_calls_waitForTrap pid : keeps resume_calls (waitForTrap pid).
Proof.
  assert (Hloop : ∀ turns, keeps resume_calls (waitForTrap_loop turns pid)).
  { induction turns as [|turns IH]; cbn [waitForTrap_loop].
    - intros st. reflexivity.
    - repeat first [exact IH | calls_step]. }
  intros st. unfold waitForTrap. apply Hloop.
Qed.

Lemma keeps_calls_Resume_stop : keeps resume_calls Resume_stop.
Proof.
  intros st. unfold Resume_stop.
  pose proof (keeps_calls_waitForTrap (-1) st) as Hw.
  destruct (waitForTrap (-1) st) as [[wpid|[e| |]] st1]; cbn [snd] in *; try exact Hw.
  etransitivity; [exact Hw|]. clear Hw. revert st1.
  change (keeps resume_calls
    (let* _ := modify_srv (set_stoppedPid wpid) in
     let* _ := liftBreakpoints in
     let* s := get_srv in
     let* regs := wrap GetRegsFailed (ptraceGetRegs (stoppedPid s)) in
     let* _ := modify_srv (set_stoppedRegs regs) in
     let* s := get_srv in
     let regs := set_Rip (uint64 (Rip (stoppedRegs s) - uint64 (BreakpointSize (arch s))))
                         (stoppedRegs s) in
     let* _ := modify_srv (set_stoppedRegs regs) in
     let* s := get_srv in
     let* _ := wrap SetRegsFailed (ptraceSetRegs (stoppedPid s) (stoppedRegs s)) in
     ret (mkStatus (Rip (stoppedRegs s)) (Rsp (stoppedRegs s))))).
  repeat first [calls_step | progress cbn zeta].
Qed.

(** X15.  The calls of Resume.  However it ends, Resume keeps the tables of
    the server, and every call it issues is a wait, a continue, a step, the
    options, the registers read or written back, or a poke of BreakpointSize
    bytes at the pc of an entry of the breakpoint table: it writes the
    debuggee's memory nowhere else, and with an empty table not at all. *)
Theorem Resume_calls_only (st : State) :
  ∃ calls,
    w_log (world (Resume st).2) = w_log (world st) ++ calls ∧
    Forall (resume_call (srv st)) calls ∧
    (breakpoints (srv st) = ∅ → Forall (fun c => ¬ is_poke c) calls).
Proof.
  assert (Hkeeps : keeps resume_calls Resume).
  { unfold Resume, Resume_prologue, Resume_continue.
    repeat first [apply keeps_calls_Resume_stop | apply keeps_calls_waitForTrap | calls_step]. }
  destruct (Hkeeps st) as [_ (calls & Hlog & Hall)].
  exists calls. split; [assumption|]. split; [assumption|].
  intros Hempty. eapply Forall_impl; [exact Hall|].
  intros [] Hc Hp; try done. cbn in Hc. rewrite Hempty, lookup_empty in Hc.
  by destruct Hc as [[? ?] _].
Qed.

(** ** Resume when the wait fails *)

(** X16.  A lost wait leaves the traps in.  When Resume has installed the
    breakpoints and continued the debuggee and the wait that follows fails,
    Resume returns that error with nothing lifted: the stopped task is
    recorded as task 0, the table is as it was, the memory is the one the
    continue left, and it holds the breakpoint instruction at every entry
    when no two patches meet. *)
Theorem Resume_lost_wait_leaves_traps (st st1 st2 : State) (e : Z)
    (rest : list WaitAnswer) :
  Resume_prologue st = (Ok tt, st1) →
  Resume_continue st1 = (Ok tt, st2) →
  w_waits (world st2) = WaitErr e :: rest →
  (Resume st).1 = Abort (Err (WaitFailed (Errno e))) ∧
  stoppedPid (srv (Resume st).2) = 0 ∧
  breakpoints (srv (Resume st).2) = breakpoints (srv st) ∧
  w_mem (world (Resume st).2) = w_mem (world st2) ∧
  (separate (srv st) → patched (Resume st).2).
Proof.
  intros Hpro Hcont Hwaits.
  pose proof (keeps_frame_Resume_prologue st) as [Ht1 _]. rewrite Hpro in Ht1.
  pose proof (keeps_frame_Resume_continue st1) as [Ht2 _]. rewrite Hcont in Ht2.
  cbn [snd] in Ht1, Ht2.
  destruct Ht1 as (Ha1 & _ & _ & _ & _ & Hb1 & _).
  destruct Ht2 as (Ha2 & _ & _ & _ & _ & Hb2 & _).
  assert (Hstop : Resume st =
                  (Abort (Err (WaitFailed (Errno e))),
                   mkState (set_stoppedPid 0 (srv st2))
                           (logged (SysWait (-1) None) (with_waits rest (world st2))))).
  { unfold Resume. rewrite bind_eq, Hpro, bind_eq, Hcont.
    destruct st2 as [s2 w2]. cbn [world] in Hwaits.
    unfold Resume_stop, waitForTrap. cbn [world waitForTrap_loop].
    rewrite bind_eq, run_wait, Hwaits. reflexivity. }
  rewrite Hstop. cbn [fst snd srv world stoppedPid set_stoppedPid breakpoints w_mem
                      logged with_waits].
  split_and!; try reflexivity; [congruence|].
  intros Hsep.
  assert (Hsep1 : separate (srv st1)).
  { intros pc1 pc2. rewrite Hb1, Ha1. apply Hsep. }
  pose proof (Resume_continue_patched st1 st2 Hsep1 Hcont) as Hp.
  intros pc bp Hbp. exact (Hp pc bp Hbp).
Qed.

(** ** waitForTrap when the debuggee is gone *)

(** X17.  The exit of the debuggee is an error of the continue.  A status
    that is no stop, the exit of the task or its death by a signal, is to
    waitForTrap a status like any other that is no trap: it continues the
    task that reported it, and the kernel, for which the task is gone,
    refuses.  The wait ends there with the error of the continue, and the
    part of Resume that follows its continue returns it with task 0
    recorded as the stopped task. *)
Theorem waitForTrap_after_exit (pid : Z) (st : State) (ev : WaitEvent)
    (rest : list WaitAnswer) :
  w_waits (world st) = WaitEv ev :: rest →
  Stopped (ev_status ev) = false →
  (waitForTrap pid st).1 = Abort (Err (ContinueFailed (Errno ESRCH))) ∧
  w_log (world (waitForTrap pid st).2)
  = w_log (world st) ++ [SysWait pid (Some (ev_pid ev, ev_status ev)); SysCont (ev_pid ev) 0] ∧
  w_waits (world (waitForTrap pid st).2) = rest ∧
  (Resume_stop st).1 = Abort (Err (ContinueFailed (Errno ESRCH))) ∧
  stoppedPid (srv (Resume_stop st).2) = 0.
Proof.
  intros Hwaits Hgone.
  assert (Hnotrap : is_trap (ev_status ev) = false).
  { unfold is_trap, StopSignal. by rewrite Hgone. }
  assert (Hrun : ∀ p, waitForTrap p st =
            (Abort (Err (ContinueFailed (Errno ESRCH))),
             mkState (srv st) (logged (SysCont (ev_pid ev) 0) (k_wait p (world st)).2))).
  { intros p. destruct st as [s w]. cbn [world srv] in *.
    unfold waitForTrap. cbn [world waitForTrap_loop].
    rewrite bind_eq, run_wait, Hwaits. cbn [fst snd]. rewrite Hnotrap.
    rewrite bind_eq, run_cont.
    assert (Htr : traced (k_wait p w).2 (ev_pid ev) = false).
    { unfold k_wait, traced. rewrite Hwaits, Hgone.
      cbn [snd w_regs logged with_waits with_regs]. by rewrite lookup_delete_eq. }
    by rewrite Htr. }
  split_and!.
  - by rewrite Hrun.
  - rewrite Hrun. unfold k_wait. rewrite Hwaits. cbn [snd world w_log logged with_waits
      with_regs with_mem]. by rewrite <- app_assoc.
  - rewrite Hrun. unfold k_wait. by rewrite Hwaits.
  - unfold Resume_stop. by rewrite Hrun.
  - unfold Resume_stop. by rewrite Hrun.
Qed.

(** ** Run *)

(** X18.  A Run that fails leaves no process.  Run kills the process the
    server has before it starts the new one; when the start fails, the
    server is left without a process, the old one killed and forgotten, its
    memory and registers gone, and the calls issued are the kill, if there
    was a process, and the start.  The next Resume fails for want of a
    process and changes nothing. *)
Theorem failed_Run_leaves_no_process (st : State) (x : abort) :
  (Run st).1 = Abort x →
  proc (srv (Run st).2) = None ∧
  w_log (world (Run st).2)
  = w_log (world st)
      ++ match proc (srv st) with Some p => [SysKill (Pid p)] | None => [] end
      ++ [SysStart (executable (srv st))] ∧
  (is_Some (proc (srv st)) →
     procIsUp (srv (Run st).2) = false ∧ stoppedPid (srv (Run st).2) = 0 ∧
     w_mem (world (Run st).2) = ∅ ∧ w_regs (world (Run st).2) = ∅) ∧
  Resume (Run st).2 = (Abort (Err NoProcess), (Run st).2).
Proof.
  rewrite Run_eq. destruct st as [s w]. unfold after_kill. cbn [srv world].
  destruct (proc s) as [p|] eqn:Hproc; rewrite run_start;
    cbn [world srv w_spawns k_kill with_regs with_mem logged executable set_stoppedRegs
         set_stoppedPid set_procIsUp set_proc];
    destruct (w_spawns w) as [|[e|sp] rest]; try discriminate; intros _;
    cbn [fst snd srv world proc procIsUp stoppedPid w_log w_mem w_regs with_spawns logged
         k_kill with_regs with_mem set_stoppedRegs set_stoppedPid set_procIsUp set_proc];
    (split_and!;
     [ first [reflexivity | exact Hproc]
     | by rewrite <- ?app_assoc
     | first [by intros _ | by intros [? [=]]]
     | unfold Resume, Resume_prologue; rewrite !bind_eq; cbn [get_srv srv proc];
       rewrite ?Hproc; reflexivity ]).
Qed.

(** X19.  A Run that succeeds starts afresh.  From a state where the process
    is marked as up only while there is one, a Run that returns without
    error leaves the new process, stopped, as the one task traced, with the
    image the start gave it; the task is recorded as the stopped one, and
    the process is not marked as up, so that the next Resume begins with the
    wait for its first stop. *)
Theorem Run_starts_afresh (st : State) :
  up_has_process (srv st) →
  (Run st).1 = Ok tt →
  ∃ sp rest,
    w_spawns (world st) = inr sp :: rest ∧
    proc (srv (Run st).2) = Some (mkProcess (sp_pid sp)) ∧
    stoppedPid (srv (Run st).2) = sp_pid sp ∧
    procIsUp (srv (Run st).2) = false ∧
    w_regs (world (Run st).2) = {[sp_pid sp := sp_regs sp]} ∧
    w_mem (world (Run st).2) = sp_mem sp ∧
    w_spawns (world (Run st).2) = rest.
Proof.
  intros Hup. rewrite Run_eq. destruct st as [s w]. unfold after_kill, up_has_process in *.
  cbn [srv world] in *.
  destruct (proc s) as [p|] eqn:Hproc; rewrite run_start;
    cbn [world srv w_spawns k_kill with_regs with_mem logged executable set_stoppedRegs
         set_stoppedPid set_procIsUp set_proc];
    destruct (w_spawns w) as [|[e|sp] rest]; try discriminate; intros _;
    exists sp, rest;
    cbn [fst snd srv world proc procIsUp stoppedPid w_log w_mem w_regs w_spawns with_spawns
         with_regs with_mem logged set_stoppedRegs set_stoppedPid set_procIsUp set_proc];
    split_and!; try reflexivity.
  destruct (procIsUp s); [|reflexivity]. by destruct (Hup eq_refl).
Qed.

Lemma Run_up_has_process st :
  up_has_process (srv st) → up_has_process (srv (Run st).2).
Proof.
  intros Hup. rewrite Run_eq. destruct st as [s w]. unfold after_kill, up_has_process in *.
  cbn [srv world] in *.
  destruct (proc s) as [p|] eqn:Hproc; rewrite run_start;
    cbn [world srv w_spawns k_kill with_regs with_mem logged executable set_stoppedRegs
         set_stoppedPid set_procIsUp set_proc];
    destruct (w_spawns w) as [|[e|sp] rest];
    cbn [fst snd srv proc procIsUp set_stoppedRegs set_stoppedPid set_procIsUp set_proc];
    try discriminate; try (intros _; by eexists).
  all: rewrite Hproc; exact Hup.
Qed.

Lemma Resume_without_process st :
  proc (srv st) = None → Resume st = (Abort (Err NoProcess), st).
Proof.
  intros Hproc. unfold Resume. rewrite bind_eq. unfold Resume_prologue. rewrite bind_eq.
  cbn [get_srv]. rewrite Hproc. reflexivity.
Qed.

Lemma invoke_up_has_process m st :
  up_has_process (srv st) → up_has_process (srv (invoke m st).2).
Proof.
  intros Hup.
  destruct m as [Name Mode|FD Len Offset|FD| | |Address|Expr|Count]; cbn [invoke].
  - destruct ((Open Name Mode st).1) as [[]|x] eqn:Hr.
    + by destruct (Open_Ok _ _ _ Hr) as [h ->].
    + by rewrite (Open_fails_untouched _ _ _ _ Hr).
  - by rewrite bind_ret_state, ReadAt_state.
  - by destruct (Close_cases FD st) as [[_ ->]|(fl & _ & _ & ->)].
  - by apply Run_up_has_process.
  - rewrite bind_ret_state. destruct (proc (srv st)) as [p|] eqn:Hproc.
    + intros _. destruct (keeps_frame_Resume st) as ((_ & _ & _ & _ & Hp & _) & _).
      rewrite Hp, Hproc. by eexists.
    + by rewrite (Resume_without_process st Hproc).
  - destruct (Breakpoint_tables Address st) as [-> _]. exact Hup.
  - by rewrite bind_ret_state, (proj1 (Eval_untouched Expr st)).
  - by rewrite bind_ret_state, (proj1 (Frames_untouched Count st)).
Qed.

(** X20.  Up only with a process.  When the process is marked as up only
    while the server holds one, as in a new server, it is so in every state
    the calls lead to: Run clears the mark with the process it kills, and
    Resume sets it only when there is a process. *)
Theorem up_only_with_process (ms : list Method) (st : State) :
  up_has_process (srv st) → up_has_process (srv (invoke_all ms st)).
Proof.
  revert st. induction ms as [|m ms IH]; intros st Hup; cbn [invoke_all]; [assumption|].
  by apply IH, invoke_up_has_process.
Qed.

(** ** Frames *)

(** The walk up to the fields of a formal parameter, once the entries
    before it are passed. *)
Lemma Frames_reaches_parameter st regs entry param skipped more acc :
  w_regs (world st) !! stoppedPid (srv st) = Some regs →
  entryForPC (srv st) (Rip regs) = inr entry →
  dw_Next (dwarfData (srv st)) (Offset entry) = skipped ++ NextEntry param :: more →
  Tag param = TagFormalParameter →
  Children param = false →
  let fp := uint64 (Rsp regs + uint64 (PointerSize (arch (srv st)))) in
  let st' := mkState (srv st) (logged (SysGetRegs (stoppedPid (srv st))) (world st)) in
  Frames_entries (srv st) fp (skipped ++ NextEntry param :: more) EmptyString st'
  = Frames_entries (srv st) fp (NextEntry param :: more) acc st' →
  Frames 1 st =
  bind (bind (Frames_fields (srv st) fp (Field param) 0 acc)
             (fun acc => Frames_entries (srv st) fp more acc))
       (fun frame => ret [mkFrame frame]) st'.
Proof.
  intros Hregs Hentry Hnext Htag Hch. destruct st as [s w]. cbn [srv world] in *.
  cbn zeta.
  set (fp := uint64 (Rsp regs + uint64 (PointerSize (arch s)))).
  set (st' := mkState s (logged (SysGetRegs (stoppedPid s)) w)).
  intros Hent.
  unfold Frames. cbn [Z.eqb Pos.eqb negb]. rewrite bind_eq. cbn [get_srv srv].
  rewrite bind_eq. rewrite <- (wrap_id (ptraceGetRegs (stoppedPid s))), run_getregs, Hregs.
  cbn beta iota. rewrite Hentry, Hnext. cbn beta iota. fold fp st'.
  rewrite (bind_eq _ _ st'), Hent.
  cbn [Frames_entries]. rewrite Htag.
  cbn [Z.eqb Pos.eqb negb TagFormalParameter]. rewrite Hch.
  symmetry. rewrite (bind_eq _ _ st'). reflexivity.
Qed.

(** Entries that are no formal parameters add nothing to the frame. *)
Lemma Frames_entries_others s fp skipped : ∀ more acc st,
  Forall (fun a => ∃ e, a = NextEntry e ∧ Tag e ≠ 0 ∧ Tag e ≠ TagFormalParameter) skipped →
  Frames_entries s fp (skipped ++ more) acc st = Frames_entries s fp more acc st.
Proof.
  induction skipped as [|a skipped IH]; intros more acc st Hp; [reflexivity|].
  apply Forall_cons in Hp as [(e & -> & Hn0 & Hnp) Hp]. cbn [app Frames_entries].
  apply Z.eqb_neq in Hn0, Hnp. rewrite Hn0, Hnp. cbn [negb]. apply IH, Hp.
Qed.

(** X21.  Where Frames reads an int.  For the first formal parameter of the
    function the debuggee is stopped in, with its name, its location and its
    type in that order, a type whose string form is int and whose size is
    the architecture's IntSize, Frames peeks IntSize bytes of the stopped
    task at the stack pointer plus PointerSize plus the offset of the
    location, and writes the parameter as its name, its offset from FP, its
    type and the value the architecture decodes from the bytes, in hex; the
    walk goes on with the entries that follow. *)
Theorem Frames_reads_int_parameter (st : State) (regs : PtraceRegs)
    (entry param : dwarf_Entry) (skipped more : list NextResult)
    (name : string) (v bytes : list byte) (offset off : Z) (t : dwarf_Type) :
  w_regs (world st) !! stoppedPid (srv st) = Some regs →
  entryForPC (srv st) (Rip regs) = inr entry →
  dw_Next (dwarfData (srv st)) (Offset entry) = skipped ++ NextEntry param :: more →
  Forall (fun a => ∃ e, a = NextEntry e ∧ Tag e ≠ 0 ∧ Tag e ≠ TagFormalParameter) skipped →
  Tag param = TagFormalParameter →
  Children param = false →
  Field param = [mkField AttrName (VString name); mkField AttrLocation (VBytes v);
                 mkField AttrType (VOffset off)] →
  evalLocation v = Some offset →
  dw_Type (dwarfData (srv st)) off = inr t →
  ty_String t = "int" →
  ty_Size t = IntSize (arch (srv st)) →
  0 ≤ IntSize (arch (srv st)) ≤ 8 →
  let fp := uint64 (Rsp regs + uint64 (PointerSize (arch (srv st)))) in
  let location := uint64 (fp + offset) in
  location ≠ 0 →
  mem_read (w_mem (world st)) location (Z.to_nat (IntSize (arch (srv st)))) = Some bytes →
  Frames 1 st =
  bind (Frames_entries (srv st) fp more
          ((((EmptyString ++ " " ++ name) ++ "(" ++ sprint_d offset ++ "(FP))")
            ++ "[" ++ "int" ++ "]") ++ "==" ++ sprint_x (Int (arch (srv st)) bytes))%string)
       (fun frame => ret [mkFrame frame])
       (mkState (srv st)
          (logged (SysPeek (stoppedPid (srv st)) location
                     (Z.to_nat (IntSize (arch (srv st)))))
             (logged (SysGetRegs (stoppedPid (srv st))) (world st)))).
Proof.
  intros Hregs Hentry Hnext Hskip Htag Hch Hfield Hloc Htype Hstr Hsize Hint fp location
         Hnz Hmem.
  rewrite (Frames_reaches_parameter st regs entry param skipped more EmptyString
             Hregs Hentry Hnext Htag Hch (Frames_entries_others _ _ _ _ _ _ Hskip)).
  rewrite Hfield.
  destruct st as [s w]. cbn [srv world] in *. fold fp.
  rewrite !bind_eq.
  cbn [Frames_fields Attr Val]. cbn [Z.eqb Pos.eqb AttrType AttrLocation AttrName].
  rewrite Hloc. fold location.
  cbn [Frames_fields Attr Val]. cbn [Z.eqb Pos.eqb AttrType AttrLocation AttrName].
  rewrite Htype, Hstr, Hsize, Z.eqb_refl. cbn [String.eqb Ascii.eqb Bool.eqb negb orb].
  apply Z.eqb_neq in Hnz. rewrite Hnz.
  assert (Hsl : slice_to (replicate 8 x00) (IntSize (arch s))
                = Some (replicate (Z.to_nat (IntSize (arch s))) x00)).
  { unfold slice_to. rewrite length_replicate.
    destruct (0 <=? IntSize (arch s)) eqn:Hlo; [|apply Z.leb_gt in Hlo; lia].
    destruct (IntSize (arch s) <=? Z.of_nat 8) eqn:Hhi; [|apply Z.leb_gt in Hhi; lia].
    cbn [andb]. f_equal. rewrite take_replicate. f_equal. lia. }
  rewrite Hsl, length_replicate. unfold bind.
  rewrite <- (wrap_id (ptracePeek _ _ _)), run_peek.
  assert (Htr : traced (logged (SysGetRegs (stoppedPid s)) w) (stoppedPid s) = true).
  { unfold traced. cbn [w_regs logged]. by rewrite Hregs. }
  rewrite Htr. cbn [w_mem logged]. rewrite Hmem. reflexivity.
Qed.

(** Fields that pass and are no location leave the location as it is. *)
Lemma Frames_fields_no_location s fp before : ∀ rest location acc st,
  Forall (fun fd => passes s fd ∧ Attr fd ≠ AttrLocation) before →
  ∃ acc',
    Frames_fields s fp (before ++ rest) location acc st
    = Frames_fields s fp rest location acc' st.
Proof.
  induction before as [|fd before IH]; intros rest location acc st Hp; [by eexists|].
  apply Forall_cons in Hp as [[Hfd Hnl] Hp]. cbn [app Frames_fields].
  destruct Hfd as [(Ha & _)|[(Ha & name & Hv)|[(Ha & off & t & Hv & Ht & Hno)|(Hn1 & Hn2 & Hn3)]]].
  - contradiction.
  - rewrite Ha, Hv. cbn. apply IH, Hp.
  - rewrite Ha, Hv, Ht. cbn.
    assert (Hb : negb (String.eqb (ty_String t) "int") || negb (ty_Size t =? IntSize (arch s))
                 = true).
    { destruct Hno as [->|Hne]; [reflexivity|].
      apply Z.eqb_neq in Hne. rewrite Hne. apply orb_true_r. }
    rewrite Hb. apply IH, Hp.
  - apply Z.eqb_neq in Hn1, Hn2, Hn3. rewrite Hn1, Hn2, Hn3. apply IH, Hp.
Qed.

(** X22.  The location must come first.  Frames takes the address of a
    parameter from the location attribute it has met so far among the fields
    of the entry: when the type attribute of an int parameter stands before
    its location, or the entry has no location, the handler returns the
    error of a missing location, having issued no call but the reading of
    the registers. *)
Theorem Frames_needs_location_first (st : State) (regs : PtraceRegs)
    (entry param : dwarf_Entry) (skipped more : list NextResult)
    (before after : list dwarf_Field) (off : Z) (t : dwarf_Type) :
  w_regs (world st) !! stoppedPid (srv st) = Some regs →
  entryForPC (srv st) (Rip regs) = inr entry →
  dw_Next (dwarfData (srv st)) (Offset entry) = skipped ++ NextEntry param :: more →
  Forall (passed_entry (srv st)) skipped →
  Tag param = TagFormalParameter →
  Children param = false →
  Field param = before ++ mkField AttrType (VOffset off) :: after →
  Forall (fun fd => passes (srv st) fd ∧ Attr fd ≠ AttrLocation) before →
  dw_Type (dwarfData (srv st)) off = inr t →
  ty_String t = "int" →
  ty_Size t = IntSize (arch (srv st)) →
  Frames 1 st =
  (Abort (Err NoLocation),
   mkState (srv st) (logged (SysGetRegs (stoppedPid (srv st))) (world st))).
Proof.
  intros Hregs Hentry Hnext Hskip Htag Hch Hfield Hbefore Htype Hstr Hsize.
  assert (Hwalk : ∃ acc,
            Frames 1 st =
            bind (bind (Frames_fields (srv st)
                          (uint64 (Rsp regs + uint64 (PointerSize (arch (srv st)))))
                          (Field param) 0 acc)
                       (fun acc => Frames_entries (srv st)
                          (uint64 (Rsp regs + uint64 (PointerSize (arch (srv st)))))
                          more acc))
                 (fun frame => ret [mkFrame frame])
                 (mkState (srv st) (logged (SysGetRegs (stoppedPid (srv st))) (world st)))).
  { match goal with |- ∃ acc, _ = bind (bind (Frames_fields _ ?fp _ _ _) _) _ ?st' =>
      destruct (Frames_entries_passed (srv st) fp skipped (NextEntry param :: more)
                  EmptyString st' Hskip) as (acc & Hent)
    end.
    exists acc. by apply (Frames_reaches_parameter st regs entry param skipped more acc). }
  destruct Hwalk as (acc & ->).
  rewrite Hfield. destruct st as [s w]. cbn [srv world] in *.
  rewrite !bind_eq.
  match goal with |- context [Frames_fields s ?fp _ 0 acc ?st'] =>
    destruct (Frames_fields_no_location s fp before
                (mkField AttrType (VOffset off) :: after) 0 acc st' Hbefore) as (acc' & ->)
  end.
  cbn [Frames_fields Attr Val]. cbn [Z.eqb Pos.eqb AttrType AttrLocation AttrName].
  rewrite Htype, Hstr, Hsize, Z.eqb_refl. cbn [String.eqb Ascii.eqb Bool.eqb negb orb].
  reflexivity.
Qed.

(** ** One expression, one breakpoint *)

Lemma eval_one_result s expr results :
  String.prefix "re:" expr = false →
  eval s expr = inr results →
  ∃ a, results = [a].
Proof.
  intros Hre. unfold eval. rewrite Hre.
  destruct (String.prefix "sym:" expr).
  { destruct (lookupSym s _); intros [= <-]. by eexists. }
  destruct (String.prefix "src:" expr).
  { destruct (ParseUint _); [discriminate|].
    destruct (lookupSource s _) as [[file line] []]; intros [= <-]. by eexists. }
  destruct (starts_with_digit expr); [|discriminate].
  destruct (ParseUint expr); [discriminate|].
  destruct (lookupPC s _); intros [= <-]. by eexists.
Qed.

(** X23.  One expression, one breakpoint, or none.  A Breakpoint request whose
    expression is no regular expression, a symbol, a source line or a number,
    evaluates to one address: either the request returns without error and
    the table has gained the one entry of a pc that had none, or the table
    is as it was. *)
Theorem Breakpoint_sets_one_or_none (Address : string) (st : State) :
  String.prefix "re:" Address = false →
  breakpoints (srv (Breakpoint Address st).2) = breakpoints (srv st) ∨
  ∃ k bp, (Breakpoint Address st).1 = Ok tt ∧
          breakpoints (srv st) !! k = None ∧
          breakpoints (srv (Breakpoint Address st).2) = <[k := bp]> (breakpoints (srv st)).
Proof.
  intros Hre. unfold Breakpoint. rewrite bind_eq. cbn [get_srv].
  destruct (eval (srv st) Address) as [err|addrs] eqn:Hev; [by left|].
  destruct (eval_one_result _ _ _ Hre Hev) as [a ->].
  destruct st as [s w]. cbn [srv world] in *.
  cbn [Breakpoint_loop]. rewrite bind_eq. cbn [get_srv srv].
  destruct (evalAddress s a) as [err|k]; [by left|].
  destruct (has_breakpoint s k) eqn:Hhas; [by left|].
  destruct (slice_to _ _) as [out|]; [|by left].
  rewrite bind_eq, run_peek.
  destruct (traced w (stoppedPid s)); [|by left].
  destruct (mem_read (w_mem w) k (length out)) as [peeked|]; [|by left].
  rewrite bind_eq. cbn [modify_srv srv ret fst snd breakpoints set_breakpoints].
  right. eexists k, _. split; [reflexivity|]. split; [|reflexivity].
  by apply has_breakpoint_false.
Qed.

(** ** The loading of the executable *)

(** X24.  What loadExecutable loads.  When it returns without error the
    architecture is one of the three descriptors ARM, X86 and AMD64, and the
    debug information is the one the reader of the file gave; the file was
    read as ELF, the format tried first, exactly when there is a line table,
    which is then the one parseElf made, and as Mach-O, with no line table,
    when the ELF reader refused it. *)
Theorem loadExecutable_loads (fd : Z) (a : Architecture) (d : dwarf_Data)
    (t : option gosym_Table) :
  loadExecutable fd = Loaded (a, d, t) →
  (a = arch_ARM ∨ a = arch_X86 ∨ a = arch_AMD64) ∧
  ((∃ obj tab, elf_NewFile fd = inr obj ∧ elf_DWARF obj = inr d ∧
               parseElf obj = Ok tab ∧ t = Some tab) ∨
   (∃ err obj, elf_NewFile fd = inl err ∧ macho_NewFile fd = inr obj ∧
               macho_DWARF obj = inr d ∧ t = None ∧ (a = arch_X86 ∨ a = arch_AMD64))).
Proof.
  unfold loadExecutable.
  destruct (elf_NewFile fd) as [err|obj].
  - destruct (macho_NewFile fd) as [err'|obj]; [discriminate|].
    destruct (macho_DWARF obj) as [e|d'] eqn:Hd; [discriminate|].
    destruct (macho_Cpu obj =? Cpu386);
      [|destruct (macho_Cpu obj =? CpuAmd64); [|discriminate]];
      intros [= <- <- <-]; (split; [auto|]); right; exists err, obj; split_and!; auto.
  - destruct (elf_DWARF obj) as [e|d'] eqn:Hd; [discriminate|].
    destruct (parseElf obj) as [tab|[e| |]] eqn:Hp; try discriminate.
    destruct (elf_Machine obj =? EM_ARM);
      [|destruct (elf_Machine obj =? EM_386);
        [destruct (elf_Class obj =? ELFCLASS32);
         [|destruct (elf_Class obj =? ELFCLASS64); [|discriminate]]
        |destruct (elf_Machine obj =? EM_X86_64); [|discriminate]]];
      intros [= <- <- <-]; (split; [auto|]); left; exists obj, tab; split_and!; auto.
Qed.

(** X25.  No source lines for Mach-O.  The server New makes of an executable
    the ELF reader refuses has no line table: lookupSource finds no line for
    any pc, and no src: expression evaluates, the error being that of the
    missing line data whenever the number after the prefix parses. *)
Theorem New_without_ELF_has_no_lines (executable : string) (w w1 w' : World)
    (fd : Z) (err : error) (s : Server) :
  k_openfile executable O_RDONLY w = (Ok fd, w1) →
  elf_NewFile fd = inl err →
  New executable w = (Loaded s, w') →
  table s = None ∧
  (∀ pc, lookupSource s pc = (EmptyString, 0, false)) ∧
  (∀ expr, String.prefix "src:" expr = true →
     (∃ e, eval s expr = inl e) ∧
     (∀ addr, ParseUint (string_from 4 expr) = inr addr →
              eval s expr = inl (NoLineData expr))).
Proof.
  intros Hopen Helf. unfold New. rewrite Hopen. unfold loadExecutable. rewrite Helf.
  destruct (macho_NewFile fd) as [err'|obj]; [discriminate|].
  destruct (macho_DWARF obj) as [e|d]; [discriminate|].
  assert (Hs : ∀ a, s = mkServer a executable d None None false 0 zeroRegs ∅ [] →
            table s = None ∧
            (∀ pc, lookupSource s pc = (EmptyString, 0, false)) ∧
            (∀ expr, String.prefix "src:" expr = true →
               (∃ e, eval s expr = inl e) ∧
               (∀ addr, ParseUint (string_from 4 expr) = inr addr →
                        eval s expr = inl (NoLineData expr)))).
  { intros a ->. split; [reflexivity|]. split; [reflexivity|].
    intros expr Hsrc. destruct (src_prefixed expr Hsrc) as [Hre Hsy].
    unfold eval. rewrite Hre, Hsy, Hsrc. unfold lookupSource. cbn [table].
    destruct (ParseUint (string_from 4 expr)) as [e|addr].
    - split; [by eexists|]. intros ? [=].
    - split; [by eexists|]. by intros ? _. }
  destruct (macho_Cpu obj =? Cpu386);
    [|destruct (macho_Cpu obj =? CpuAmd64); [|discriminate]];
    intros [= <- _]; by eapply Hs.
Qed.

End MoreProofs.

(** * The pattern matcher of the tests *)

Lemma skip_hex_cons n : ∀ a s j,
  skip_hex n (String a s) (Datatypes.S j) = Datatypes.S (skip_hex n s j).
Proof.
  induction n as [|n IH]; intros a s j; cbn [skip_hex String.get]; [reflexivity|].
  change (String.get (Datatypes.S j) (String a s)) with (String.get j s).
  destruct (String.get j s) as [c|]; [|reflexivity].
  destruct (isHex c); [apply IH|reflexivity].
Qed.

Lemma matches_loop_cons p : ∀ a s j,
  matches_loop p (String a s) (Datatypes.S j) = matches_loop p s j.
Proof.
  induction p as [|c p IH]; intros a s j; cbn [matches_loop String.length]; [reflexivity|].
  change (String.get (Datatypes.S j) (String a s)) with (String.get j s).
  change (Datatypes.S j =? Datatypes.S (String.length s))%nat
    with (j =? String.length s)%nat.
  change (Datatypes.S (String.length s) - Datatypes.S j)%nat
    with (String.length s - j)%nat.
  destruct (j =? String.length s)%nat; [reflexivity|].
  destruct (c =? "X")%char; destruct (String.get j s) as [sj|]; try reflexivity.
  - destruct (negb (isHex sj)); [reflexivity|]. rewrite skip_hex_cons. apply IH.
  - destruct (negb (c =? sj)%char); [reflexivity|]. apply IH.
Qed.

Lemma matches_loop_skip_hex p s :
  matches_loop p s (skip_hex (String.length s) s 0) = matches_loop p (drop_hex s) 0.
Proof.
  induction s as [|a s IH]; [reflexivity|].
  cbn [String.length skip_hex String.get drop_hex].
  destruct (isHex a); [|reflexivity].
  rewrite skip_hex_cons, matches_loop_cons. apply IH.
Qed.

Lemma matches_loop_rest p : ∀ s, matches_loop p s 0 = Some (matches_rest p s).
Proof.
  induction p as [|c p IH]; intros [|a s]; try reflexivity.
  cbn [matches_loop matches_rest String.length String.get Nat.eqb].
  rewrite Nat.sub_0_r. destruct (c =? "X")%char.
  - cbn [skip_hex String.get]. destruct (isHex a); [|reflexivity]. cbn [negb andb].
    rewrite skip_hex_cons, matches_loop_cons, matches_loop_skip_hex. apply IH.
  - destruct (c =? a)%char; [|reflexivity]. cbn [negb andb].
    rewrite matches_loop_cons. apply IH.
Qed.

Lemma matches_rest_cons c p a s :
  matches_rest (String c p) (String a s) =
  if (c =? "X")%char then isHex a && matches_rest p (drop_hex s)
  else (c =? a)%char && matches_rest p s.
Proof. reflexivity. Qed.

(** X26.  What matches decides.  The loop over the pattern never indexes the
    subject out of range, and its answer is the one of the recursion on
    pattern and subject: the empty pattern matches the empty subject only;
    an X takes the longest run of hex digits where it stands, one at least,
    and never gives any back; any other character takes itself. *)
Theorem matches_by_recursion (p s : string) :
  matches p s = Some (matches_rest p s).
Proof. apply matches_loop_rest. Qed.

(** X27.  A pattern without X is the subject.  When no character of the
    pattern is an X, the pattern matches one subject, itself. *)
Theorem matches_literal (p s : string) :
  "X"%char ∉ list_ascii_of_string p →
  matches p s = Some (String.eqb p s).
Proof.
  intros HX. unfold matches. rewrite matches_loop_rest. f_equal.
  revert s HX. induction p as [|c p IH]; intros [|a s] HX; try reflexivity.
  cbn [list_ascii_of_string] in HX. apply not_elem_of_cons in HX as [Hc HX].
  rewrite matches_rest_cons. cbn [String.eqb].
  assert (Hne : (c =? "X")%char = false) by (apply Ascii.eqb_neq; congruence).
  rewrite Hne. destruct (c =? a)%char; [|reflexivity]. cbn [andb]. by apply IH.
Qed.

Lemma drop_hex_head s :
  match drop_hex s with
  | EmptyString => True
  | String a _ => isHex a = false
  end.
Proof.
  induction s as [|a s IH]; [exact I|]. cbn [drop_hex].
  destruct (isHex a) eqn:Ha; [exact IH|exact Ha].
Qed.

(** X28.  An X gives nothing back.  A pattern in which an X is followed by a
    hex digit or by another X matches no subject at all: the X before has
    taken every hex digit there was. *)
Theorem matches_X_is_greedy (p q s : string) (c : ascii) :
  isHex c = true ∨ c = "X"%char →
  matches (p ++ String "X" (String c q)) s = Some false.
Proof.
  intros Hc. unfold matches. rewrite matches_loop_rest. f_equal.
  assert (Hnext : ∀ s', matches_rest (String c q) (drop_hex s') = false).
  { intros s'. pose proof (drop_hex_head s') as Hh.
    destruct (drop_hex s') as [|a r]; [reflexivity|]. rewrite matches_rest_cons.
    destruct Hc as [Hc| ->].
    - destruct (c =? "X")%char; [by rewrite Hh|].
      destruct (Ascii.eqb_spec c a) as [<-|]; [congruence|reflexivity].
    - rewrite Ascii.eqb_refl. by rewrite Hh. }
  revert s. induction p as [|c0 p IH]; intros [|a s]; try reflexivity.
  - change (matches_rest (String "X" (String c q)) (String a s) = false).
    rewrite matches_rest_cons, Ascii.eqb_refl, Hnext. apply andb_false_r.
  - change (matches_rest (String c0 (p ++ String "X" (String c q))) (String a s) = false).
    rewrite matches_rest_cons.
    destruct (c0 =? "X")%char; rewrite IH; apply andb_false_r.
Qed.

Lemma elem_of_drop_hex s :
  "X"%char ∈ list_ascii_of_string s → "X"%char ∈ list_ascii_of_string (drop_hex s).
Proof.
  induction s as [|a s IH]; [done|]. cbn [drop_hex list_ascii_of_string].
  destruct (isHex a) eqn:Ha; [|done].
  intros [<-|Hin]%elem_of_cons; [discriminate Ha|]. by apply IH.
Qed.

(** X29.  A subject with an X in it is never matched: to the pattern X stands
    for hex digits, of which it is none, and never for itself. *)
Theorem matches_no_subject_with_X (p s : string) :
  "X"%char ∈ list_ascii_of_string s →
  matches p s = Some false.
Proof.
  intros HX. unfold matches. rewrite matches_loop_rest. f_equal.
  revert s HX. induction p as [|c p IH]; intros [|a s] HX; try reflexivity.
  - by apply elem_of_nil in HX.
  - cbn [list_ascii_of_string] in HX. rewrite matches_rest_cons.
    apply elem_of_cons in HX as [<-|HX].
    + destruct (c =? "X")%char; reflexivity.
    + destruct (c =? "X")%char.
      * rewrite (IH _ (elem_of_drop_hex _ HX)). apply andb_false_r.
      * rewrite (IH _ HX). apply andb_false_r.
Qed.

(** * The handlers on the tracee *)

#[local] Existing Instance tracee_externals.

Lemma at_rest_fresh waits : at_rest (fresh_state waits).
Proof. by apply at_rest_empty. Qed.

(** ** waitForTrap *)

Example exec_stop_is_trap : is_trap 1407 = true.
Proof. reflexivity. Qed.

Example clone_stop_is_no_trap : is_trap clone_status = false.
Proof. reflexivity. Qed.

(** A clone event, then a trap: the clone event is continued with signal 0
    and the trap is returned. *)
Example waitForTrap_passes_over_clone :
  (waitForTrap (-1) (at_foo tracee_dwarf [clone_stop; trap_at foo_pc tracee_mem])).1
    = Ok tracee_pid ∧
  w_log (world (waitForTrap (-1)
                  (at_foo tracee_dwarf [clone_stop; trap_at foo_pc tracee_mem])).2)
    = [SysWait (-1) (Some (tracee_pid, clone_status)); SysCont tracee_pid 0;
       SysWait (-1) (Some (tracee_pid, 1407))].
Proof. split; vm_compute; reflexivity. Qed.

(** With no answer left the tracer blocks in wait. *)
Example waitForTrap_blocks :
  (waitForTrap (-1) (at_foo tracee_dwarf [clone_stop])).1 = Abort Hang.
Proof. vm_compute. reflexivity. Qed.

(** ** The breakpoint table *)

(** A lift that fails half-way.  The debuggee stops at main.foo after it has
    unmapped the code of main.f1; lift pokes main.f1 first, the poke fails,
    Resume returns the error, and the debuggee is left stopped with the
    breakpoint instruction still at main.foo. *)
Lemma failed_lift_leaves_breakpoint :
  ¬ (∀ (reqs : list Request) (st : State),
       at_rest st →
       traced (world (serve reqs st)) (stoppedPid (srv (serve reqs st))) = true →
       at_rest (serve reqs st)).
Proof.
  intros Hall.
  pose (st := fresh_state [trap_at 4196999 tracee_mem; trap_at foo_pc unloaded_mem]).
  pose (reqs := [ReqRun; ReqBreakpoint "re:main\.f.*"; ReqResume]).
  specialize (Hall reqs st (at_rest_fresh _)).
  assert (Hstopped : traced (world (serve reqs st)) (stoppedPid (srv (serve reqs st))) = true)
    by (vm_compute; reflexivity).
  specialize (Hall Hstopped foo_pc foo_breakpoint).
  assert (Hentry : breakpoints (srv (serve reqs st)) !! foo_pc = Some foo_breakpoint)
    by (vm_compute; reflexivity).
  specialize (Hall Hentry).
  assert (Hmem : mem_read (w_mem (world (serve reqs st))) foo_pc
                   (patch_width (srv (serve reqs st))) = Some [xcc])
    by (vm_compute; reflexivity).
  rewrite Hmem in Hall. vm_compute in Hall. discriminate Hall.
Qed.

(** The session of scenario S1, then a second Resume over the breakpoint at
    main.foo up to the one at main.f1. *)
Lemma breakpoints_transparent_session :
  at_rest (fresh_state session_waits) ∧
  calm session (fresh_state session_waits) ∧
  at_rest (serve session (fresh_state session_waits)) ∧
  ∀ st1 st2,
    separate (srv (serve session (fresh_state session_waits))) →
    Resume_prologue (serve session (fresh_state session_waits)) = (Ok tt, st1) →
    Resume_continue st1 = (Ok tt, st2) →
    patched st2 ∧ Resume (serve session (fresh_state session_waits)) = Resume_stop st2.
Proof.
  assert (Hcalm : calm session (fresh_state session_waits)).
  { unfold session. cbn [calm]. split_and!; try exact I; try (vm_compute; reflexivity).
    intros pc bp Hb. cbn in Hb. by rewrite lookup_empty in Hb. }
  split; [apply at_rest_fresh|]. split; [exact Hcalm|].
  exact (breakpoints_transparent session (fresh_state session_waits)
           (at_rest_fresh session_waits) Hcalm).
Defined.

(** Run keeps the table: the entries saved from one process are checked
    against the image of the next, which may differ. *)
Lemma Run_keeps_the_table :
  is_ok (Run (serve [ReqRun; ReqBreakpoint "sym:main.foo"] restarted)).1 = true ∧
  ¬ at_rest (serve [ReqRun; ReqBreakpoint "sym:main.foo"; ReqRun] restarted).
Proof.
  split; [vm_compute; reflexivity|]. intros Hrest.
  specialize (Hrest foo_pc foo_breakpoint ltac:(vm_compute; reflexivity)).
  vm_compute in Hrest. discriminate Hrest.
Qed.

(** On AMD64 every patch is one byte, so no two of them meet. *)
Lemma separate_on_AMD64 st : arch (srv st) = AMD64 → separate (srv st).
Proof. intros Ha. apply separate_single_byte. rewrite Ha. cbn. lia. Qed.

(** On AMD64 install pokes one byte where the array has four. *)
Lemma setBreakpoints_pokes_one_byte :
  ¬ (∀ st pid addr data,
       SysPoke pid addr data ∈ w_log (world (setBreakpoints st).2) →
       SysPoke pid addr data ∉ w_log (world st) →
       Z.of_nat (length data) = MaxBreakpointSize (arch (srv st))).
Proof.
  intros Hmax.
  specialize (Hmax (mkState stopped_server (stopped_world [])) tracee_pid foo_pc [xcc]).
  assert (Hlog : w_log (world (setBreakpoints (mkState stopped_server (stopped_world []))).2)
                 = [SysPoke tracee_pid foo_pc [xcc]]) by (vm_compute; reflexivity).
  rewrite Hlog in Hmax. discriminate Hmax.
  - apply list_elem_of_here.
  - cbn. apply not_elem_of_nil.
Qed.

(** Two requests for main.foo: the second finds the entry of the first. *)
Example Breakpoint_twice_at_foo :
  Breakpoint "sym:main.foo" (mkState stopped_server (stopped_world []))
  = (Abort (Err (DuplicateBreakpoint foo_pc)), mkState stopped_server (stopped_world [])).
Proof. reflexivity. Qed.

(** A duplicate at a later turn.  The tracee has a breakpoint at main.f1 and
    the request is for the symbols main.f.*, main.foo and main.f1 in that
    order: main.foo is set, main.f1 is the duplicate, and the request
    returns DuplicateBreakpoint for main.f1 with the entry of main.foo in the
    table and the entry of main.f1 as it was. *)
Lemma Breakpoint_duplicate_rejected_on_tracee :
  let before := Breakpoint_loop ["main.foo"] (zero_breakpoint (arch (srv f1_only))) f1_only in
  before.1 = Ok tt ∧
  (∃ x, (Breakpoint "re:main\.f.*" f1_only).1 = Abort x) ∧
  breakpoints (srv (Breakpoint "re:main\.f.*" f1_only).2) !! f1_pc = Some f1_breakpoint ∧
  (before.1 = Ok tt →
     Breakpoint "re:main\.f.*" f1_only = (Abort (Err (DuplicateBreakpoint f1_pc)), before.2) ∧
     ∀ a' pc', a' ∈ ["main.foo"] → evalAddress (srv f1_only) a' = inr pc' →
               is_Some (breakpoints (srv (Breakpoint "re:main\.f.*" f1_only).2) !! pc')) ∧
  (["main.foo"] = [] →
     Breakpoint "re:main\.f.*" f1_only = (Abort (Err (DuplicateBreakpoint f1_pc)), f1_only)) ∧
  (before.1 ≠ Ok tt → Breakpoint "re:main\.f.*" f1_only = before) ∧
  (0 ≤ BreakpointSize (arch (srv f1_only)) ≤ MaxBreakpointSize (arch (srv f1_only)) →
     ∃ e, (Breakpoint "re:main\.f.*" f1_only).1 = Abort (Err e)).
Proof.
  intros before. split; [vm_compute; reflexivity|].
  apply (Breakpoint_duplicate_rejected "re:main\.f.*" f1_only f1_pc f1_breakpoint
           ["main.foo"] [] "main.f1").
  - reflexivity.
  - reflexivity.
  - reflexivity.
Defined.

(** An address before the duplicate fails first.  The tracee has exited and
    the server still holds its breakpoint at main.f1; the request for the
    symbols main.f.* resolves to main.f1 among others, but the probe of
    main.foo, which comes first, fails for want of a task, and the request
    returns the error of the peek and no DuplicateBreakpoint. *)
Lemma earlier_failure_hides_duplicate :
  ¬ (∀ Address st pc bp addrs a,
       breakpoints (srv st) !! pc = Some bp →
       eval (srv st) Address = inr addrs →
       a ∈ addrs →
       evalAddress (srv st) a = inr pc →
       ∃ pc', (Breakpoint Address st).1 = Abort (Err (DuplicateBreakpoint pc'))).
Proof.
  intros Hall.
  destruct (Hall "re:main\.f.*" f1_exited f1_pc f1_breakpoint ["main.foo"; "main.f1"] "main.f1")
    as [pc' Hdup].
  - vm_compute. reflexivity.
  - vm_compute. reflexivity.
  - apply list_elem_of_further, list_elem_of_here.
  - vm_compute. reflexivity.
  - assert (Hpeek : (Breakpoint "re:main\.f.*" f1_exited).1
                    = Abort (Err (PeekFailed (Errno ESRCH)))) by (vm_compute; reflexivity).
    rewrite Hpeek in Hdup. discriminate Hdup.
Qed.

(** ** Resume *)

(** Scenario S6: Resume before any Run. *)
Example Resume_without_Run :
  Resume (fresh_state []) = (Abort (Err NoProcess), fresh_state []).
Proof. reflexivity. Qed.

(** The first Resume of the session stops at main.foo: the trap left the
    program counter one byte past it. *)
Lemma Resume_rewinds_pc_at_foo :
  let st := serve [ReqRun; ReqBreakpoint "sym:main.foo"] (fresh_state session_waits) in
  let status := mkStatus foo_pc tracee_sp in
  (Resume st).1 = Ok status ∧
  ∃ ev used before after,
    w_waits (world st) = used ++ WaitEv ev :: w_waits (world (Resume st).2) ∧
    is_trap (ev_status ev) = true ∧
    w_log (world (Resume st).2) =
      before ++ SysWait (-1) (Some (ev_pid ev, ev_status ev)) :: after ∧
    Forall (fun c => ¬ is_wait c) after ∧
    stoppedPid (srv (Resume st).2) = ev_pid ev ∧
    PC status = uint64 (Rip (ev_regs ev) - uint64 (BreakpointSize (arch (srv st)))) ∧
    SP status = Rsp (ev_regs ev) ∧
    (0 ≤ BreakpointSize (arch (srv st)) ≤ Rip (ev_regs ev) →
     Rip (ev_regs ev) < uint64_mod →
     PC status = Rip (ev_regs ev) - BreakpointSize (arch (srv st))) ∧
    stoppedRegs (srv (Resume st).2) = mkRegs (PC status) (SP status) (OtherRegs (ev_regs ev)) ∧
    last (w_log (world (Resume st).2)) =
      Some (SysSetRegs (ev_pid ev) (stoppedRegs (srv (Resume st).2))) ∧
    (ptraceGetRegs (stoppedPid (srv (Resume st).2)) (Resume st).2).1 =
      Ok (mkRegs (PC status) (SP status) (OtherRegs (ev_regs ev))).
Proof.
  intros st status.
  assert (Hok : (Resume st).1 = Ok status) by (vm_compute; reflexivity).
  split; [exact Hok|]. exact (Resume_rewinds_pc st status Hok).
Defined.


(** ** Errors *)

(** Two failures that leave their mark.  A Breakpoint on the symbols main.f.*
    of a tracee that has a breakpoint at main.f1 inserts the one at main.foo
    before it fails on main.f1.  A first Resume whose wait fails has set
    procIsUp already. *)
Lemma failures_leave_their_mark :
  ¬ (∀ Address st e,
       (Breakpoint Address st).1 = Abort (Err e) →
       breakpoints (srv (Breakpoint Address st).2) = breakpoints (srv st)) ∧
  ¬ (∀ st e,
       procIsUp (srv st) = false →
       (Resume st).1 = Abort (Err e) →
       procIsUp (srv (Resume st).2) = false).
Proof.
  split.
  - intros Hall.
    specialize (Hall "re:main\.f.*" f1_only (DuplicateBreakpoint f1_pc)
                  ltac:(vm_compute; reflexivity)).
    assert (Hin : breakpoints (srv (Breakpoint "re:main\.f.*" f1_only).2) !! foo_pc
                  = Some foo_breakpoint) by (vm_compute; reflexivity).
    rewrite Hall in Hin. vm_compute in Hin. discriminate Hin.
  - intros Hall.
    specialize (Hall (serve [ReqRun] (fresh_state [WaitErr 4])) (WaitFailed (Errno 4))
                  ltac:(vm_compute; reflexivity) ltac:(vm_compute; reflexivity)).
    vm_compute in Hall. discriminate Hall.
Qed.

(** ** Open *)

(** Open on a table whose second slot was freed takes that slot. *)
Lemma Open_lowest_free_slot_reuses :
  (Open "/etc/hostname" "r" with_files).1 = Ok tt ∧
  ∃ i fl,
    files (srv (Open "/etc/hostname" "r" with_files).2) !! i = Some (Some fl) ∧
    index fl = i ∧ mode fl = "r" ∧
    (∀ j, (j < i)%nat → ∃ g, files (srv with_files) !! j = Some (Some g)) ∧
    ((files (srv with_files) !! i = Some None ∧
      length (files (srv (Open "/etc/hostname" "r" with_files).2))
      = length (files (srv with_files))) ∨
     (i = length (files (srv with_files)) ∧
      length (files (srv (Open "/etc/hostname" "r" with_files).2))
      = Datatypes.S (length (files (srv with_files))) ∧
      ∀ j, files (srv with_files) !! j ≠ Some None)) ∧
    (∀ j, j ≠ i → files (srv (Open "/etc/hostname" "r" with_files).2) !! j
                  = files (srv with_files) !! j).
Proof.
  assert (Hok : (Open "/etc/hostname" "r" with_files).1 = Ok tt) by (vm_compute; reflexivity).
  split; [exact Hok|]. exact (Open_lowest_free_slot "/etc/hostname" "r" with_files Hok).
Defined.

(** ** Frames *)

(** Scenario S1: the frame of main.foo, with x read from the stack. *)
Example Frames_of_foo :
  (Frames 1 (at_foo tracee_dwarf [])).1
  = Ok [mkFrame " x(0(FP))[int]==0x2a y(8(FP))[float32]"].
Proof. vm_compute. reflexivity. Qed.

Example Frames_count_unimplemented :
  Frames 100 (at_foo tracee_dwarf []) = (Abort (Err Unimplemented), at_foo tracee_dwarf []).
Proof. reflexivity. Qed.

(** Frames on the tracee stopped at main.foo when the type of its parameter x
    is missing from the type table. *)
Lemma Frames_panics_without_type :
  (Frames 1 (at_foo tracee_dwarf_untyped [])).1 = Abort Panic.
Proof.
  refine (proj1 (Frames_type_lookup_unguarded (at_foo tracee_dwarf_untyped []) foo_regs
           (mkEntry 64 46 true [mkField AttrName (VString "main.foo")])
           (mkEntry 80 TagFormalParameter false
              [mkField AttrName (VString "x");
               mkField AttrLocation (VBytes [x9c]);
               mkField AttrType (VOffset 200)])
           [NextEntry (mkEntry 64 46 true [mkField AttrName (VString "main.foo")])]
           (drop 2 tracee_entries)
           [mkField AttrName (VString "x"); mkField AttrLocation (VBytes [x9c])]
           [] 200 _ _ _ _ _ _ _ _) (ErrLib "dwarf: no type at offset") _).
  - reflexivity.
  - reflexivity.
  - reflexivity.
  - apply Forall_cons. split; [|by apply Forall_nil].
    eexists. split; [reflexivity|]. split; [done|]. left. done.
  - reflexivity.
  - reflexivity.
  - reflexivity.
  - apply Forall_cons. split; [|apply Forall_cons; split; [|by apply Forall_nil]].
    + right. left. split; [reflexivity|]. by eexists.
    + left. split; [reflexivity|]. by eexists _, _.
  - reflexivity.
Defined.

(** * More of the server, on the tracee *)

#[local] Existing Instance host_files.
#[local] Existing Instance tracee_loaders.

Lemma pair_fst {A B} (p : A * B) (a : A) : p.1 = a → p = (a, p.2).
Proof. destruct p as [a' b]. cbn. by intros ->. Qed.

Lemma files_indexed_with_files : files_indexed (srv with_files).
Proof.
  intros i fl. destruct i as [|[|[|i]]]; cbn; intros Hfl; try discriminate;
    by injection Hfl as <-.
Qed.

Lemma at_rest_stopped : at_rest (mkState stopped_server (stopped_world [])).
Proof.
  intros pc bp Hbp. cbn [srv breakpoints stopped_server] in Hbp.
  apply lookup_singleton_Some in Hbp as [<- <-]. vm_compute. reflexivity.
Qed.

(** ** The file table *)

(** Scenario S5: the file is opened and read, past its end; it is closed,
    and a second read finds a bad descriptor. *)
Example ReadAt_hostname :
  (ReadAt 0 256 0 (Open "/etc/hostname" "r" (fresh_state [])).2).1
  = Ok (hostname_bytes, Some (ErrLib "EOF")).
Proof. vm_compute. reflexivity. Qed.

Example ReadAt_after_Close :
  (ReadAt 0 256 0 (Close 0 (Open "/etc/hostname" "r" (fresh_state [])).2).2).1
  = Abort (Err (BadFd 0)).
Proof. vm_compute. reflexivity. Qed.

(** A length below zero, for which no buffer can be made. *)
Example ReadAt_negative_length :
  (ReadAt 0 (-1) 0 (Open "/etc/hostname" "r" (fresh_state [])).2).1 = Abort Panic.
Proof. vm_compute. reflexivity. Qed.

(** The descriptor of /etc/hostname is closed, and the next Open takes its
    slot. *)
Lemma Close_frees_for_Open_first_slot :
  ∃ i g,
    (i ≤ Z.to_nat 0)%nat ∧
    files (srv (Open "/etc/hostname" "r" (Close 0 with_files).2).2) !! i = Some (Some g) ∧
    index g = i ∧ mode g = "r" ∧
    length (files (srv (Open "/etc/hostname" "r" (Close 0 with_files).2).2))
    = length (files (srv with_files)) ∧
    ((∀ j, (j < Z.to_nat 0)%nat → ∃ g', files (srv with_files) !! j = Some (Some g')) →
     i = Z.to_nat 0).
Proof.
  apply (Close_frees_for_Open 0 "/etc/hostname" "r" with_files (mkFile "r" 0 5)).
  - lia.
  - reflexivity.
  - vm_compute. reflexivity.
Defined.

(** The breakpoint at main.foo outlives a second Run, a Resume and a
    Breakpoint request that fails. *)
Lemma breakpoints_never_removed_on_tracee :
  breakpoints (srv (invoke_all [MRun; MClose 0; MResume; MBreakpoint "sym:main.foo"]
                               (mkState stopped_server (stopped_world []))))
    !! foo_pc = Some foo_breakpoint.
Proof.
  apply (breakpoints_never_removed
           [MRun; MClose 0; MResume; MBreakpoint "sym:main.foo"]
           (mkState stopped_server (stopped_world [])) foo_pc foo_breakpoint).
  reflexivity.
Defined.

Lemma files_stay_indexed_on_host :
  files_indexed
    (srv (invoke_all [MClose 0; MOpen "/etc/hostname" "rw"; MOpen "/etc/hostname" "r";
                      MReadAt 1 4 0; MClose 7]
                     with_files)).
Proof.
  apply (files_stay_indexed
           [MClose 0; MOpen "/etc/hostname" "rw"; MOpen "/etc/hostname" "r";
            MReadAt 1 4 0; MClose 7] with_files).
  exact files_indexed_with_files.
Defined.

(** ** The breakpoint table *)

Lemma table_stays_well_formed_in_session :
  table_well_formed
    (srv (invoke_all [MRun; MBreakpoint "re:main\.f.*"; MResume; MFrames 1]
                     (fresh_state session_waits))).
Proof.
  apply (table_stays_well_formed [MRun; MBreakpoint "re:main\.f.*"; MResume; MFrames 1]
           (fresh_state session_waits)).
  intros key bp Hk. cbn in Hk. by rewrite lookup_empty in Hk.
Defined.

(** The byte after the breakpoint at main.foo is no byte of a patch. *)
Lemma patches_stay_in_place_at_foo :
  let st := mkState stopped_server (stopped_world []) in
  w_mem (world (setBreakpoints st).2) !! (foo_pc + 1) = w_mem (world st) !! (foo_pc + 1) ∧
  w_mem (world (liftBreakpoints st).2) !! (foo_pc + 1) = w_mem (world st) !! (foo_pc + 1) ∧
  w_regs (world (setBreakpoints st).2) = w_regs (world st) ∧
  w_regs (world (liftBreakpoints st).2) = w_regs (world st).
Proof.
  intros st. apply (patches_stay_in_place st (foo_pc + 1)).
  intros (pc & bp & Hbp & Hrange). cbn [srv st breakpoints stopped_server] in Hbp.
  apply lookup_singleton_Some in Hbp as [<- _]. cbn in Hrange. lia.
Defined.

Lemma install_then_lift_restores_tracee :
  let st := mkState stopped_server (stopped_world []) in
  w_mem (world (liftBreakpoints (setBreakpoints st).2).2) = w_mem (world st).
Proof.
  intros st. apply (install_then_lift_restores st).
  - exact at_rest_stopped.
  - vm_compute. reflexivity.
Defined.

(** ** Breakpoint *)

(** The breakpoint at main.foo, by its symbol: one peek of one byte, and the
    entry that Resume finds. *)
Lemma Breakpoint_saves_instruction_of_foo :
  Breakpoint "sym:main.foo" stopped_clean =
    (Ok tt,
     mkState
       (set_breakpoints
          (<[foo_pc := mkBreakpoint foo_pc
                         ([x64] ++ replicate
                                     (length (BreakpointInstr (arch (srv stopped_clean)))
                                      - patch_width (srv stopped_clean)) x00)]>
             (breakpoints (srv stopped_clean))) (srv stopped_clean))
       (logged (SysPeek (stoppedPid (srv stopped_clean)) foo_pc
                  (patch_width (srv stopped_clean))) (world stopped_clean))).
Proof.
  apply (Breakpoint_saves_instruction "sym:main.foo" "0x401000" stopped_clean foo_pc [x64]).
  - reflexivity.
  - reflexivity.
  - reflexivity.
  - unfold MaxBreakpointSize. cbn. lia.
  - reflexivity.
  - vm_compute. reflexivity.
Defined.

(** A breakpoint asked for at 0x401004, inside main.foo, is set at 0x401000. *)
Lemma Breakpoint_number_breaks_at_foo :
  (Breakpoint (H := numeric_externals) "0x401004" stopped_clean).1 = Ok tt ∧
  breakpoints (srv (Breakpoint (H := numeric_externals) "0x401004" stopped_clean).2)
  = <[foo_pc := mkBreakpoint foo_pc
                  ([x64] ++ replicate (length (BreakpointInstr (arch (srv stopped_clean)))
                                       - patch_width (srv stopped_clean)) x00)]>
      (breakpoints (srv stopped_clean)) ∧
  (foo_pc + 4 ≠ foo_pc →
   breakpoints (srv (Breakpoint (H := numeric_externals) "0x401004" stopped_clean).2)
     !! (foo_pc + 4)
   = breakpoints (srv stopped_clean) !! (foo_pc + 4)).
Proof.
  apply (Breakpoint_number_breaks_at_symbol (H := numeric_externals)
           "0x401004" "main.foo" stopped_clean (foo_pc + 4) foo_pc [x64]).
  - reflexivity.
  - reflexivity.
  - reflexivity.
  - reflexivity.
  - reflexivity.
  - unfold MaxBreakpointSize. cbn. lia.
  - reflexivity.
  - vm_compute. reflexivity.
Defined.

(** The address of main.foo evaluates to tracee.go:12, which is no address. *)
Lemma Breakpoint_at_source_line_of_foo :
  Breakpoint "src:0x401000" stopped_with_lines
  = (Abort (Err (NotAnAddress ("tracee.go" ++ ":" ++ sprint_d 12)%string)),
     stopped_with_lines).
Proof.
  apply (Breakpoint_at_source_line_fails "src:0x401000" "tracee.go" 12 foo_pc
           stopped_with_lines).
  - reflexivity.
  - reflexivity.
  - reflexivity.
  - intros e. vm_compute. discriminate.
  - intros e. vm_compute. discriminate.
Defined.

Lemma Breakpoint_sets_one_at_foo :
  breakpoints (srv (Breakpoint "sym:main.foo" stopped_clean).2)
  = breakpoints (srv stopped_clean) ∨
  ∃ k bp, (Breakpoint "sym:main.foo" stopped_clean).1 = Ok tt ∧
          breakpoints (srv stopped_clean) !! k = None ∧
          breakpoints (srv (Breakpoint "sym:main.foo" stopped_clean).2)
          = <[k := bp]> (breakpoints (srv stopped_clean)).
Proof.
  apply (Breakpoint_sets_one_or_none "sym:main.foo" stopped_clean). reflexivity.
Defined.

(** ** Resume and Run *)

(** The tracee is continued with the trap at main.foo and the wait fails:
    the trap stays in its memory. *)
Lemma Resume_lost_wait_on_tracee :
  let st := mkState stopped_server (stopped_world [WaitErr 4]) in
  (Resume st).1 = Abort (Err (WaitFailed (Errno 4))) ∧
  stoppedPid (srv (Resume st).2) = 0 ∧
  mem_read (w_mem (world (Resume st).2)) foo_pc 1 = Some [xcc].
Proof.
  intros st.
  assert (Hpro : Resume_prologue st = (Ok tt, st)) by reflexivity.
  assert (Hcont : Resume_continue st = (Ok tt, (Resume_continue st).2)).
  { apply pair_fst. vm_compute. reflexivity. }
  assert (Hwaits : w_waits (world (Resume_continue st).2) = WaitErr 4 :: [])
    by (vm_compute; reflexivity).
  destruct (Resume_lost_wait_leaves_traps st st (Resume_continue st).2 4 [] Hpro Hcont Hwaits)
    as (Herr & Hpid & Hbp & _ & Hpatched).
  split; [exact Herr|]. split; [exact Hpid|].
  assert (Hsep : separate (srv st)) by (by apply separate_on_AMD64).
  apply (Hpatched Hsep foo_pc foo_breakpoint). rewrite Hbp. reflexivity.
Defined.

(** The tracee exits while the server waits for it. *)
Lemma waitForTrap_after_exit_of_tracee :
  let st := at_foo tracee_dwarf [tracee_exit] in
  (waitForTrap (-1) st).1 = Abort (Err (ContinueFailed (Errno ESRCH))) ∧
  w_log (world (waitForTrap (-1) st).2)
  = w_log (world st) ++ [SysWait (-1) (Some (tracee_pid, 0)); SysCont tracee_pid 0] ∧
  w_waits (world (waitForTrap (-1) st).2) = [] ∧
  (Resume_stop st).1 = Abort (Err (ContinueFailed (Errno ESRCH))) ∧
  stoppedPid (srv (Resume_stop st).2) = 0.
Proof.
  intros st.
  apply (waitForTrap_after_exit (-1) st (mkEvent tracee_pid 0 foo_regs ∅) []); reflexivity.
Defined.

(** Run on the server that has the tracee, when no process can be started. *)
Lemma failed_Run_on_tracee :
  let st := mkState stopped_server (stopped_world []) in
  proc (srv (Run st).2) = None ∧
  w_log (world (Run st).2)
  = w_log (world st)
      ++ match proc (srv st) with Some p => [SysKill (Pid p)] | None => [] end
      ++ [SysStart (executable (srv st))] ∧
  (is_Some (proc (srv st)) →
     procIsUp (srv (Run st).2) = false ∧ stoppedPid (srv (Run st).2) = 0 ∧
     w_mem (world (Run st).2) = ∅ ∧ w_regs (world (Run st).2) = ∅) ∧
  Resume (Run st).2 = (Abort (Err NoProcess), (Run st).2).
Proof.
  intros st. apply (failed_Run_leaves_no_process st (Err (Errno EIO))). reflexivity.
Defined.

Lemma Run_starts_the_tracee :
  ∃ sp rest,
    w_spawns (world (fresh_state [])) = inr sp :: rest ∧
    proc (srv (Run (fresh_state [])).2) = Some (mkProcess (sp_pid sp)) ∧
    stoppedPid (srv (Run (fresh_state [])).2) = sp_pid sp ∧
    procIsUp (srv (Run (fresh_state [])).2) = false ∧
    w_regs (world (Run (fresh_state [])).2) = {[sp_pid sp := sp_regs sp]} ∧
    w_mem (world (Run (fresh_state [])).2) = sp_mem sp ∧
    w_spawns (world (Run (fresh_state [])).2) = rest.
Proof.
  apply (Run_starts_afresh (fresh_state [])).
  - intros Hup. discriminate Hup.
  - reflexivity.
Defined.

Lemma up_only_with_process_in_session :
  up_has_process (srv (invoke_all [MRun; MResume; MRun; MRun] (fresh_state session_waits))).
Proof.
  apply (up_only_with_process [MRun; MResume; MRun; MRun] (fresh_state session_waits)).
  intros Hup. discriminate Hup.
Defined.

(** ** Frames *)

(** Scenario S1: the parameter x of main.foo, read at 0(FP). *)
Lemma Frames_reads_x_of_foo :
  let st := at_foo tracee_dwarf [] in
  let fp := uint64 (Rsp foo_regs + uint64 (PointerSize (arch (srv st)))) in
  Frames 1 st =
  bind (Frames_entries (srv st) fp (drop 2 tracee_entries)
          ((((EmptyString ++ " " ++ "x") ++ "(" ++ sprint_d 0 ++ "(FP))")
            ++ "[" ++ "int" ++ "]")
           ++ "==" ++ sprint_x (Int (arch (srv st)) [x2a; x00; x00; x00; x00; x00; x00; x00]))%string)
       (fun frame => ret [mkFrame frame])
       (mkState (srv st)
          (logged (SysPeek (stoppedPid (srv st)) (uint64 (fp + 0))
                     (Z.to_nat (IntSize (arch (srv st)))))
             (logged (SysGetRegs (stoppedPid (srv st))) (world st)))).
Proof.
  intros st fp.
  apply (Frames_reads_int_parameter st foo_regs
           (mkEntry 64 46 true [mkField AttrName (VString "main.foo")])
           (mkEntry 80 TagFormalParameter false
              [mkField AttrName (VString "x");
               mkField AttrLocation (VBytes [x9c]);
               mkField AttrType (VOffset 200)])
           [NextEntry (mkEntry 64 46 true [mkField AttrName (VString "main.foo")])]
           (drop 2 tracee_entries)
           "x" [x9c] [x2a; x00; x00; x00; x00; x00; x00; x00] 0 200 (mkType "int" 8)).
  - reflexivity.
  - reflexivity.
  - reflexivity.
  - apply Forall_cons. split; [|by apply Forall_nil].
    eexists. split; [reflexivity|]. split; discriminate.
  - reflexivity.
  - reflexivity.
  - reflexivity.
  - reflexivity.
  - reflexivity.
  - reflexivity.
  - reflexivity.
  - cbn. lia.
  - vm_compute. discriminate.
  - vm_compute. reflexivity.
Defined.

(** The tracee whose type of x stands before its location. *)
Lemma Frames_needs_location_first_on_tracee :
  Frames 1 (at_foo tracee_dwarf_type_first []) =
  (Abort (Err NoLocation),
   mkState (srv (at_foo tracee_dwarf_type_first []))
     (logged (SysGetRegs (stoppedPid (srv (at_foo tracee_dwarf_type_first []))))
        (world (at_foo tracee_dwarf_type_first [])))).
Proof.
  apply (Frames_needs_location_first (at_foo tracee_dwarf_type_first []) foo_regs
           (mkEntry 64 46 true [mkField AttrName (VString "main.foo")])
           (mkEntry 80 TagFormalParameter false
              [mkField AttrName (VString "x");
               mkField AttrType (VOffset 200);
               mkField AttrLocation (VBytes [x9c])])
           [NextEntry (mkEntry 64 46 true [mkField AttrName (VString "main.foo")])]
           [NextEntry (mkEntry 112 0 false [])]
           [mkField AttrName (VString "x")]
           [mkField AttrLocation (VBytes [x9c])] 200 (mkType "int" 8)).
  - reflexivity.
  - reflexivity.
  - reflexivity.
  - apply Forall_cons. split; [|by apply Forall_nil].
    eexists. split; [reflexivity|]. split; [done|]. left. done.
  - reflexivity.
  - reflexivity.
  - reflexivity.
  - apply Forall_cons. split; [|by apply Forall_nil]. split; [|discriminate].
    right. left. split; [reflexivity|]. by eexists.
  - reflexivity.
  - reflexivity.
  - reflexivity.
Defined.

(** ** The loading of the executable *)

Lemma loadExecutable_loads_the_tracee :
  (AMD64 = arch_ARM ∨ AMD64 = arch_X86 ∨ AMD64 = arch_AMD64) ∧
  ((∃ obj tab, elf_NewFile 3 = inr obj ∧ elf_DWARF obj = inr tracee_dwarf ∧
               parseElf obj = Ok tab ∧ Some tracee_table = Some tab) ∨
   (∃ err obj, elf_NewFile 3 = inl err ∧ macho_NewFile 3 = inr obj ∧
               macho_DWARF obj = inr tracee_dwarf ∧ Some tracee_table = None ∧
               (AMD64 = arch_X86 ∨ AMD64 = arch_AMD64))).
Proof.
  apply (loadExecutable_loads 3 AMD64 tracee_dwarf (Some tracee_table)). reflexivity.
Defined.

(** The tracee as a Mach-O file: no line for main.foo. *)
Lemma New_Mach_O_has_no_lines :
  let s := mkServer AMD64 "tracee.macho" tracee_dwarf None None false 0 zeroRegs ∅ [] in
  table s = None ∧
  (∀ pc, lookupSource s pc = (EmptyString, 0, false)) ∧
  (∀ expr, String.prefix "src:" expr = true →
     (∃ e, eval s expr = inl e) ∧
     (∀ addr, ParseUint (string_from 4 expr) = inr addr →
              eval s expr = inl (NoLineData expr))).
Proof.
  intros s.
  apply (New_without_ELF_has_no_lines "tracee.macho" host_world
           (logged (SysOpenFile "tracee.macho" O_RDONLY) host_world)
           (logged (SysOpenFile "tracee.macho" O_RDONLY) host_world)
           4 (ErrLib "bad magic number") s); reflexivity.
Defined.

(** ** The pattern matcher *)

(** The patterns of the tests: an address, a pointer in a struct. *)
Example matches_address : matches "0xX" "0x1f4a" = Some true.
Proof. vm_compute. reflexivity. Qed.

Example matches_pointer_in_struct :
  matches "struct {0xX, 21}" "struct {0xc208000040, 21}" = Some true.
Proof. vm_compute. reflexivity. Qed.

Example matches_needs_a_digit : matches "0xX" "0x" = Some false.
Proof. vm_compute. reflexivity. Qed.

Lemma matches_literal_name :
  matches "main.foo" "main.foo" = Some (String.eqb "main.foo" "main.foo").
Proof.
  apply (matches_literal "main.foo" "main.foo").
  intros Hin. repeat (apply elem_of_cons in Hin as [Hin|Hin]; [discriminate Hin|]).
  by apply elem_of_nil in Hin.
Defined.

(** The pattern 0xXf matches no address, not even 0x1f. *)
Lemma matches_X_then_hex_digit : matches ("0x" ++ String "X" (String "f" "")) "0x1f" = Some false.
Proof. apply (matches_X_is_greedy "0x" "" "0x1f" "f"). left. reflexivity. Defined.

Lemma matches_no_upper_case_prefix : matches "0xX" "0XFF" = Some false.
Proof.
  apply (matches_no_subject_with_X "0xX" "0XFF").
  cbn [list_ascii_of_string]. apply list_elem_of_further, list_elem_of_here.
Defined.
